(** * medicine_agent: the plan / execute / summarize loop and its tools

    A shallow embedding of [src/agent/agent.py] (class [RAGAgentSystem]),
    of the tools of [src/agent/tools.py], of the sessions of [main.py],
    of the chunking of [src/utlis/embedding_medicine.py] and of
    [Neo4j.insert_to_db] from [src/database/neo4j_graph_db.py].

    - Python [str] values are sequences of code points ([PyStr.str]).
    - A call that may raise returns an [outcome].
    - The language model, the prompt templates, the JSON decoder and the
      retrieval tools are collaborators of the agent: they are the
      fields of [Env]; the graph store is a [Tools.Searcher].
    - The nodes of the graph run in a small monad that threads the log of
      the calls they make and of the states they are entered with. *)

From Stdlib Require Import Ascii String.
From Stdlib Require Import List Bool Arith NArith Lia.
From Stdlib Require Import Sorting.Sorted Sorting.Permutation.
Import ListNotations.

Set Implicit Arguments.
Set Warnings "-register-all".

(** ** Results of calls that may raise *)

Inductive exn : Type :=
| IndexError
| OtherError (descr : nat).

Inductive outcome (A : Type) : Type :=
| Ok (a : A)
| Raise (e : exn).

Arguments Ok {A} a.
Arguments Raise {A} e.

(** ** Python strings *)

Module PyStr.

(** A [str] is the list of its code points. *)
Definition str : Type := list N.

(** Decoding of the UTF-8 bytes of a literal; [pending] continuation
    bytes are still to be read into [acc]. *)
Fixpoint utf8_decode (pending : nat) (acc : N) (s : string) : str :=
  match s with
  | EmptyString => []
  | String a s' =>
      let b := N_of_ascii a in
      match pending with
      | O =>
          if (b <? 128)%N then b :: utf8_decode 0 0%N s'
          else if (b <? 224)%N then utf8_decode 1 (b - 192)%N s'
          else if (b <? 240)%N then utf8_decode 2 (b - 224)%N s'
          else utf8_decode 3 (b - 240)%N s'
      | S k =>
          let acc' := (acc * 64 + b mod 64)%N in
          match k with
          | O => acc' :: utf8_decode 0 0%N s'
          | S _ => utf8_decode k acc' s'
          end
      end
  end.

Definition text (s : string) : str := utf8_decode 0 0%N s.

Fixpoint str_eqb (s t : str) : bool :=
  match s, t with
  | [], [] => true
  | a :: s', b :: t' => (a =? b)%N && str_eqb s' t'
  | _, _ => false
  end.

(** [s.startswith(p)] *)
Fixpoint starts_with (p s : str) : bool :=
  match p, s with
  | [], _ => true
  | _ :: _, [] => false
  | a :: p', b :: s' => (a =? b)%N && starts_with p' s'
  end.

(** [sub in s] *)
Fixpoint contains (sub s : str) : bool :=
  starts_with sub s ||
  match s with
  | [] => false
  | _ :: s' => contains sub s'
  end.

(** [s.split(sep)] for a separator of one character. *)
Fixpoint split_on (sep : N) (s : str) : list str :=
  match s with
  | [] => [[]]
  | c :: s' =>
      if (c =? sep)%N then [] :: split_on sep s'
      else match split_on sep s' with
           | h :: t => (c :: h) :: t
           | [] => [[c]]
           end
  end.

(** [s.replace(old, new)] scans from the left and replaces the
    occurrences of [old] that do not overlap; [skip] characters of the
    occurrence being replaced are still to be dropped. *)
Fixpoint replace_from (old new : str) (skip : nat) (s : str) : str :=
  match s with
  | [] => []
  | c :: s' =>
      match skip with
      | S k => replace_from old new k s'
      | O =>
          if starts_with old s
          then new ++ replace_from old new (length old - 1) s'
          else c :: replace_from old new 0 s'
      end
  end.

Definition replace (old new s : str) : str :=
  match old with
  | [] => new ++ flat_map (fun c => c :: new) s
  | _ :: _ => replace_from old new 0 s
  end.

(** The code points for which [str.isspace] holds; [strip] with no
    argument removes them from both ends. *)
Definition isspace (c : N) : bool :=
  ((9 <=? c) && (c <=? 13) || (28 <=? c) && (c <=? 32) ||
   (c =? 133) || (c =? 160) || (c =? 5760) ||
   (8192 <=? c) && (c <=? 8202) ||
   (c =? 8232) || (c =? 8233) || (c =? 8239) || (c =? 8287) ||
   (c =? 12288))%N.

Fixpoint lstrip (s : str) : str :=
  match s with
  | [] => []
  | c :: s' => if isspace c then lstrip s' else s
  end.

Definition rstrip (s : str) : str := rev (lstrip (rev s)).

Definition strip (s : str) : str := lstrip (rstrip s).

(** [sep.join(l)] *)
Fixpoint join (sep : str) (l : list str) : str :=
  match l with
  | [] => []
  | [s] => s
  | s :: l' => s ++ sep ++ join sep l'
  end.

Definition newline : N := 10%N.
Definition pipe : N := 124%N.

End PyStr.

Import PyStr.

(** ** The plan and its parsing ([_planner_node], lines 98-108) *)

Record PlanStep : Type := mkStep { tool : str; query : str }.

Definition marker_tool : str := Eval vm_compute in text "Tool:".
Definition marker_query : str := Eval vm_compute in text "Query:".

(** [[p for p in parts if marker in p][0]] *)
Definition first_with (marker : str) (parts : list str) : outcome str :=
  match filter (contains marker) parts with
  | p :: _ => Ok p
  | [] => Raise IndexError
  end.

(** The body of the loop over the lines of the response. *)
Definition parse_line (plan : list PlanStep) (line : str)
  : outcome (list PlanStep) :=
  if contains marker_tool line && contains marker_query line then
    let parts := split_on pipe line in
    match first_with marker_tool parts with
    | Ok tool_part =>
        match first_with marker_query parts with
        | Ok query_part =>
            let tool_name := strip (replace marker_tool [] tool_part) in
            let query := strip (replace marker_query [] query_part) in
            Ok (plan ++ [mkStep tool_name query])
        | Raise e => Raise e
        end
    | Raise e => Raise e
    end
  else Ok plan.

Fixpoint parse_lines (plan : list PlanStep) (lines : list str)
  : outcome (list PlanStep) :=
  match lines with
  | [] => Ok plan
  | line :: rest =>
      match parse_line plan line with
      | Ok plan' => parse_lines plan' rest
      | Raise e => Raise e
      end
  end.

Definition parse_plan (response : str) : outcome (list PlanStep) :=
  parse_lines [] (split_on newline response).


(** ** Values, JSON and the collaborators of the agent *)

(** The Python values that a tool returns and that end up as a final
    answer: [None], a [str], or the empty list that
    [recommend_alternatives] returns when nothing matches. *)
Inductive pyval : Type :=
| PyNone
| PyStr (s : str)
| PyEmptyList.

(** Truth value of [v] in [if v] and in a comprehension filter. *)
Definition truthy (v : pyval) : bool :=
  match v with
  | PyStr (_ :: _) => true
  | _ => false
  end.

(** [f"{v}"] *)
Definition format_pyval (v : pyval) : str :=
  match v with
  | PyNone => text "None"
  | PyStr s => s
  | PyEmptyList => text "[]"
  end.

(** What [json.loads] returns. *)
Inductive json : Type :=
| JNull
| JBool (b : bool)
| JNumber (literal : str)
| JString (s : str)
| JArray (items : list json)
| JObject (members : list (str * json)).

(** The argument of [tool.run]: the query itself, or the dict
    [{"indications": ...}] built for [recommend_by_indications]. *)
Inductive tool_input : Type :=
| InText (s : str)
| InIndications (j : json).

Definition Tool : Type := tool_input -> outcome pyval.

Inductive role : Type := human | ai.

Record Message : Type := mkMessage { type : role; content : pyval }.

(** Everything the agent calls and does not define: the model behind
    [self.llm.invoke(...).content], the two prompt templates (which raise
    when [format] meets a stray brace), [json.loads], and the four tools
    of [tools.py] behind [tool.run]. *)
Record Env : Type := mkEnv {
  llm_invoke : str -> outcome str;
  planner_template : str -> str -> str -> outcome str;
  summarizer_template : str -> str -> str -> outcome str;
  json_loads : str -> outcome json;
  search_by_name : Tool;
  search_by_query : Tool;
  recommend_alternatives_tool : Tool;
  recommend_by_indications : Tool
}.

(** ** The state of a turn *)

Record ToolResult : Type := mkResult {
  tr_tool : str;
  tr_query : str;
  result : pyval
}.

(** The dict that [run] hands to the graph. *)
Record TurnInput : Type := mkInput {
  in_question : str;
  in_chat_history : list Message
}.

(** The dict after the planner.  A key that a node may not have set yet
    is an [option], [None] meaning that the key is absent. *)
Record State : Type := mkState {
  question : str;
  chat_history : list Message;
  plan : list PlanStep;
  results : list ToolResult;
  current_index : nat;
  done : option bool;
  force_end : option bool;
  final_answer : option pyval
}.

(** [state.get(key, default)] *)
Definition get {A} (entry : option A) (default : A) : A :=
  match entry with
  | Some v => v
  | None => default
  end.

(** ** The log of calls and the monad of the nodes

    The graph logs the state with which it enters the Executor and the
    Summarizer; the nodes log the calls they make. *)

Inductive event : Type :=
| EnterPlanner
| EnterExecutor (state : State)
| EnterSummarizer (state : State)
| CallLLM (prompt : str)
| CallTool (name : str) (input : tool_input).

(** A computation extends the log and returns or raises; [None] is
    the answer of a loop that was not given enough fuel. *)
Definition M (A : Type) : Type :=
  list event -> option (outcome A) * list event.

Definition ret {A} (a : A) : M A := fun log => (Some (Ok a), log).

Definition bind {A B} (m : M A) (k : A -> M B) : M B :=
  fun log =>
    match m log with
    | (Some (Ok a), log') => k a log'
    | (Some (Raise e), log') => (Some (Raise e), log')
    | (None, log') => (None, log')
    end.

Definition emit (ev : event) : M unit :=
  fun log => (Some (Ok tt), log ++ [ev]).

Definition lift {A} (o : outcome A) : M A := fun log => (Some o, log).

Declare Scope agent_scope.
Delimit Scope agent_scope with agent.
Notation "x <- m ;; k" := (bind m (fun x => k))
  (at level 61, m at next level, right associativity) : agent_scope.
Notation "m ;; k" := (bind m (fun _ => k))
  (at level 61, right associativity) : agent_scope.
Open Scope agent_scope.

(** ** [RAGAgentSystem] *)

Definition name_search_by_name : str :=
  Eval vm_compute in text "search_by_name".
Definition name_search_by_query : str :=
  Eval vm_compute in text "search_by_query".
Definition name_recommend_alternatives : str :=
  Eval vm_compute in text "recommend_alternatives".
Definition name_recommend_by_indications : str :=
  Eval vm_compute in text "recommend_by_indications".

(** [self.tools] *)
Definition tools (E : Env) : list (str * Tool) :=
  [ (name_search_by_name, search_by_name E);
    (name_search_by_query, search_by_query E);
    (name_recommend_alternatives, recommend_alternatives_tool E);
    (name_recommend_by_indications, recommend_by_indications E) ].

(** [self.tools.get(tool_name)] *)
Fixpoint dict_get {A} (d : list (str * A)) (key : str) : option A :=
  match d with
  | [] => None
  | (k, v) :: d' => if str_eqb k key then Some v else dict_get d' key
  end.

Definition role_name (r : role) : str :=
  match r with
  | human => text "human"
  | ai => text "ai"
  end.

(** ["\n".join([f"{msg.type}: {msg.content}" for msg in chat_history])] *)
Definition history_str (chat_history : list Message) : str :=
  join [newline]
    (map (fun msg => role_name (type msg) ++ text ": "
                     ++ format_pyval (content msg)) chat_history).

Definition call_llm (E : Env) (prompt : str) : M str :=
  emit (CallLLM prompt) ;; lift (llm_invoke E prompt).

Definition call_tool (name : str) (t : Tool) (input : tool_input) : M pyval :=
  emit (CallTool name input) ;; lift (t input).

Definition _planner_node (E : Env) (state : TurnInput) : M State :=
  let question := in_question state in
  let chat_history := in_chat_history state in
  let allowed_tools := map fst (tools E) in
  let tool_list_str :=
    join [newline] (map (fun t => text "- " ++ t) allowed_tools) in
  formatted_prompt <-
    lift (planner_template E (history_str chat_history) question
            tool_list_str) ;;
  response <- call_llm E formatted_prompt ;;
  plan <- lift (parse_plan response) ;;
  ret {| question := question; chat_history := chat_history;
         plan := plan; results := []; current_index := 0;
         done := None; force_end := None; final_answer := None |}.

Definition tool_missing (tool_name : str) : str :=
  text "Tool '" ++ tool_name ++ text "' không tồn tại.".

Definition fallback_answer : str :=
  Eval vm_compute in text "Không tìm được dữ liệu hữu ích sau 3 lần thử.".

Definition max_attempts : nat := 3.

(** Line 138: the indications tool gets the decoded query in a dict,
    the other tools get the query. *)
Definition invoke_tool (E : Env) (tool_name query : str) (t : Tool)
  : M pyval :=
  if str_eqb tool_name name_recommend_by_indications then
    indications <- lift (json_loads E query) ;;
    call_tool tool_name t (InIndications indications)
  else call_tool tool_name t (InText query).

Definition _executor_node (E : Env) (state : State) : M State :=
  let index := current_index state in
  let plan := plan state in
  let results := results state in
  if length plan <=? index then
    ret {| question := question state; chat_history := chat_history state;
           plan := plan; results := results; current_index := index;
           done := Some true; force_end := force_end state;
           final_answer := final_answer state |}
  else
    match nth_error plan index with
    | None => lift (Raise IndexError)
    | Some step =>
        let tool_name := tool step in
        let query := query step in
        res <-
          match dict_get (tools E) tool_name with
          | None => ret (PyStr (tool_missing tool_name))
          | Some t => invoke_tool E tool_name query t
          end ;;
        let results := results ++ [mkResult tool_name query res] in
        let useful_results := filter (fun r => truthy (result r)) results in
        let forced :=
          (max_attempts <=? index + 1) &&
          match useful_results with [] => true | _ :: _ => false end in
        ret {| question := question state;
               chat_history := chat_history state;
               plan := plan; results := results;
               current_index := index + 1;
               done := done state;
               force_end := Some forced;
               final_answer :=
                 Some (if forced then PyStr fallback_answer else PyNone) |}
    end.

Definition _should_continue (state : State) : bool :=
  if get (force_end state) false then false
  else current_index state <? length (plan state).

(** ["\n".join([f"- {r['query']}: {r['result']}" for r in results])] *)
Definition context_str (results : list ToolResult) : str :=
  join [newline]
    (map (fun r => text "- " ++ tr_query r ++ text ": "
                   ++ format_pyval (result r)) results).

Definition _summarizer_node (E : Env) (state : State) : M State :=
  let context := context_str (results state) in
  formatted_prompt <-
    lift (summarizer_template E (history_str (chat_history state)) context
            (question state)) ;;
  final_answer <- call_llm E formatted_prompt ;;
  ret {| question := question state; chat_history := chat_history state;
         plan := plan state; results := results state;
         current_index := current_index state;
         done := done state; force_end := force_end state;
         final_answer := Some (PyStr final_answer) |}.

(** The graph of [_build_graph]: Planner, then Executor, which is
    entered again while [_should_continue] holds, then Summarizer.
    [fuel] bounds the number of times the Executor is entered.  The
    recursion limit of the graph library (25 steps unless configured)
    is not part of this graph: a plan long enough to reach it makes the
    program raise where this graph goes on. *)
Fixpoint executor_loop (E : Env) (fuel : nat) (state : State) : M State :=
  match fuel with
  | O => fun log => (None, log)
  | S fuel' =>
      emit (EnterExecutor state) ;;
      state' <- _executor_node E state ;;
      if _should_continue state' then executor_loop E fuel' state'
      else ret state'
  end.

Definition graph_invoke (E : Env) (state : TurnInput) : M State :=
  emit EnterPlanner ;;
  state <- _planner_node E state ;;
  state <- executor_loop E (S (length (plan state))) state ;;
  emit (EnterSummarizer state) ;;
  _summarizer_node E state.

Definition no_result : str := Eval vm_compute in text "Không có kết quả.".

Definition validation_error : exn := OtherError 5.

(** [self.memory.chat_memory.add_ai_message(final_answer)]: the content
    of a message is a text or a list; for [None] the message is not
    built, [ValidationError] is raised and the memory is left as it
    was. *)
Definition add_ai_message (memory : list Message) (final_answer : pyval)
  : outcome (list Message) :=
  match final_answer with
  | PyNone => Raise validation_error
  | PyStr _ | PyEmptyList => Ok (memory ++ [mkMessage ai final_answer])
  end.

(** [run], over the messages of [self.memory] and the log.  The graph
    is an argument, as [self.graph] is an attribute of the object. *)
Definition run_with (invoke : TurnInput -> M State) (question : str)
  (memory : list Message) (log : list event)
  : option (outcome pyval) * list Message * list event :=
  let memory := memory ++ [mkMessage human (PyStr question)] in
  let state := mkInput question memory in
  match invoke state log with
  | (Some (Ok result_state), log') =>
      let final_answer := get (final_answer result_state) (PyStr no_result) in
      match add_ai_message memory final_answer with
      | Ok memory' => (Some (Ok final_answer), memory', log')
      | Raise e => (Some (Raise e), memory, log')
      end
  | (Some (Raise e), log') => (Some (Raise e), memory, log')
  | (None, log') => (None, memory, log')
  end.

Definition run (E : Env) : str -> list Message -> list event
  -> option (outcome pyval) * list Message * list event :=
  run_with (graph_invoke E).

(** ** [recommend_alternatives] ([tools.py]) *)

Module Tools.

(** A node of the graph store as [dict(record["d"])] returns it. *)
Record Entity : Type := mkEntity {
  id : str;
  name : str;
  metadata : option str
}.

Inductive direction : Type := dir_out | dir_in.

(** The two queries of [Neo4j] that the tool uses, and the two
    library calls it makes on what they return: [json.loads] and the
    text that an f-string gives for a decoded value. *)
Record Searcher : Type := mkSearcher {
  find_medicine_regex : str -> list Entity;
  find_relations : str -> str -> direction -> list Entity;
  loads : str -> outcome json;
  format_json : json -> str
}.

Definition rel_type : str := Eval vm_compute in text "LOẠI THUỐC".
Definition rel_indication : str := Eval vm_compute in text "CHỈ ĐỊNH".
Definition rel_ingredient : str := Eval vm_compute in text "THÀNH PHẦN".

(** The medicines on the other end of [rel] from each node of
    [nodes]: the loops that fill [alts_type], [alts_ind] and
    [alts_ingre]. *)
Definition alternatives_via (searcher : Searcher) (rel : str)
  (nodes : list Entity) : list Entity :=
  fold_left
    (fun alts t => alts ++ find_relations searcher (id t) rel dir_in)
    nodes [].

(** [scores]: a dict from a name to its count and metadata, in the
    order in which the names were first seen.  The [None] that the
    [defaultdict] puts in a new entry is overwritten by the statement
    that follows the increment, so an entry holds a [str]. *)
Definition Scores : Type := list (str * (nat * str)).

(** [scores[n][0] += 1; scores[n][1] = md] *)
Fixpoint bump (n : str) (md : str) (scores : Scores) : Scores :=
  match scores with
  | [] => [(n, (1, md))]
  | (k, (count, old)) :: rest =>
      if str_eqb k n then (k, (count + 1, md)) :: rest
      else (k, (count, old)) :: bump n md rest
  end.

(** [m.get("metadata", "{}")] *)
Definition metadata_of (m : Entity) : str :=
  match metadata m with
  | Some md => md
  | None => text "{}"
  end.

(** One of the three loops [for m in alts: if m["id"] != medicine_id]. *)
Definition score_pass (medicine_id : str) (scores : Scores)
  (alts : list Entity) : Scores :=
  fold_left
    (fun scores m =>
       if negb (str_eqb (id m) medicine_id)
       then bump (name m) (metadata_of m) scores
       else scores)
    alts scores.

Record Rec : Type := mkRec {
  rec_name : str;
  score : nat;
  rec_metadata : str
}.

(** [recs.sort(key=lambda x: -x["score"])]: a stable sort, larger
    scores first. *)
Fixpoint insert_rec (x : Rec) (l : list Rec) : list Rec :=
  match l with
  | [] => [x]
  | y :: l' =>
      if score y <=? score x then x :: y :: l'
      else y :: insert_rec x l'
  end.

Fixpoint sort_recs (l : list Rec) : list Rec :=
  match l with
  | [] => []
  | x :: l' => insert_rec x (sort_recs l')
  end.

(** The three lists of neighbours of the target. *)
Definition gather (searcher : Searcher) (medicine_id : str)
  : list Entity * list Entity * list Entity :=
  let types := find_relations searcher medicine_id rel_type dir_out in
  let inds := find_relations searcher medicine_id rel_indication dir_out in
  let ingres :=
    find_relations searcher medicine_id rel_ingredient dir_out in
  (alternatives_via searcher rel_type types,
   alternatives_via searcher rel_indication inds,
   alternatives_via searcher rel_ingredient ingres).

(** [recs] after the sort, for the target [medicine_id]. *)
Definition ranked (searcher : Searcher) (medicine_id : str) : list Rec :=
  let '(alts_type, alts_ind, alts_ingre) := gather searcher medicine_id in
  let scores := score_pass medicine_id [] alts_type in
  let scores := score_pass medicine_id scores alts_ind in
  let scores := score_pass medicine_id scores alts_ingre in
  let recs :=
    map (fun '(n, (s, md)) => mkRec n s md) scores in
  sort_recs recs.

(** [d.get(key, default)] on a decoded JSON object; the last member
    with the key is the one the dict keeps. *)
Fixpoint members_get (members : list (str * json)) (key : str)
  (default : json) : json :=
  match members with
  | [] => default
  | (k, v) :: rest =>
      members_get rest key (if str_eqb k key then v else default)
  end.

Definition key_short_description : str :=
  Eval vm_compute in text "short_description".

(** One line of the answer, for one kept recommendation. *)
Definition format_rec (searcher : Searcher) (rec : Rec) : outcome str :=
  match loads searcher (rec_metadata rec) with
  | Ok (JObject members) =>
      let short :=
        members_get members key_short_description (JString []) in
      Ok (text "Tên: " ++ rec_name rec ++ text " "
          ++ text "Miêu tả ngắn: " ++ format_json searcher short
          ++ [newline])
  | Ok _ => Raise (OtherError 0)
  | Raise e => Raise e
  end.

Fixpoint format_recs (searcher : Searcher) (result_match : str)
  (recs : list Rec) : outcome str :=
  match recs with
  | [] => Ok result_match
  | rec :: rest =>
      match format_rec searcher rec with
      | Ok line => format_recs searcher (result_match ++ line) rest
      | Raise e => Raise e
      end
  end.

(** The recommendations that are written to the answer:
    [recs[:top_k]]. *)
Definition returned (searcher : Searcher) (keyword : str) (top_k : nat)
  : list Rec :=
  match find_medicine_regex searcher keyword with
  | [] => []
  | medicine :: _ => firstn top_k (ranked searcher (id medicine))
  end.

Definition recommend_alternatives (keyword : str) (top_k : nat)
  (searcher : Searcher) : outcome pyval :=
  match find_medicine_regex searcher keyword with
  | [] => Ok PyEmptyList
  | medicine :: _ =>
      let recs := ranked searcher (id medicine) in
      match format_recs searcher [] (firstn top_k recs) with
      | Ok result_match => Ok (PyStr result_match)
      | Raise e => Raise e
      end
  end.

(** *** What the target shares with a candidate *)

(** [m] is a medicine named [n] other than the target. *)
Definition is_candidate (medicine_id : str) (n : str) (m : Entity) : bool :=
  str_eqb (name m) n && negb (str_eqb (id m) medicine_id).


(** The three lists of neighbours, one after the other. *)
Definition neighbours (searcher : Searcher) (medicine_id : str)
  : list Entity :=
  let '(alts_type, alts_ind, alts_ingre) := gather searcher medicine_id in
  alts_type ++ alts_ind ++ alts_ingre.

(** The number of times the candidate [n] occurs in the three lists:
    once for each node (a type, an indication, an ingredient) that
    links it to the target. *)
Definition shared_nodes (searcher : Searcher) (medicine_id : str)
  (n : str) : nat :=
  length (filter (is_candidate medicine_id n)
            (neighbours searcher medicine_id)).

(** [scores[n][0]], and 0 for a name that is not a key. *)
Fixpoint count_of (scores : Scores) (n : str) : nat :=
  match scores with
  | [] => 0
  | (k, (count, _)) :: rest =>
      if str_eqb k n then count else count_of rest n
  end.

(** Every count is at least one. *)
Definition positive (scores : Scores) : Prop :=
  Forall (fun entry => 1 <= fst (snd entry)) scores.

(** Larger scores first. *)
Definition by_score (a b : Rec) : Prop := score b <= score a.

End Tools.

(** ** Notions used in the statements *)

(** The guard of line 100. *)
Definition qualifies (line : str) : bool :=
  contains marker_tool line && contains marker_query line.

(** [p] is the first of the parts of [line] between pipes that contains
    [marker]. *)
Definition first_part (marker line p : str) : Prop :=
  exists pre post,
    split_on pipe line = pre ++ p :: post /\
    Forall (fun q => contains marker q = false) pre /\
    contains marker p = true.

(** [step] is the step read from [line]. *)
Definition step_of_line (line : str) (step : PlanStep) : Prop :=
  exists tool_part query_part,
    first_part marker_tool line tool_part /\
    first_part marker_query line query_part /\
    tool step = strip (replace marker_tool [] tool_part) /\
    query step = strip (replace marker_query [] query_part).

(** The keys of [self.tools]. *)
Definition registry_keys : list str :=
  [ name_search_by_name; name_search_by_query;
    name_recommend_alternatives; name_recommend_by_indications ].

Definition is_tool_call (ev : event) : bool :=
  match ev with CallTool _ _ => true | _ => false end.

Definition is_summarizer_entry (ev : event) : bool :=
  match ev with EnterSummarizer _ => true | _ => false end.

(** How many times a tool was run, and how many times the Summarizer
    was entered, in a log. *)
Definition tool_calls (log : list event) : nat :=
  length (filter is_tool_call log).

Definition summarizer_runs (log : list event) : nat :=
  length (filter is_summarizer_entry log).

(** The states between the nodes, in the order of the log: the one the
    planner made, and the one each Executor step made. *)
Definition states_of (log : list event) : list State :=
  flat_map
    (fun ev =>
       match ev with
       | EnterExecutor st | EnterSummarizer st => [st]
       | _ => []
       end)
    log.

(** The cursor is within the plan and counts the results. *)
Definition consistent (st : State) : Prop :=
  current_index st <= length (plan st) /\
  length (results st) = current_index st.

(** The step under the cursor of [st] names a tool of the registry
    whose invocation raises [e]. *)
Definition step_raises (E : Env) (st : State) (e : exn) : Prop :=
  exists step t,
    nth_error (plan st) (current_index st) = Some step /\
    dict_get (tools E) (tool step) = Some t /\
    fst (invoke_tool E (tool step) (query step) t []) = Some (Raise e).

(** The state that the Executor returns when the cursor is at the end
    of the plan. *)
Definition finished (st : State) : State :=
  {| question := question st; chat_history := chat_history st;
     plan := plan st; results := results st;
     current_index := current_index st;
     done := Some true; force_end := force_end st;
     final_answer := final_answer st |}.

(** The check of lines 145-152 on the results after a step. *)
Definition forced_stop (index : nat) (results : list ToolResult) : bool :=
  (max_attempts <=? index + 1) &&
  match filter (fun r => truthy (result r)) results with
  | [] => true
  | _ :: _ => false
  end.

(** The state that the Executor returns when it has [res] for [step]. *)
Definition stepped (st : State) (step : PlanStep) (res : pyval) : State :=
  let results := results st ++ [mkResult (tool step) (query step) res] in
  let forced := forced_stop (current_index st) results in
  {| question := question st; chat_history := chat_history st;
     plan := plan st; results := results;
     current_index := current_index st + 1;
     done := done st; force_end := Some forced;
     final_answer :=
       Some (if forced then PyStr fallback_answer else PyNone) |}.

(** The same when the step does not stop the turn. *)
Definition recorded (st : State) (step : PlanStep) (res : pyval) : State :=
  {| question := question st; chat_history := chat_history st;
     plan := plan st;
     results := results st ++ [mkResult (tool step) (query step) res];
     current_index := current_index st + 1;
     done := done st; force_end := Some false;
     final_answer := Some PyNone |}.

(** Events that are neither a state of the turn, nor a call of a tool,
    nor an entry of the Summarizer. *)
Definition quiet (evs : list event) : Prop :=
  states_of evs = [] /\ tool_calls evs = 0 /\ summarizer_runs evs = 0.

(** A computation is framed when it only appends to the log and what
    it does is the same whatever the log holds. *)
Definition framed {A} (m : M A) : Prop :=
  forall log, m log = (fst (m []), log ++ snd (m [])).

(** What the Executor does of the step under the cursor: the text for
    a missing tool, or the invocation of the tool. *)
Definition step_result (E : Env) (step : PlanStep) : M pyval :=
  match dict_get (tools E) (tool step) with
  | None => ret (PyStr (tool_missing (tool step)))
  | Some t => invoke_tool E (tool step) (query step) t
  end.

(** ** Example collaborators *)

Module Examples.

Definition prompt_plan : str := Eval vm_compute in text "plan".
Definition prompt_summary : str := Eval vm_compute in text "summarize".
Definition model_answer : str := Eval vm_compute in text "model answer".

(** A model that answers the planner's prompt with [response]. *)
Definition scripted_llm (response : str) (prompt : str) : outcome str :=
  if str_eqb prompt prompt_plan then Ok response else Ok model_answer.

Definition silent_tool : Tool := fun _ => Ok (PyStr []).
Definition failing_tool : Tool := fun _ => Raise (OtherError 1).

Definition env (response : str) (t : Tool) : Env :=
  {| llm_invoke := scripted_llm response;
     planner_template := fun _ _ _ => Ok prompt_plan;
     summarizer_template := fun _ _ _ => Ok prompt_summary;
     json_loads := fun _ => Ok (JArray []);
     search_by_name := t;
     search_by_query := t;
     recommend_alternatives_tool := t;
     recommend_by_indications := t |}.

Definition line_a : str :=
  Eval vm_compute in text "Tool: search_by_name | Query: a".
Definition line_b : str :=
  Eval vm_compute in text "Tool: search_by_query | Query: b".
Definition line_c : str :=
  Eval vm_compute in text "Tool: recommend_alternatives | Query: c".
Definition line_unknown : str :=
  Eval vm_compute in text "Tool: lookup | Query: a".
Definition line_no_pipe : str :=
  Eval vm_compute in text "Tool: a Query: b".

Definition line_d : str :=
  Eval vm_compute in text "Tool: search_by_name | Query: d".

Definition three_lines : str := join [newline] [line_a; line_b; line_c].
Definition four_lines : str :=
  join [newline] [line_a; line_b; line_c; line_d].

Definition ask : str := Eval vm_compute in text "Panadol?".

(** The state that the planner makes of the question [ask] in a new
    session when it reads [steps]. *)
Definition planned (steps : list PlanStep) : State :=
  {| question := ask; chat_history := [mkMessage human (PyStr ask)];
     plan := steps; results := []; current_index := 0;
     done := None; force_end := None; final_answer := None |}.

Definition step_a : PlanStep :=
  Eval vm_compute in mkStep (text "search_by_name") (text "a").
Definition step_unknown : PlanStep :=
  Eval vm_compute in mkStep (text "lookup") (text "a").

(** A graph that returns a state without a final answer. *)
Definition idle_graph (input : TurnInput) : M State :=
  ret {| question := in_question input;
         chat_history := in_chat_history input;
         plan := []; results := []; current_index := 0;
         done := None; force_end := None; final_answer := None |}.

(** A small store: the target [panadol] has one type and four
    indications; [efferalgan] has the type and the first indication,
    [hapacol] has the four indications. *)
Definition ent (i n : string) : Tools.Entity :=
  Tools.mkEntity (text i) (text n) (Some (text "{}")).

Definition panadol := Eval vm_compute in ent "m0" "panadol".
Definition efferalgan := Eval vm_compute in ent "m1" "efferalgan".
Definition hapacol := Eval vm_compute in ent "m2" "hapacol".

Definition entities : list Tools.Entity :=
  Eval vm_compute in
  [ panadol; efferalgan; hapacol;
    ent "t1" "giảm đau"; ent "i1" "sốt"; ent "i2" "đau đầu";
    ent "i3" "đau răng"; ent "i4" "đau cơ" ].

(** Relationships: source, target, type. *)
Definition edge (a b : string) (r : str) : str * str * str :=
  (text a, text b, r).

Definition edges : list (str * str * str) :=
  Eval vm_compute in
  [ edge "m0" "t1" Tools.rel_type; edge "m1" "t1" Tools.rel_type;
    edge "m0" "i1" Tools.rel_indication; edge "m1" "i1" Tools.rel_indication;
    edge "m2" "i1" Tools.rel_indication;
    edge "m0" "i2" Tools.rel_indication; edge "m2" "i2" Tools.rel_indication;
    edge "m0" "i3" Tools.rel_indication; edge "m2" "i3" Tools.rel_indication;
    edge "m0" "i4" Tools.rel_indication; edge "m2" "i4" Tools.rel_indication ].

Definition entity_of (i : str) : list Tools.Entity :=
  filter (fun d => str_eqb (Tools.id d) i) entities.

(** The two queries answered from the lists above, as the Cypher
    text of [neo4j_graph_db.py] reads. *)
Definition store : Tools.Searcher :=
  {| Tools.find_medicine_regex :=
       fun pattern =>
         filter (fun d => contains pattern (Tools.name d)) entities;
     Tools.find_relations :=
       fun start_id rel dir =>
         firstn 100
           (flat_map
              (fun '(a, b, r) =>
                 match dir with
                 | Tools.dir_out =>
                     if str_eqb a start_id && str_eqb r rel
                     then entity_of b else []
                 | Tools.dir_in =>
                     if str_eqb b start_id && str_eqb r rel
                     then entity_of a else []
                 end)
              edges);
     Tools.loads := fun _ => Ok (JObject []);
     Tools.format_json :=
       fun j => match j with JString s => s | _ => [] end |}.

Definition keyword : str := Eval vm_compute in text "panadol".

End Examples.

(** ** The other tools of [tools.py] *)

Module Retrieval.

Import Tools.

(** The exceptions that the tools meet: a key that a dict does not
    have, a method that a value does not have, an argument of the wrong
    type. *)
Definition key_error : exn := OtherError 2.
Definition attribute_error : exn := OtherError 0.
Definition type_error : exn := OtherError 3.

(** The dict that [json.loads] builds from the members of an object: a
    key stays where it was first seen and keeps the last of its
    values. *)
Fixpoint dict_put (k : str) (v : json) (d : list (str * json))
  : list (str * json) :=
  match d with
  | [] => [(k, v)]
  | (k', v') :: rest =>
      if str_eqb k' k then (k', v) :: rest
      else (k', v') :: dict_put k v rest
  end.

Definition dict_of (members : list (str * json)) : list (str * json) :=
  fold_left (fun d kv => dict_put (fst kv) (snd kv) d) members [].

(** ["  ".join([f"{key} : {value}" for key, value in d.items()])] *)
Definition format_items (searcher : Searcher) (members : list (str * json))
  : str :=
  join (text "  ")
    (map (fun kv => fst kv ++ text " : " ++ format_json searcher (snd kv))
       (dict_of members)).

(** The body of the loop of [search_by_name] for one record. *)
Definition name_line (searcher : Searcher) (r : Entity) : outcome str :=
  match metadata r with
  | None => Raise key_error
  | Some md =>
      match loads searcher md with
      | Ok (JObject members) =>
          Ok (name r ++ format_items searcher members
              ++ text " " ++ [newline] ++ text " ")
      | Ok _ => Raise attribute_error
      | Raise e => Raise e
      end
  end.

Fixpoint name_lines (searcher : Searcher) (acc : str) (rs : list Entity)
  : outcome str :=
  match rs with
  | [] => Ok acc
  | r :: rest =>
      match name_line searcher r with
      | Ok line => name_lines searcher (acc ++ line) rest
      | Raise e => Raise e
      end
  end.

Definition search_by_name (user_query : str) (neo4j_connector : Searcher)
  (top_k : nat) : outcome pyval :=
  let result := find_medicine_regex neo4j_connector user_query in
  match name_lines neo4j_connector [] (firstn top_k result) with
  | Ok text => Ok (PyStr text)
  | Raise e => Raise e
  end.

(** [QdrantVectorStore.search]: for each point found, the [text] of its
    payload, if the payload has one. *)
Definition VectorSearch : Type := str -> outcome (list (option str)).

(** [user_query.split("|")[0]] *)
Definition effective_query (user_query : str) : outcome str :=
  match split_on pipe user_query with
  | medicine_name :: _ => Ok medicine_name
  | [] => Raise IndexError
  end.

Definition search_by_query (user_query : str)
  (qdrant_connector : VectorSearch) : outcome pyval :=
  match effective_query user_query with
  | Ok medicine_name =>
      match qdrant_connector medicine_name with
      | Ok vector_result =>
          Ok (PyStr
                (fold_left
                   (fun result r => result ++ get r [] ++ [newline])
                   vector_result []))
      | Raise e => Raise e
      end
  | Raise e => Raise e
  end.

(** What [find_medicines_by_indications] returns for one medicine. *)
Record Hit : Type := mkHit {
  medicine : Entity;
  match_count : nat
}.

Definition key_ingredient : str := Eval vm_compute in text "ingredient".

(** The body of the loop of [recommend_by_indications].  A medicine
    without metadata gives [json.loads] the dict [{}], which it does not
    accept. *)
Definition indication_line (searcher : Searcher) (d : Hit) : outcome str :=
  let medicine_infor := medicine d in
  match metadata medicine_infor with
  | None => Raise type_error
  | Some md =>
      match loads searcher md with
      | Ok (JObject members) =>
          Ok (text "Tên: " ++ name medicine_infor ++ text " "
              ++ text "Miêu tả ngắn: "
              ++ format_json searcher
                   (members_get members key_short_description (JString []))
              ++ text "Thành phần: "
              ++ format_json searcher
                   (members_get members key_ingredient (JString []))
              ++ [newline])
      | Ok _ => Raise attribute_error
      | Raise e => Raise e
      end
  end.

Fixpoint indication_lines (searcher : Searcher) (result : str)
  (data : list Hit) : outcome str :=
  match data with
  | [] => Ok result
  | d :: rest =>
      match indication_line searcher d with
      | Ok line => indication_lines searcher (result ++ line) rest
      | Raise e => Raise e
      end
  end.

Definition recommend_by_indications (indications : list str) (top_k : nat)
  (searcher : Searcher)
  (find_medicines_by_indications : list str -> list Hit) : outcome pyval :=
  let data := find_medicines_by_indications indications in
  match indication_lines searcher [] (firstn top_k data) with
  | Ok result => Ok (PyStr result)
  | Raise e => Raise e
  end.

(** [recs] before the sort: the items of [scores]. *)
Definition scored (searcher : Searcher) (medicine_id : str) : list Rec :=
  let '(alts_type, alts_ind, alts_ingre) := gather searcher medicine_id in
  let scores := score_pass medicine_id [] alts_type in
  let scores := score_pass medicine_id scores alts_ind in
  let scores := score_pass medicine_id scores alts_ingre in
  map (fun '(n, (s, md)) => mkRec n s md) scores.

(** The neighbours that are not the target. *)
Definition others (searcher : Searcher) (medicine_id : str) : list Entity :=
  filter (fun m => negb (str_eqb (id m) medicine_id))
    (neighbours searcher medicine_id).

(** The metadata of the last element of [l] named [n], if any. *)
Definition last_metadata (n : str) (l : list Entity) : option str :=
  fold_left
    (fun found m => if str_eqb (name m) n then Some (metadata_of m) else found)
    l None.

(** The names of [l] in the order in which they are first met. *)
Definition first_seen (l : list str) : list str :=
  fold_left
    (fun seen n => if existsb (str_eqb n) seen then seen else seen ++ [n])
    l [].

(** The text that the hits of the vector store make. *)
Definition passages (hits : list (option str)) : str :=
  concat (map (fun r => get r [] ++ [newline]) hits).

(** [scores[n][1]], if [n] is a key. *)
Fixpoint metadata_in (scores : Scores) (n : str) : option str :=
  match scores with
  | [] => None
  | (k, (_, md)) :: rest =>
      if str_eqb k n then Some md else metadata_in rest n
  end.

(** The sum of the counts of [scores]. *)
Definition total_count (scores : Scores) : nat :=
  fold_right (fun entry acc => fst (snd entry) + acc) 0 scores.

Definition total_score (recs : list Rec) : nat :=
  fold_right (fun r acc => score r + acc) 0 recs.

End Retrieval.

(** ** [main.py]: the sessions of the chat *)

Module App.

(** [d[key] = value] *)
Fixpoint dict_set {A} (d : list (str * A)) (key : str) (value : A)
  : list (str * A) :=
  match d with
  | [] => [(key, value)]
  | (k, v) :: d' =>
      if str_eqb k key then (k, value) :: d'
      else (k, v) :: dict_set d' key value
  end.

(** The two module-level dicts: the pairs shown in the chat, and for
    each agent the messages of its memory. *)
Record Sessions : Type := mkSessions {
  chat_histories : list (str * list (str * pyval));
  rag_agents : list (str * list Message)
}.

(** [init_session], for the identifier that [uuid.uuid4()] gives. *)
Definition init_session (session_id : str) (s : Sessions) : Sessions :=
  {| chat_histories := dict_set (chat_histories s) session_id [];
     rag_agents := dict_set (rag_agents s) session_id [] |}.

Definition chatbot_interface (E : Env) (user_input session_id : str)
  (s : Sessions) (log : list event)
  : option (outcome (list (str * pyval))) * Sessions * list event :=
  match dict_get (rag_agents s) session_id with
  | None => (Some (Raise Retrieval.key_error), s, log)
  | Some memory =>
      match dict_get (chat_histories s) session_id with
      | None => (Some (Raise Retrieval.key_error), s, log)
      | Some chat_history =>
          let '(out, memory', log') := run E user_input memory log in
          let agents := dict_set (rag_agents s) session_id memory' in
          match out with
          | Some (Ok response) =>
              let chat_history := chat_history ++ [(user_input, response)] in
              (Some (Ok chat_history),
               {| chat_histories :=
                    dict_set (chat_histories s) session_id chat_history;
                  rag_agents := agents |},
               log')
          | Some (Raise e) =>
              (Some (Raise e),
               {| chat_histories := chat_histories s; rag_agents := agents |},
               log')
          | None =>
              (None,
               {| chat_histories := chat_histories s; rag_agents := agents |},
               log')
          end
      end
  end.

(** [reset_chat]: the chat history is replaced before the agent is
    looked up. *)
Definition reset_chat (session_id : str) (s : Sessions)
  : outcome (str * list (str * pyval)) * Sessions :=
  let histories := dict_set (chat_histories s) session_id [] in
  match dict_get (rag_agents s) session_id with
  | None =>
      (Raise Retrieval.key_error,
       {| chat_histories := histories; rag_agents := rag_agents s |})
  | Some _ =>
      (Ok ([], []),
       {| chat_histories := histories;
          rag_agents := dict_set (rag_agents s) session_id [] |})
  end.

(** The messages that the pairs of a chat history stand for. *)
Definition messages_of (chat_history : list (str * pyval)) : list Message :=
  flat_map
    (fun turn => [mkMessage human (PyStr (fst turn)); mkMessage ai (snd turn)])
    chat_history.

(** The session exists and the memory of its agent holds the messages
    of its chat history, no more and no less. *)
Definition in_step (s : Sessions) (session_id : str) : Prop :=
  exists chat_history,
    dict_get (chat_histories s) session_id = Some chat_history /\
    dict_get (rag_agents s) session_id = Some (messages_of chat_history).

End App.

(** ** More notions for the statements *)

Definition is_llm_call (ev : event) : bool :=
  match ev with CallLLM _ => true | _ => false end.

(** How many times the model was called in a log. *)
Definition llm_calls (log : list event) : nat :=
  length (filter is_llm_call log).

(** The tool and the query of a step, and of a result. *)
Definition step_label (step : PlanStep) : str * str :=
  (tool step, query step).

Definition result_label (r : ToolResult) : str * str :=
  (tr_tool r, tr_query r).

(** No result is useful. *)
Definition all_empty (results : list ToolResult) : bool :=
  forallb (fun r => negb (truthy (result r))) results.

(** The line that the prompt asks the model for (line 68). *)
Definition format_step (tool_name query : str) : str :=
  text "Tool: " ++ tool_name ++ text " | Query: " ++ query.

(** A text that can stand in such a line: it holds no pipe, no end of
    line and none of the two markers. *)
Definition plain (s : str) : bool :=
  negb (existsb (N.eqb pipe) s) && negb (existsb (N.eqb newline) s) &&
  negb (contains marker_tool s) && negb (contains marker_query s).

Definition space : N := 32%N.

(** No white space at either end. *)
Definition no_leading_space (s : str) : bool :=
  match s with
  | [] => true
  | c :: _ => negb (isspace c)
  end.

Definition trimmed (s : str) : bool :=
  no_leading_space s && no_leading_space (rev s).

(** The events of the loop: entries of the Executor and calls of
    tools. *)
Definition is_loop_event (ev : event) : bool :=
  match ev with
  | EnterExecutor _ | CallTool _ _ => true
  | _ => false
  end.

(** ** More example collaborators *)

Module MoreExamples.

Definition query_indications : str := Eval vm_compute in text "[]".

Definition step_indications : PlanStep :=
  Eval vm_compute in mkStep (text "recommend_by_indications") (text "[]").

(** A tool that answers with the kind of input it was given. *)
Definition echo_tool : Tool :=
  fun input =>
    match input with
    | InText s => Ok (PyStr s)
    | InIndications _ => Ok (PyStr Examples.model_answer)
    end.

Definition one_session : App.Sessions :=
  App.init_session Examples.ask (App.mkSessions [] []).

(** A store whose medicine has no metadata. *)
Definition bare : Tools.Entity :=
  Eval vm_compute in Tools.mkEntity (text "m9") (text "bare") None.

Definition bare_store : Tools.Searcher :=
  {| Tools.find_medicine_regex := fun _ => [bare];
     Tools.find_relations := fun _ _ _ => [];
     Tools.loads := fun _ => Ok (JObject []);
     Tools.format_json := fun _ => [] |}.

Definition hits_of (l : list (option str)) : Retrieval.VectorSearch :=
  fun _ => Ok l.

End MoreExamples.

(** ** Notions for the shape of a turn *)

(** A state as the planner leaves it. *)
Definition planned (p : State) : Prop :=
  results p = [] /\ current_index p = 0 /\ force_end p = None.

(** The events of the planner and of the summarizer: at most one call
    of the model. *)
Definition one_llm_call_at_most (evs : list event) : Prop :=
  evs = [] \/ exists prompt, evs = [CallLLM prompt].

(** The state may be handed to the Executor: no forced stop is set. *)
Definition enterable (st : State) : Prop :=
  get (force_end st) false = false.

(** The forced stop is set on a state exactly as the check of the
    Executor sets it: at the third step, over results that are all
    empty; and a state past the third step that is not stopped has a
    useful result. *)
Definition forced_rightly (st : State) : Prop :=
  (force_end st = Some true ->
   current_index st = max_attempts /\ all_empty (results st) = true) /\
  (max_attempts <= current_index st -> force_end st <> Some true ->
   all_empty (results st) = false).

(** The results are those of the steps before the cursor, in the order
    of the plan. *)
Definition mirrors_plan (st : State) : Prop :=
  map result_label (results st)
  = firstn (current_index st) (map step_label (plan st)).

(** The states with which the Summarizer was entered. *)
Definition summarizer_states (log : list event) : list State :=
  flat_map
    (fun ev => match ev with EnterSummarizer st => [st] | _ => [] end)
    log.

(** What the loop keeps true of the states of a turn. *)
Definition well_run (st : State) : Prop :=
  consistent st /\ forced_rightly st /\ mirrors_plan st.

(** A plan as the prompt asks the model to write it, one line a step,
    and the steps that these lines spell. *)
Definition format_plan (steps : list (str * str)) : str :=
  join [newline] (map (fun tq => format_step (fst tq) (snd tq)) steps).

Definition spelled (steps : list (str * str)) : list PlanStep :=
  map (fun tq => mkStep (strip (fst tq)) (strip (snd tq))) steps.

Module PlanExamples.

Definition two_steps : list (str * str) :=
  Eval vm_compute in
  [ (text "search_by_name", text "Paracetamol");
    (text "search_by_query", text "Cách sử dụng thuốc Panadol?") ].

End PlanExamples.

(** ** [embedding_medicine.py]: the chunks of a medicine's texts *)

Module Chunks.

(** [s.split()]: the maximal runs of characters that are not white
    space; [cur] is the run being read, its last character first. *)
Fixpoint words_from (cur : str) (s : str) : list str :=
  match s with
  | [] =>
      match cur with
      | [] => []
      | _ :: _ => [rev cur]
      end
  | c :: s' =>
      if isspace c then
        match cur with
        | [] => words_from [] s'
        | _ :: _ => rev cur :: words_from [] s'
        end
      else words_from (c :: cur) s'
  end.

Definition words (s : str) : list str := words_from [] s.

(** [f"{prefix} {current.strip()}"] *)
Definition chunk (prefix current : str) : str :=
  prefix ++ [space] ++ strip current.

(** The body of the loop over [contents], on [result] and
    [current]. *)
Definition overlap_step (prefix : str) (state : list str * str)
  (line : str) : list str * str :=
  let '(result, current) := state in
  if length (words current) + length (words line) + 1 <? 100
  then (result, current ++ line ++ [space])
  else (result ++ [chunk prefix current], line ++ [space]).

(** [split] returns at least one part, so that [lines[0]] is there. *)
Definition process_overlap (text : str) : list str :=
  match text with
  | [] => []
  | _ :: _ =>
      match split_on newline text with
      | [] => []
      | prefix :: contents =>
          let '(result, current) :=
            fold_left (overlap_step prefix) contents ([], []) in
          match strip current with
          | [] => result
          | _ :: _ => result ++ [chunk prefix current]
          end
      end
  end.

(** [s.split(sep)] for a separator that is not empty: the scan goes
    from the left, [cur] is the part being read, its last character
    first, and [skip] characters of the separator just met are still to
    be dropped. *)
Fixpoint split_from (sep : str) (skip : nat) (cur : str) (s : str)
  : list str :=
  match s with
  | [] => [rev cur]
  | c :: s' =>
      match skip with
      | S k => split_from sep k cur s'
      | O =>
          if starts_with sep s
          then rev cur :: split_from sep (length sep - 1) [] s'
          else split_from sep 0 (c :: cur) s'
      end
  end.

Definition split_str (sep s : str) : list str := split_from sep 0 [] s.

Definition double_pipe : str := [pipe; pipe].

(** [f"Câu hỏi dành cho {name}: "] *)
Definition question_for (name : str) : str :=
  text "Câu hỏi dành cho " ++ name ++ text ": ".

Definition answer_mark : str :=
  Eval vm_compute in [newline] ++ text " Trả lời: ".

(** The body of the loop over [qa_pair]. *)
Definition qa_step (name : str) (result : list str) (pair : str)
  : list str :=
  match pair with
  | [] => result
  | _ :: _ =>
      let pair := question_for name ++ pair in
      let pair := replace [pipe] answer_mark pair in
      result ++ [pair]
  end.

Definition process_qa_doc (text name : str) : list str :=
  match text with
  | [] => []
  | _ :: _ => fold_left (qa_step name) (split_str double_pipe text) []
  end.

(** *** Notions for the statements *)

(** The words of the lines, in order. *)
Definition all_words (lines : list str) : list str :=
  concat (map words lines).

(** [current] is empty or ends with the space that the loop puts
    after a line. *)
Definition ends_line (current : str) : Prop :=
  current = [] \/ exists s, current = s ++ [space].

(** A body of at most 98 words, or one line of [seen] alone. *)
Definition bounded (seen : list str) (body : str) : Prop :=
  length (words body) <= 98 \/
  exists line, In line seen /\ body = strip line.

(** What the loop keeps true of [result] and [current] once it has
    read the lines [seen]. *)
Definition overlap_invariant (prefix : str) (seen : list str)
  (state : list str * str) : Prop :=
  exists bodies,
    fst state = map (fun body => prefix ++ [space] ++ body) bodies /\
    all_words bodies ++ words (snd state) = all_words seen /\
    ends_line (snd state) /\
    Forall (fun body => trimmed body = true /\ bounded seen body) bodies /\
    bounded seen (strip (snd state)).

Definition pipe_free (s : str) : bool := negb (existsb (N.eqb pipe) s).

(** A question and its answer as the texts of the database write
    them, and the text of several of them. *)
Definition qa_pair (qa : str * str) : str := fst qa ++ pipe :: snd qa.

Definition qa_text (pairs : list (str * str)) : str :=
  join double_pipe (map qa_pair pairs).

(** A question and an answer without a pipe, the answer not empty. *)
Definition well_formed (qa : str * str) : bool :=
  pipe_free (fst qa) && pipe_free (snd qa) &&
  match snd qa with [] => false | _ :: _ => true end.

(** The part holds no separator and no pipe at its end. *)
Definition clean (part : str) : Prop :=
  contains double_pipe (part ++ [pipe]) = false.

(** A line of [n] words. *)
Definition a_word : str := Eval vm_compute in text "a ".

Definition long_line (n : nat) : str := concat (repeat a_word n).

(** A text whose first line after the heading has 99 words. *)
Definition heading : str := Eval vm_compute in text "Liều dùng".

Definition long_text : str :=
  Eval vm_compute in heading ++ [newline] ++ long_line 99.

Definition medicine_name : str := Eval vm_compute in text "Panadol".

Definition qa_example : list (str * str) :=
  Eval vm_compute in
  [ (text "Thuốc dùng khi nào?", text "Sau ăn.");
    (text "Giá bao nhiêu?", text "20.000đ") ].

End Chunks.

(** ** [Neo4j.insert_to_db] ([neo4j_graph_db.py]): the graph that the
    tools read *)

Module GraphLoad.

(** A row of the query: the four columns that are read as texts, and
    [d[4:]], the columns of the metadata.  The four hold texts, as in
    a table filled from a CSV whose empty cells were read as the empty
    text. *)
Record Row : Type := mkRow {
  row_name : str;
  row_type : str;
  row_assign : str;
  row_ingredient : str;
  row_rest : list json
}.

(** What the function calls and does not define: [str.lower], the
    identifiers that the calls of [uuid.uuid4] give, one after the
    other, and [json.dumps]. *)
Record Source : Type := mkSource {
  lower : str -> str;
  uuid4 : nat -> str;
  dumps : list (str * json) -> outcome str
}.

(** A value of [nodes]: the identifier and the metadata. *)
Definition Node : Type := (str * list (str * json))%type.

Record Rel : Type := mkRel {
  source : str;
  target : str;
  rel : str
}.

(** [nodes] and [relationships], and the number of identifiers
    drawn. *)
Record Build : Type := mkBuild {
  nodes : list (str * Node);
  relationships : list Rel;
  drawn : nat
}.

Definition empty : Build := mkBuild [] [] 0.

(** A statement changes [nodes] and [relationships] and returns or
    raises; what it changed before it raised stays changed. *)
Definition B : Type := Build -> outcome unit * Build.

Definition skip : B := fun b => (Ok tt, b).

Definition raise (e : exn) : B := fun b => (Raise e, b).

Definition seq (m k : B) : B :=
  fun b =>
    match m b with
    | (Ok _, b') => k b'
    | (Raise e, b') => (Raise e, b')
    end.

Fixpoint for_each {A} (body : A -> B) (l : list A) : B :=
  match l with
  | [] => skip
  | x :: l' => seq (body x) (for_each body l')
  end.

(** [try: m except Exception as err: print(...)] *)
Definition try_except (m : B) : B := fun b => (Ok tt, snd (m b)).

Definition value_error : exn := OtherError 4.

(** [if key not in nodes: nodes[key] = (str(uuid.uuid4()), meta_data)] *)
Definition ensure (lib : Source) (key : str)
  (meta_data : list (str * json)) : B :=
  fun b =>
    match dict_get (nodes b) key with
    | Some _ => (Ok tt, b)
    | None =>
        (Ok tt,
         mkBuild (nodes b ++ [(key, (uuid4 lib (drawn b), meta_data))])
           (relationships b) (S (drawn b)))
    end.

(** [relationships.append({"source": nodes[name][0],
    "target": nodes[key][0], "type": kind})] *)
Definition relate (name key kind : str) : B :=
  fun b =>
    match dict_get (nodes b) name with
    | None => (Raise Retrieval.key_error, b)
    | Some s =>
        match dict_get (nodes b) key with
        | None => (Raise Retrieval.key_error, b)
        | Some t =>
            (Ok tt,
             mkBuild (nodes b)
               (relationships b ++ [mkRel (fst s) (fst t) kind])
               (drawn b))
        end
    end.

(** The body of the loops over the indications and over the
    ingredients. *)
Definition link (lib : Source) (name kind : str) (object : str) : B :=
  let object := strip object in
  match object with
  | [] => skip
  | _ :: _ => seq (ensure lib object []) (relate name object kind)
  end.

Definition comma : N := 44%N.

Definition keyword : str := Eval vm_compute in text "Hàm lượng".

Definition meta_keys : list str :=
  Eval vm_compute in
  [ text "specification"; text "short_description"; text "price";
    text "note" ].

(** [l.index(x)] *)
Fixpoint index (x : str) (l : list str) : outcome nat :=
  match l with
  | [] => Raise value_error
  | y :: l' =>
      if str_eqb y x then Ok 0
      else match index x l' with
           | Ok k => Ok (S k)
           | Raise e => Raise e
           end
  end.

(** [l[::2]] *)
Fixpoint every_other (l : list str) : list str :=
  match l with
  | [] => []
  | x :: l' =>
      x :: match l' with
           | [] => []
           | _ :: l'' => every_other l''
           end
  end.

(** The lines 52-63, inside the [try]. *)
Definition ingredients (lib : Source) (name ingredient : str) : B :=
  let ingredient_list := split_on newline ingredient in
  match index keyword ingredient_list with
  | Raise e => raise e
  | Ok keyword_wrap =>
      for_each (link lib name Tools.rel_ingredient)
        (every_other (skipn (keyword_wrap + 1) ingredient_list))
  end.

(** The body of the loop over [data]. *)
Definition insert_row (lib : Source) (d : Row) : B :=
  let name := lower lib (row_name d) in
  let type := lower lib (row_type d) in
  let assign := lower lib (row_assign d) in
  let ingredient := lower lib (row_ingredient d) in
  seq (ensure lib name (combine meta_keys (row_rest d)))
    (seq match type with
         | [] => skip
         | _ :: _ => ensure lib type []
         end
       (seq (relate name type Tools.rel_type)
          (seq (for_each (link lib name Tools.rel_indication)
                  (split_on comma assign))
             (try_except (ingredients lib name ingredient))))).

(** The statements that the session runs. *)
Inductive write : Type :=
| CreateEntity (id name metadata : str)
| CreateRelationship (source_id target_id type : str).

Fixpoint create_entities (lib : Source) (entries : list (str * Node))
  : outcome unit * list write :=
  match entries with
  | [] => (Ok tt, [])
  | (name, (node_id, meta_data)) :: rest =>
      match dumps lib meta_data with
      | Raise e => (Raise e, [])
      | Ok metadata =>
          let '(out, writes) := create_entities lib rest in
          (out, CreateEntity node_id name metadata :: writes)
      end
  end.

Definition create_relationships (relationships : list Rel) : list write :=
  map (fun r => CreateRelationship (source r) (target r) (rel r))
    relationships.

(** The loop over [data], from the empty [nodes] and
    [relationships]. *)
Definition build (lib : Source) (data : list Row) : outcome unit * Build :=
  for_each (insert_row lib) data empty.

(** What is written once the loop has returned. *)
Definition write_graph (lib : Source) (b : Build)
  : outcome unit * list write :=
  match create_entities lib (nodes b) with
  | (Raise e, writes) => (Raise e, writes)
  | (Ok _, writes) =>
      (Ok tt, writes ++ create_relationships (relationships b))
  end.

(** [insert_to_db], on what [custom_query] returned ([None] after an
    error of the database), with the statements that the session ran.
    The session itself is taken not to fail. *)
Definition insert_to_db (lib : Source) (data : option (list Row))
  : outcome unit * list write :=
  match data with
  | None => (Raise Retrieval.type_error, [])
  | Some data =>
      match build lib data with
      | (Raise e, _) => (Raise e, [])
      | (Ok _, b) => write_graph lib b
      end
  end.

(** *** Notions for the statements *)

Definition ids (b : Build) : list str :=
  map (fun entry => fst (snd entry)) (nodes b).

(** The names of [nodes] are distinct, the identifiers are the ones
    drawn, in order, and the ends of every relationship are
    identifiers of [nodes]. *)
Definition sound (lib : Source) (b : Build) : Prop :=
  NoDup (map fst (nodes b)) /\
  drawn b = length (nodes b) /\
  ids b = map (uuid4 lib) (List.seq 0 (length (nodes b))) /\
  Forall (fun r => In (source r) (ids b) /\ In (target r) (ids b))
    (relationships b).

(** [key in nodes] *)
Definition has (key : str) (b : Build) : Prop :=
  dict_get (nodes b) key <> None.

(** No key of [nodes] is the empty text. *)
Definition keys_not_empty (b : Build) : Prop :=
  Forall (fun key => key <> []) (map fst (nodes b)).

(** No relationship is of the kind. *)
Definition none_of (kind : str) (b : Build) : Prop :=
  Forall (fun r => rel r <> kind) (relationships b).

(** A statement keeps a property of [nodes] and [relationships],
    whether it returns or raises. *)
Definition keeps (I : Build -> Prop) (m : B) : Prop :=
  forall b, I b -> I (snd (m b)).

(** From a state with [P] the statement returns, in a state with
    [Q]. *)
Definition returns (P : Build -> Prop) (m : B) (Q : Build -> Prop) : Prop :=
  forall b, P b -> exists b', m b = (Ok tt, b') /\ Q b'.

(** The statement raises nothing but [KeyError]. *)
Definition key_error_only (m : B) : Prop :=
  forall b e b', m b = (Raise e, b') -> e = Retrieval.key_error.

Definition created_ids (writes : list write) : list str :=
  flat_map
    (fun w => match w with CreateEntity i _ _ => [i] | _ => [] end) writes.

Definition created_names (writes : list write) : list str :=
  flat_map
    (fun w => match w with CreateEntity _ n _ => [n] | _ => [] end) writes.

(** The ends of the relationship that a statement creates are among
    [known]. *)
Definition ends_among (known : list str) (w : write) : Prop :=
  match w with
  | CreateEntity _ _ _ => True
  | CreateRelationship s t _ => In s known /\ In t known
  end.

Definition is_of_kind (kind : str) (w : write) : bool :=
  match w with
  | CreateEntity _ _ _ => false
  | CreateRelationship _ _ k => str_eqb k kind
  end.

Definition capital_h : N := 72%N.

(** The lowered ingredients of the rows hold no capital H, as is the
    case of what [str.lower] returns. *)
Definition lowered (lib : Source) (data : list Row) : bool :=
  forallb
    (fun d =>
       negb (existsb (N.eqb capital_h) (lower lib (row_ingredient d))))
    data.

(** The lowered name, and the lowered type, is not empty. *)
Definition named (lib : Source) (d : Row) : bool :=
  match lower lib (row_name d) with [] => false | _ :: _ => true end.

Definition typed (lib : Source) (d : Row) : bool :=
  match lower lib (row_type d) with [] => false | _ :: _ => true end.

(** *** Examples *)

(** [str.lower] on the letters A to Z. *)
Definition ascii_lower (s : str) : str :=
  map (fun c => if ((65 <=? c) && (c <=? 90))%N then (c + 32)%N else c) s.

Definition example_source : Source :=
  {| lower := ascii_lower;
     uuid4 := fun n => [N.of_nat n];
     dumps := fun _ => Ok [] |}.

Definition panadol : Row :=
  Eval vm_compute in
  mkRow (text "Panadol") (text "Giam dau") (text "Dau dau, Sot")
    (text "Thanh phan" ++ [newline] ++ text "Hàm lượng" ++ [newline]
     ++ text "Paracetamol" ++ [newline] ++ text "500mg")
    [].

Definition untyped : Row :=
  Eval vm_compute in
  mkRow (text "Hapacol") [] (text "Sot") [] [].

End GraphLoad.

(** * Properties *)

(** ** Strings *)

Section StringFacts.

Lemma str_eqb_eq (s t : str) : str_eqb s t = true <-> s = t.
Proof.
  revert t; induction s as [|a s IH]; intros [|b t]; simpl;
    try (split; [discriminate | discriminate]); try tauto.
  rewrite andb_true_iff, N.eqb_eq, IH.
  split; [intros [-> ->]; reflexivity | intros H; inversion H; auto].
Qed.

Lemma str_eqb_refl (s : str) : str_eqb s s = true.
Proof. apply str_eqb_eq; reflexivity. Qed.

Lemma str_eqb_neq (s t : str) : str_eqb s t = false <-> s <> t.
Proof.
  split.
  - intros H ->. rewrite str_eqb_refl in H. discriminate.
  - intros H. destruct (str_eqb s t) eqn:Heq; [|reflexivity].
    apply str_eqb_eq in Heq. contradiction.
Qed.

Lemma split_on_not_nil (sep : N) (s : str) : split_on sep s <> [].
Proof.
  destruct s as [|c s]; simpl; [discriminate|].
  destruct (c =? sep)%N; [discriminate|].
  destruct (split_on sep s); discriminate.
Qed.

Lemma starts_with_contains (m s : str) :
  starts_with m s = true -> contains m s = true.
Proof. intros H. destruct s; simpl in *; rewrite H; reflexivity. Qed.

Lemma contains_cons (m : str) (c : N) (s : str) :
  contains m s = true -> contains m (c :: s) = true.
Proof. intros H. simpl. rewrite H. apply orb_true_r. Qed.

(** A prefix free of the separator is a prefix of the first part. *)
Lemma starts_with_first_part (sep : N) (m s : str) :
  ~ In sep m ->
  starts_with m s = true ->
  starts_with m (hd [] (split_on sep s)) = true.
Proof.
  revert s; induction m as [|a m IH]; intros s Hsep Hpre; [reflexivity|].
  destruct s as [|b s]; [discriminate|].
  simpl in Hpre. apply andb_true_iff in Hpre as [Hab Hpre].
  apply N.eqb_eq in Hab; subst b.
  assert (Hne : (a =? sep)%N = false).
  { apply N.eqb_neq. intros ->. apply Hsep. left; reflexivity. }
  assert (Hm : ~ In sep m) by (intros Hin; apply Hsep; right; exact Hin).
  specialize (IH s Hm Hpre).
  simpl. rewrite Hne.
  destruct (split_on sep s) as [|h t] eqn:Hs.
  - exfalso. exact (split_on_not_nil _ _ Hs).
  - simpl in *. rewrite N.eqb_refl, IH. reflexivity.
Qed.

(** An occurrence free of the separator lies within one part. *)
Lemma contains_in_part (sep : N) (m s : str) :
  ~ In sep m ->
  contains m s = true ->
  exists p, In p (split_on sep s) /\ contains m p = true.
Proof.
  intros Hsep. induction s as [|c s IH]; intros Hc.
  - exists []. split; [left; reflexivity | exact Hc].
  - simpl in Hc. apply orb_true_iff in Hc as [Hpre | Hrest].
    + exists (hd [] (split_on sep (c :: s))). split.
      * destruct (split_on sep (c :: s)) eqn:Hs;
          [exfalso; exact (split_on_not_nil _ _ Hs) | left; reflexivity].
      * apply starts_with_contains.
        apply starts_with_first_part; assumption.
    + destruct (IH Hrest) as (p & Hin & Hp).
      simpl. destruct (c =? sep)%N.
      * exists p. split; [right; exact Hin | exact Hp].
      * destruct (split_on sep s) as [|h t]; [contradiction|].
        destruct Hin as [<- | Hin].
        -- exists (c :: h). split; [left; reflexivity|].
           apply contains_cons; exact Hp.
        -- exists p. split; [right; exact Hin | exact Hp].
Qed.

(** The first element that a filter keeps. *)
Lemma filter_first {A} (f : A -> bool) (l : list A) (x : A) :
  In x l -> f x = true ->
  exists pre p post,
    l = pre ++ p :: post /\
    Forall (fun q => f q = false) pre /\
    f p = true /\
    filter f l = p :: filter f post.
Proof.
  induction l as [|y l IH]; intros Hin Hx; [contradiction|].
  destruct (f y) eqn:Hy.
  - exists [], y, l. simpl. rewrite Hy. auto.
  - destruct Hin as [-> | Hin]; [congruence|].
    destruct (IH Hin Hx) as (pre & p & post & -> & Hpre & Hp & Hf).
    exists (y :: pre), p, post. simpl. rewrite Hy.
    repeat split; auto.
Qed.

End StringFacts.

(** ** The planner's reading of the response *)

Section Planner.

Lemma pipe_not_in_marker_tool : ~ In pipe marker_tool.
Proof. vm_compute. intuition discriminate. Qed.

Lemma pipe_not_in_marker_query : ~ In pipe marker_query.
Proof. vm_compute. intuition discriminate. Qed.

(** The comprehension of lines 102-103 is never empty under the
    guard of line 100, so its first element exists. *)
Lemma first_with_ok (marker line : str) :
  ~ In pipe marker ->
  contains marker line = true ->
  exists p,
    first_with marker (split_on pipe line) = Ok p /\
    first_part marker line p.
Proof.
  intros Hsep Hc.
  destruct (contains_in_part pipe marker line Hsep Hc) as (x & Hin & Hx).
  destruct (filter_first (contains marker) _ x Hin Hx)
    as (pre & p & post & Hsplit & Hpre & Hp & Hf).
  exists p. split.
  - unfold first_with. rewrite Hf. reflexivity.
  - exists pre, post. auto.
Qed.

(** One round of the loop: a line under the guard appends its step,
    any other line leaves the plan as it is. *)
Lemma parse_line_spec (plan : list PlanStep) (line : str) :
  if qualifies line
  then exists step,
      parse_line plan line = Ok (plan ++ [step]) /\ step_of_line line step
  else parse_line plan line = Ok plan.
Proof.
  unfold parse_line, qualifies.
  destruct (contains marker_tool line) eqn:Ht; simpl; [|reflexivity].
  destruct (contains marker_query line) eqn:Hq; simpl; [|reflexivity].
  destruct (first_with_ok marker_tool line pipe_not_in_marker_tool Ht)
    as (tp & -> & Htp).
  destruct (first_with_ok marker_query line pipe_not_in_marker_query Hq)
    as (qp & -> & Hqp).
  eexists. split; [reflexivity|].
  exists tp, qp. simpl. auto.
Qed.

Lemma parse_lines_spec (lines : list str) (plan : list PlanStep) :
  exists steps,
    parse_lines plan lines = Ok (plan ++ steps) /\
    Forall2 step_of_line (filter qualifies lines) steps.
Proof.
  revert plan; induction lines as [|line lines IH]; intros plan.
  - exists []. simpl. rewrite app_nil_r. auto.
  - simpl. pose proof (parse_line_spec plan line) as Hl.
    destruct (qualifies line).
    + destruct Hl as (step & -> & Hstep).
      destruct (IH (plan ++ [step])) as (steps & -> & Hsteps).
      exists (step :: steps). rewrite <- app_assoc. simpl. auto.
    + rewrite Hl. destruct (IH plan) as (steps & -> & Hsteps).
      exists steps. auto.
Qed.

Lemma parse_plan_spec (response : str) :
  exists plan,
    parse_plan response = Ok plan /\
    Forall2 step_of_line
      (filter qualifies (split_on newline response)) plan.
Proof.
  unfold parse_plan.
  destruct (parse_lines_spec (split_on newline response) [])
    as (steps & H & Hsteps).
  exists steps. auto.
Qed.

Lemma Forall2_length_eq {A B} (R : A -> B -> Prop) l1 l2 :
  Forall2 R l1 l2 -> length l1 = length l2.
Proof. induction 1; simpl; congruence. Qed.

Lemma filter_length_le' {A} (f : A -> bool) (l : list A) :
  length (filter f l) <= length l.
Proof.
  induction l as [|x l IH]; simpl; [lia|].
  destruct (f x); simpl; lia.
Qed.

End Planner.

(** ** The nodes and the log *)

Section Nodes.

Variable E : Env.

Lemma framed_ret {A} (a : A) : framed (ret a).
Proof. intros log. unfold ret. simpl. rewrite app_nil_r. reflexivity. Qed.

Lemma framed_lift {A} (o : outcome A) : framed (lift o).
Proof. intros log. unfold lift. simpl. rewrite app_nil_r. reflexivity. Qed.

Lemma framed_emit (ev : event) : framed (emit ev).
Proof. intros log. reflexivity. Qed.

Lemma framed_stuck {A} : framed (fun log => (@None (outcome A), log)).
Proof. intros log. simpl. rewrite app_nil_r. reflexivity. Qed.

Lemma framed_bind {A B} (m : M A) (k : A -> M B) :
  framed m -> (forall a, framed (k a)) -> framed (bind m k).
Proof.
  intros Hm Hk log. unfold bind.
  rewrite (Hm log). destruct (m []) as [[[a|e]|] l0]; simpl.
  - rewrite (Hk a (log ++ l0)), (Hk a l0). simpl.
    rewrite app_assoc. reflexivity.
  - reflexivity.
  - reflexivity.
Qed.

Lemma framed_if {A} (b : bool) (m1 m2 : M A) :
  framed m1 -> framed m2 -> framed (if b then m1 else m2).
Proof. destruct b; auto. Qed.

Ltac framed :=
  repeat (first [ apply framed_bind; [|intros ?]
                | apply framed_if
                | apply framed_ret | apply framed_lift
                | apply framed_emit | apply framed_stuck ]).

Lemma call_llm_framed (prompt : str) : framed (call_llm E prompt).
Proof. unfold call_llm. framed. Qed.

Lemma invoke_tool_framed (n q : str) (t : Tool) :
  framed (invoke_tool E n q t).
Proof. unfold invoke_tool, call_tool. framed. Qed.

Lemma executor_node_framed (st : State) : framed (_executor_node E st).
Proof.
  unfold _executor_node.
  destruct (length (plan st) <=? current_index st); [framed|].
  destruct (nth_error (plan st) (current_index st)); [|framed].
  apply framed_bind; [|intros ?; framed].
  destruct (dict_get (tools E) (tool p)); [|framed].
  apply invoke_tool_framed.
Qed.

Lemma summarizer_node_framed (st : State) : framed (_summarizer_node E st).
Proof. unfold _summarizer_node, call_llm. framed. Qed.

Lemma planner_node_framed (input : TurnInput) :
  framed (_planner_node E input).
Proof. unfold _planner_node, call_llm. framed. Qed.

Lemma executor_loop_framed (fuel : nat) :
  forall st, framed (executor_loop E fuel st).
Proof.
  induction fuel as [|fuel IH]; intros st; simpl; [framed|].
  apply framed_bind; [framed|intros _].
  apply framed_bind; [apply executor_node_framed|intros st'].
  apply framed_if; [apply IH | framed].
Qed.

(** *** One Executor step *)

Lemma executor_node_done (st : State) (log : list event) :
  length (plan st) <= current_index st ->
  _executor_node E st log = (Some (Ok (finished st)), log).
Proof.
  intros H. unfold _executor_node.
  apply Nat.leb_le in H. rewrite H. reflexivity.
Qed.

Lemma executor_node_step (st : State) (step : PlanStep) (log : list event) :
  nth_error (plan st) (current_index st) = Some step ->
  _executor_node E st log =
  match step_result E step log with
  | (Some (Ok res), log') => (Some (Ok (stepped st step res)), log')
  | (Some (Raise e), log') => (Some (Raise e), log')
  | (None, log') => (None, log')
  end.
Proof.
  intros Hstep. unfold _executor_node.
  assert (Hlt : current_index st < length (plan st)).
  { apply nth_error_Some. congruence. }
  apply Nat.leb_gt in Hlt. rewrite Hlt, Hstep.
  unfold bind, step_result.
  destruct (dict_get (tools E) (tool step)) as [t|]; [|reflexivity].
  destruct (invoke_tool E (tool step) (query step) t log)
    as [[[res|e]|] log']; reflexivity.
Qed.

Lemma step_result_log (step : PlanStep) (log : list event) :
  exists out evs,
    step_result E step log = (Some out, log ++ evs) /\
    (evs = [] \/ exists input, evs = [CallTool (tool step) input]).
Proof.
  unfold step_result.
  destruct (dict_get (tools E) (tool step)) as [t|].
  - unfold invoke_tool, call_tool, bind, emit, lift.
    destruct (str_eqb (tool step) name_recommend_by_indications).
    + destruct (json_loads E (query step)) as [j|e].
      * eexists _, _. split; [reflexivity|]. right. eauto.
      * exists (Raise e), []. rewrite app_nil_r. auto.
    + eexists _, _. split; [reflexivity|]. right. eauto.
  - exists (Ok (PyStr (tool_missing (tool step)))), [].
    unfold ret. rewrite app_nil_r. auto.
Qed.

(** The outcomes of one entry of the Executor. *)
Lemma executor_node_cases (st : State) (log : list event) :
  (length (plan st) <= current_index st /\
   _executor_node E st log = (Some (Ok (finished st)), log)) \/
  (exists step out evs,
      nth_error (plan st) (current_index st) = Some step /\
      step_result E step log = (Some out, log ++ evs) /\
      (evs = [] \/ exists input, evs = [CallTool (tool step) input]) /\
      _executor_node E st log =
      (Some match out with
            | Ok res => Ok (stepped st step res)
            | Raise e => Raise e
            end, log ++ evs)).
Proof.
  destruct (le_lt_dec (length (plan st)) (current_index st)) as [Hle|Hlt].
  - left. split; [exact Hle | apply executor_node_done; exact Hle].
  - right. destruct (nth_error (plan st) (current_index st)) as [step|] eqn:Hs.
    + destruct (step_result_log step log) as (out & evs & Hr & Hevs).
      exists step, out, evs. repeat split; auto.
      rewrite (executor_node_step st log Hs), Hr.
      destruct out; reflexivity.
    + apply nth_error_None in Hs. lia.
Qed.

End Nodes.

(** ** The loop *)

Section Loop.

Variable E : Env.

Lemma executor_loop_unfold (fuel : nat) (st : State) (log : list event) :
  executor_loop E (S fuel) st log =
  match _executor_node E st (log ++ [EnterExecutor st]) with
  | (Some (Ok st'), log') =>
      if _should_continue st' then executor_loop E fuel st' log'
      else (Some (Ok st'), log')
  | (Some (Raise e), log') => (Some (Raise e), log')
  | (None, log') => (None, log')
  end.
Proof.
  simpl. unfold bind at 1. unfold emit. unfold bind.
  destruct (_executor_node E st (log ++ [EnterExecutor st]))
    as [[[st'|e]|] log']; try reflexivity.
  destruct (_should_continue st'); reflexivity.
Qed.

Lemma states_of_app (l1 l2 : list event) :
  states_of (l1 ++ l2) = states_of l1 ++ states_of l2.
Proof. apply flat_map_app. Qed.

Lemma tool_calls_app (l1 l2 : list event) :
  tool_calls (l1 ++ l2) = tool_calls l1 + tool_calls l2.
Proof. unfold tool_calls. rewrite filter_app, length_app. reflexivity. Qed.

Lemma summarizer_runs_app (l1 l2 : list event) :
  summarizer_runs (l1 ++ l2) = summarizer_runs l1 + summarizer_runs l2.
Proof.
  unfold summarizer_runs. rewrite filter_app, length_app. reflexivity.
Qed.

Lemma tool_calls_cons (ev : event) (l : list event) :
  tool_calls (ev :: l) = (if is_tool_call ev then 1 else 0) + tool_calls l.
Proof. unfold tool_calls. simpl. destruct (is_tool_call ev); reflexivity. Qed.

Lemma summarizer_runs_cons (ev : event) (l : list event) :
  summarizer_runs (ev :: l)
  = (if is_summarizer_entry ev then 1 else 0) + summarizer_runs l.
Proof.
  unfold summarizer_runs. simpl.
  destruct (is_summarizer_entry ev); reflexivity.
Qed.

(** The events of one step: at most one call of a tool. *)
Lemma step_events (n : str) (evs : list event) :
  evs = [] \/ (exists input, evs = [CallTool n input]) ->
  states_of evs = [] /\ summarizer_runs evs = 0 /\ tool_calls evs <= 1.
Proof.
  intros [-> | [input ->]]; cbn; repeat split; lia.
Qed.

Lemma stop_when_finished (st : State) :
  length (plan st) <= current_index st ->
  _should_continue (finished st) = false.
Proof.
  intros H. unfold _should_continue, finished; simpl.
  destruct (get (force_end st) false); [reflexivity|].
  apply Nat.ltb_ge. exact H.
Qed.

Lemma consistent_stepped (st : State) (step : PlanStep) (res : pyval) :
  current_index st < length (plan st) ->
  consistent st -> consistent (stepped st step res).
Proof.
  unfold consistent, stepped. simpl. intros Hlt [Hle Hlen].
  rewrite length_app. simpl. lia.
Qed.

(** What a run of the loop adds to the log and what it returns. *)
Lemma executor_loop_spec (fuel : nat) :
  forall (st : State) (log : list event),
    consistent st ->
    exists out evs,
      executor_loop E fuel st log = (out, log ++ evs) /\
      summarizer_runs evs = 0 /\
      tool_calls evs <= length (plan st) - current_index st /\
      Forall (fun s => plan s = plan st /\
                       current_index st <= current_index s /\
                       consistent s) (states_of evs) /\
      StronglySorted le (map current_index (states_of evs)) /\
      match out with
      | Some (Ok st') =>
          plan st' = plan st /\
          consistent st' /\
          current_index st <= current_index st' /\
          Forall (fun s => current_index s <= current_index st')
            (states_of evs) /\
          _should_continue st' = false
      | Some (Raise _) => True
      | None => fuel <= length (plan st) - current_index st
      end.
Proof.
  induction fuel as [|fuel IH]; intros st log Hst.
  - exists None, []. simpl. rewrite app_nil_r.
    split; [reflexivity|]. split; [reflexivity|].
    split; [cbn; lia|]. split; [constructor|].
    split; [constructor|lia].
  - rewrite executor_loop_unfold.
    destruct (executor_node_cases E st (log ++ [EnterExecutor st]))
      as [[Hle ->] | (step & out0 & evs0 & Hstep & _ & Hevs & ->)].
    + rewrite (stop_when_finished st Hle).
      exists (Some (Ok (finished st))), [EnterExecutor st].
      split; [reflexivity|].
      split; [reflexivity|].
      split; [cbn; lia|].
      split; [cbn; repeat constructor; apply Hst|].
      split; [cbn; repeat constructor|].
      split; [reflexivity|].
      split; [exact Hst|].
      split; [cbn; lia|].
      split; [cbn; repeat constructor|].
      apply stop_when_finished; exact Hle.
    + assert (Hlt : current_index st < length (plan st)).
      { apply nth_error_Some. congruence. }
      destruct (step_events Hevs) as (Hs0 & Hr0 & Ht0).
      assert (Hone : states_of ([EnterExecutor st] ++ evs0) = [st]).
      { rewrite states_of_app, Hs0. reflexivity. }
      destruct out0 as [res|e].
      * set (st' := stepped st step res).
        assert (Hst' : consistent st')
          by (apply consistent_stepped; assumption).
        assert (Hp' : plan st' = plan st) by reflexivity.
        assert (Hi' : current_index st' = current_index st + 1)
          by reflexivity.
        clearbody st'.
        destruct (_should_continue st') eqn:Hcont.
        -- destruct (IH st' ((log ++ [EnterExecutor st]) ++ evs0) Hst')
             as (out & evs & Hrun & Hr & Ht & Hall & Hsorted & Hout).
           exists out, ([EnterExecutor st] ++ evs0 ++ evs).
           rewrite Hrun.
           assert (Hstates :
                     states_of ([EnterExecutor st] ++ evs0 ++ evs)
                     = st :: states_of evs).
           { rewrite app_assoc, states_of_app, Hone. reflexivity. }
           rewrite Hstates.
           split; [rewrite <- !app_assoc; reflexivity|].
           split.
           { rewrite !summarizer_runs_app, Hr0, Hr. reflexivity. }
           split.
           { rewrite !tool_calls_app. rewrite Hp', Hi' in Ht.
             change (tool_calls [EnterExecutor st]) with 0. lia. }
           split.
           { constructor.
             - split; [reflexivity|]. split; [lia | exact Hst].
             - eapply Forall_impl; [|exact Hall].
               simpl. intros s (Hp & Hi & Hc).
               split; [congruence|]. split; [lia | exact Hc]. }
           split.
           { simpl. constructor; [exact Hsorted|].
             apply Forall_map. eapply Forall_impl; [|exact Hall].
             simpl. intros s (_ & Hi & _). lia. }
           destruct out as [[st''|e]|]; auto.
           ++ destruct Hout as (Hp & Hc & Hi & Hle' & Hstop).
              split; [congruence|]. split; [exact Hc|].
              split; [lia|]. split; [|exact Hstop].
              constructor; [lia | exact Hle'].
           ++ rewrite Hp', Hi' in Hout. lia.
        -- exists (Some (Ok st')), ([EnterExecutor st] ++ evs0).
           rewrite Hone.
           split; [rewrite <- app_assoc; reflexivity|].
           split; [rewrite summarizer_runs_app, Hr0; reflexivity|].
           split.
           { rewrite tool_calls_app.
             change (tool_calls [EnterExecutor st]) with 0. lia. }
           split.
           { constructor; [|constructor].
             split; [reflexivity|]. split; [lia | exact Hst]. }
           split; [repeat constructor|].
           split; [exact Hp'|]. split; [exact Hst'|].
           split; [lia|]. split; [|exact Hcont].
           constructor; [lia | constructor].
      * exists (Some (Raise e)), ([EnterExecutor st] ++ evs0).
        rewrite Hone.
        split; [rewrite <- app_assoc; reflexivity|].
        split; [rewrite summarizer_runs_app, Hr0; reflexivity|].
        split.
        { rewrite tool_calls_app.
          change (tool_calls [EnterExecutor st]) with 0. lia. }
        split.
        { constructor; [|constructor].
          split; [reflexivity|]. split; [lia | exact Hst]. }
        split; [repeat constructor|exact I].
Qed.

End Loop.

(** ** The graph *)

Section Graph.

Variable E : Env.

Lemma quiet_nil : quiet [].
Proof. repeat split. Qed.

Lemma quiet_llm (prompt : str) : quiet [CallLLM prompt].
Proof. repeat split. Qed.

(** The planner calls the model at most once and returns the state
    with which the loop starts. *)
Lemma planner_node_cases (input : TurnInput) (log : list event) :
  exists out evs,
    _planner_node E input log = (Some out, log ++ evs) /\
    quiet evs /\
    match out with
    | Ok p =>
        (exists response, parse_plan response = Ok (plan p)) /\
        results p = [] /\ current_index p = 0 /\
        force_end p = None /\ final_answer p = None /\
        question p = in_question input /\
        chat_history p = in_chat_history input
    | Raise _ => True
    end.
Proof.
  unfold _planner_node, call_llm, bind, lift, emit, ret.
  destruct (planner_template E _ _ _) as [prompt|e].
  - destruct (llm_invoke E prompt) as [response|e].
    + destruct (parse_plan response) as [steps|e] eqn:Hparse.
      * eexists (Ok _), [CallLLM prompt].
        split; [reflexivity|]. split; [apply quiet_llm|].
        simpl. repeat split; eauto.
      * exists (Raise e), [CallLLM prompt].
        split; [reflexivity|]. split; [apply quiet_llm | exact I].
    + exists (Raise e), [CallLLM prompt].
      split; [reflexivity|]. split; [apply quiet_llm | exact I].
  - exists (Raise e), []. rewrite app_nil_r.
    split; [reflexivity|]. split; [apply quiet_nil | exact I].
Qed.

(** The summarizer calls the model at most once; when it returns,
    the final answer is what the model said. *)
Lemma summarizer_node_cases (st : State) (log : list event) :
  exists out evs,
    _summarizer_node E st log = (Some out, log ++ evs) /\
    quiet evs /\
    match out with
    | Ok st' =>
        exists prompt answer,
          evs = [CallLLM prompt] /\
          llm_invoke E prompt = Ok answer /\
          final_answer st' = Some (PyStr answer) /\
          results st' = results st
    | Raise _ => True
    end.
Proof.
  unfold _summarizer_node, call_llm, bind, lift, emit, ret.
  destruct (summarizer_template E _ _ _) as [prompt|e].
  - destruct (llm_invoke E prompt) as [answer|e] eqn:Hllm.
    + eexists (Ok _), [CallLLM prompt].
      split; [reflexivity|]. split; [apply quiet_llm|].
      exists prompt, answer. auto.
    + exists (Raise e), [CallLLM prompt].
      split; [reflexivity|]. split; [apply quiet_llm | exact I].
  - exists (Raise e), []. rewrite app_nil_r.
    split; [reflexivity|]. split; [apply quiet_nil | exact I].
Qed.

(** The path of a turn through the graph. *)
Lemma graph_invoke_path (input : TurnInput) :
  graph_invoke E input [] =
  match _planner_node E input [EnterPlanner] with
  | (Some (Ok p), logP) =>
      match executor_loop E (S (length (plan p))) p logP with
      | (Some (Ok st), logL) =>
          _summarizer_node E st (logL ++ [EnterSummarizer st])
      | (Some (Raise e), logL) => (Some (Raise e), logL)
      | (None, logL) => (None, logL)
      end
  | (Some (Raise e), logP) => (Some (Raise e), logP)
  | (None, logP) => (None, logP)
  end.
Proof.
  unfold graph_invoke, bind, emit. simpl.
  destruct (_planner_node E input [EnterPlanner]) as [[[p|e]|] logP];
    reflexivity.
Qed.

Lemma consistent_planned (p : State) :
  results p = [] -> current_index p = 0 -> consistent p.
Proof. intros Hr Hi. unfold consistent. rewrite Hr, Hi. simpl. lia. Qed.

Lemma StronglySorted_snoc (l : list nat) (x : nat) :
  StronglySorted le l -> Forall (fun y => y <= x) l ->
  StronglySorted le (l ++ [x]).
Proof.
  induction 1 as [|y l Hl IH Hy]; intros Hx; simpl.
  - repeat constructor.
  - inversion Hx; subst. constructor; [apply IH; assumption|].
    apply Forall_app. split; [exact Hy | repeat constructor; assumption].
Qed.

(** The whole of a turn: what the log holds and how the turn ends.
    [p] is the planner's state, [evsL] the events of the loop. *)
Lemma graph_invoke_spec (input : TurnInput) :
  exists outP evsP,
    _planner_node E input [EnterPlanner] = (Some outP, EnterPlanner :: evsP)
    /\ quiet evsP /\
    match outP with
    | Raise e =>
        graph_invoke E input [] = (Some (Raise e), EnterPlanner :: evsP)
    | Ok p =>
        consistent p /\ current_index p = 0 /\
        exists outL evsL,
          executor_loop E (S (length (plan p))) p (EnterPlanner :: evsP)
          = (Some outL, EnterPlanner :: evsP ++ evsL) /\
          summarizer_runs evsL = 0 /\
          tool_calls evsL <= length (plan p) /\
          Forall consistent (states_of evsL) /\
          StronglySorted le (map current_index (states_of evsL)) /\
          match outL with
          | Raise e =>
              graph_invoke E input [] =
              (Some (Raise e), EnterPlanner :: evsP ++ evsL)
          | Ok st =>
              consistent st /\
              Forall (fun s => current_index s <= current_index st)
                (states_of evsL) /\
              exists outS evsS,
                _summarizer_node E st
                  (EnterPlanner :: evsP ++ evsL ++ [EnterSummarizer st])
                = (Some outS,
                   EnterPlanner :: evsP ++ evsL ++ [EnterSummarizer st]
                                ++ evsS) /\
                quiet evsS /\
                graph_invoke E input [] =
                (Some outS,
                 EnterPlanner :: evsP ++ evsL ++ [EnterSummarizer st]
                              ++ evsS)
          end
    end.
Proof.
  rewrite graph_invoke_path.
  destruct (planner_node_cases input [EnterPlanner])
    as (outP & evsP & HP & HqP & HoutP).
  exists outP, evsP. change ([EnterPlanner] ++ evsP)
    with (EnterPlanner :: evsP) in HP. rewrite HP.
  split; [reflexivity|]. split; [exact HqP|].
  destruct outP as [p|e]; [|reflexivity].
  destruct HoutP as (_ & Hres & Hidx & _).
  pose proof (consistent_planned p Hres Hidx) as Hp.
  split; [exact Hp|]. split; [exact Hidx|].
  destruct (@executor_loop_spec E (S (length (plan p))) p
              (EnterPlanner :: evsP) Hp)
    as (outL & evsL & HL & HrL & HtL & HallL & HsortL & HoutL).
  rewrite <- app_comm_cons in HL. rewrite HL.
  destruct outL as [outL|].
  2:{ exfalso. rewrite Hidx in HoutL. lia. }
  exists outL, evsL.
  split; [reflexivity|]. split; [exact HrL|].
  split; [rewrite Hidx in HtL; lia|].
  split; [eapply Forall_impl; [|exact HallL]; simpl; tauto|].
  split; [exact HsortL|].
  destruct outL as [st|e]; [|reflexivity].
  destruct HoutL as (_ & Hst & _ & Hle & _).
  split; [exact Hst|]. split; [exact Hle|].
  destruct (summarizer_node_cases st
              ((EnterPlanner :: evsP ++ evsL) ++ [EnterSummarizer st]))
    as (outS & evsS & HS & HqS & _).
  exists outS, evsS.
  rewrite <- !app_comm_cons, <- !app_assoc in HS.
  split; [exact HS|]. split; [exact HqS|].
  rewrite <- app_comm_cons, <- app_assoc. exact HS.
Qed.

(** The fuel that [graph_invoke] gives the loop is enough. *)
Lemma graph_invoke_total (input : TurnInput) :
  fst (graph_invoke E input []) <> None.
Proof.
  destruct (graph_invoke_spec input) as (outP & evsP & _ & _ & H).
  destruct outP as [p|e]; [|rewrite H; discriminate].
  destruct H as (_ & _ & outL & evsL & _ & _ & _ & _ & _ & H).
  destruct outL as [st|e]; [|rewrite H; discriminate].
  destruct H as (_ & _ & outS & evsS & _ & _ & ->). discriminate.
Qed.

End Graph.

(** ** A step that raises *)

Section Raising.

Variable E : Env.

Lemma step_result_framed (step : PlanStep) : framed (step_result E step).
Proof.
  unfold step_result. destruct (dict_get (tools E) (tool step)).
  - apply invoke_tool_framed.
  - apply framed_ret.
Qed.

(** The Executor lets the exception of the step through. *)
Lemma step_raises_node (st : State) (e : exn) (log : list event) :
  step_raises E st e ->
  exists evs,
    _executor_node E st log = (Some (Raise e), log ++ evs) /\
    states_of evs = [].
Proof.
  intros (step & t & Hn & Hd & Hr).
  destruct (executor_node_cases E st log)
    as [[Hle _] | (step' & out & evs & Hn' & Hres & Hevs & Hnode)].
  - apply nth_error_None in Hle. congruence.
  - assert (step' = step) by congruence; subst step'.
    rewrite (step_result_framed step log) in Hres.
    unfold step_result in Hres at 1. rewrite Hd, Hr in Hres.
    inversion Hres; subst out.
    exists evs. split; [exact Hnode|].
    apply (step_events Hevs).
Qed.

Lemma in_step_events (n : str) (evs : list event) (s : State) :
  evs = [] \/ (exists input, evs = [CallTool n input]) ->
  ~ In (EnterExecutor s) evs.
Proof.
  intros [-> | [input ->]] Hin; simpl in Hin;
    [contradiction | destruct Hin as [H|[]]; discriminate].
Qed.

(** When the loop enters the Executor on a step that raises, the loop
    raises, and the log holds no later state. *)
Lemma executor_loop_raises (fuel : nat) :
  forall (st : State) out evs,
    executor_loop E fuel st [] = (out, evs) ->
    forall s e,
      In (EnterExecutor s) evs -> step_raises E s e ->
      out = Some (Raise e) /\
      exists pre post,
        evs = pre ++ EnterExecutor s :: post /\ states_of post = [].
Proof.
  induction fuel as [|fuel IH]; intros st out evs Hrun s e Hin Hs.
  - inversion Hrun; subst. contradiction.
  - rewrite executor_loop_unfold in Hrun. simpl app in Hrun.
    destruct (executor_node_cases E st [EnterExecutor st])
      as [[Hle Hnode] | (step & out0 & evs0 & Hn & _ & Hevs & Hnode)].
    + rewrite Hnode, (stop_when_finished st Hle) in Hrun.
      inversion Hrun; subst.
      destruct Hin as [Heq|[]]. inversion Heq; subst s.
      destruct Hs as (step & t & Hn & _).
      apply nth_error_None in Hle. congruence.
    + assert (Hhere :
                s = st ->
                out0 = Raise e).
      { intros ->.
        destruct (step_raises_node [EnterExecutor st] Hs)
          as (evs1 & Hraise & _).
        rewrite Hraise in Hnode. destruct out0; inversion Hnode.
        reflexivity. }
      rewrite Hnode in Hrun.
      destruct out0 as [res|e0].
      * destruct (_should_continue (stepped st step res)).
        -- rewrite (executor_loop_framed E fuel (stepped st step res)
                      ([EnterExecutor st] ++ evs0)) in Hrun.
           inversion Hrun; subst out evs. clear Hrun.
           destruct Hin as [Heq | Hin].
           { inversion Heq; subst s.
             specialize (Hhere eq_refl). discriminate. }
           apply in_app_or in Hin as [Hin | Hin].
           ++ exfalso. exact (in_step_events s Hevs Hin).
           ++ destruct (IH (stepped st step res) _ _
                          (surjective_pairing _) s e Hin Hs)
                as (Hout & pre & post & Hevs' & Hpost).
              split; [exact Hout|].
              exists (EnterExecutor st :: evs0 ++ pre), post.
              rewrite Hevs'. simpl. rewrite <- app_assoc. auto.
        -- inversion Hrun; subst out evs. clear Hrun.
           destruct Hin as [Heq | Hin].
           ++ inversion Heq; subst s.
              specialize (Hhere eq_refl). discriminate.
           ++ exfalso. exact (in_step_events s Hevs Hin).
      * inversion Hrun; subst out evs. clear Hrun.
        destruct Hin as [Heq | Hin].
        ++ inversion Heq; subst s.
           specialize (Hhere eq_refl). inversion Hhere; subst e0.
           split; [reflexivity|].
           exists [], evs0. split; [reflexivity|].
           apply (step_events Hevs).
        ++ exfalso. exact (in_step_events s Hevs Hin).
Qed.

Lemma quiet_no_executor (evs : list event) (s : State) :
  quiet evs -> ~ In (EnterExecutor s) evs.
Proof.
  intros (Hst & _) Hin. unfold states_of in Hst.
  assert (In s (flat_map
                  (fun ev => match ev with
                             | EnterExecutor st | EnterSummarizer st => [st]
                             | _ => []
                             end) evs)).
  { apply in_flat_map. exists (EnterExecutor s). split; [exact Hin|].
    left; reflexivity. }
  rewrite Hst in H. contradiction.
Qed.

(** The same for a whole turn. *)
Lemma graph_invoke_raises (input : TurnInput) (s : State) (e : exn) :
  In (EnterExecutor s) (snd (graph_invoke E input [])) ->
  step_raises E s e ->
  fst (graph_invoke E input []) = Some (Raise e) /\
  exists pre post,
    snd (graph_invoke E input []) = pre ++ EnterExecutor s :: post /\
    states_of post = [].
Proof.
  intros Hin Hs.
  destruct (graph_invoke_spec E input) as (outP & evsP & _ & HqP & H).
  destruct outP as [p|eP].
  2:{ rewrite H in Hin. simpl in Hin. destruct Hin as [Hin|Hin];
      [discriminate | exfalso; exact (@quiet_no_executor _ s HqP Hin)]. }
  destruct H as (_ & _ & outL & evsL & HL & _ & _ & _ & _ & H).
  rewrite (executor_loop_framed E _ p (EnterPlanner :: evsP)) in HL.
  pose proof (f_equal fst HL) as HoutL.
  pose proof (f_equal snd HL) as HevsL.
  cbn [fst snd] in HoutL, HevsL.
  change (EnterPlanner :: evsP ++ evsL)
    with ((EnterPlanner :: evsP) ++ evsL) in HevsL.
  apply app_inv_head in HevsL.
  assert (Hloop :
            In (EnterExecutor s) evsL ->
            outL = Raise e /\
            exists pre post,
              evsL = pre ++ EnterExecutor s :: post /\
              states_of post = []).
  { intros HinL. rewrite <- HevsL in HinL.
    destruct (@executor_loop_raises _ _ _ _ (surjective_pairing _)
                s e HinL Hs)
      as (Hout & pre & post & Hevs & Hpost).
    rewrite HoutL in Hout. inversion Hout. split; [reflexivity|].
    exists pre, post. rewrite <- HevsL. auto. }
  assert (HinP : ~ In (EnterExecutor s) (EnterPlanner :: evsP)).
  { intros [Hd|Hd]; [discriminate|exact (@quiet_no_executor _ s HqP Hd)]. }
  destruct outL as [st|eL].
  - destruct H as (_ & _ & outS & evsS & _ & HqS & Hg).
    rewrite Hg in Hin. simpl snd in Hin.
    rewrite app_comm_cons in Hin.
    apply in_app_or in Hin as [Hin | Hin]; [contradiction|].
    apply in_app_or in Hin as [Hin | Hin].
    + destruct (Hloop Hin) as (Hbad & _). discriminate.
    + destruct Hin as [Hd | Hin]; [discriminate|].
      exfalso. exact (@quiet_no_executor _ s HqS Hin).
  - rewrite H in Hin |- *. simpl fst. simpl snd in Hin |- *.
    rewrite app_comm_cons in Hin.
    apply in_app_or in Hin as [Hin | Hin]; [contradiction|].
    destruct (Hloop Hin) as (Hout & pre & post & -> & Hpost).
    inversion Hout; subst eL. split; [reflexivity|].
    exists (EnterPlanner :: evsP ++ pre), post.
    split; [|exact Hpost].
    simpl. rewrite <- app_assoc. reflexivity.
Qed.

End Raising.

(** ** The turn *)

Section Turn.

Variable E : Env.

Lemma states_of_after_planner (evsP rest : list event) :
  quiet evsP ->
  states_of (EnterPlanner :: evsP ++ rest) = states_of rest.
Proof.
  intros (Hs & _).
  change (EnterPlanner :: evsP ++ rest)
    with ([EnterPlanner] ++ evsP ++ rest).
  rewrite !states_of_app, Hs. reflexivity.
Qed.

Lemma tool_calls_after_planner (evsP rest : list event) :
  quiet evsP ->
  tool_calls (EnterPlanner :: evsP ++ rest) = tool_calls rest.
Proof.
  intros (_ & Ht & _).
  change (EnterPlanner :: evsP ++ rest)
    with ([EnterPlanner] ++ evsP ++ rest).
  rewrite !tool_calls_app, Ht. reflexivity.
Qed.

Lemma summarizer_runs_after_planner (evsP rest : list event) :
  quiet evsP ->
  summarizer_runs (EnterPlanner :: evsP ++ rest) = summarizer_runs rest.
Proof.
  intros (_ & _ & Hr).
  change (EnterPlanner :: evsP ++ rest)
    with ([EnterPlanner] ++ evsP ++ rest).
  rewrite !summarizer_runs_app, Hr. reflexivity.
Qed.

(** A turn that returns went through the Summarizer once, and its
    final answer is what the model said there. *)
Lemma summarizer_always_answers (input : TurnInput) (st : State)
  (log : list event) :
  graph_invoke E input [] = (Some (Ok st), log) ->
  summarizer_runs log = 1 /\
  exists prompt answer,
    llm_invoke E prompt = Ok answer /\
    final_answer st = Some (PyStr answer).
Proof.
  intros Hrun.
  destruct (graph_invoke_spec E input) as (outP & evsP & _ & HqP & H).
  destruct outP as [p|e]; [|congruence].
  destruct H as (_ & _ & outL & evsL & _ & HrL & _ & _ & _ & H).
  destruct outL as [st0|e]; [|congruence].
  destruct H as (_ & _ & outS & evsS & HS & HqS & Hg).
  rewrite Hg in Hrun. inversion Hrun; subst outS log. clear Hrun.
  split.
  - rewrite (summarizer_runs_after_planner _ HqP).
    rewrite summarizer_runs_app, HrL.
    destruct HqS as (_ & _ & HrS).
    unfold summarizer_runs in *. simpl. rewrite HrS. reflexivity.
  - destruct (summarizer_node_cases E st0
                (EnterPlanner :: evsP ++ evsL ++ [EnterSummarizer st0]))
      as (out & evs & HS' & _ & Hout).
    rewrite HS in HS'. inversion HS'; subst out.
    destruct Hout as (prompt & answer & _ & Hllm & Hfinal & _).
    eauto.
Qed.

End Turn.

(** ** [run] *)

Section Run.

Variable invoke : TurnInput -> M State.
Variable question : str.
Variable memory : list Message.
Variable log : list event.

Let asked : list Message := memory ++ [mkMessage human (PyStr question)].

Lemma run_with_log :
  snd (run_with invoke question memory log)
  = snd (invoke (mkInput question asked) log).
Proof.
  unfold run_with. fold asked.
  destruct (invoke (mkInput question asked) log) as [[[st|e]|] l];
    try reflexivity.
  destruct (add_ai_message asked (get (final_answer st) (PyStr no_result)));
    reflexivity.
Qed.

Lemma run_with_raise (e : exn) :
  fst (invoke (mkInput question asked) log) = Some (Raise e) ->
  fst (run_with invoke question memory log) = (Some (Raise e), asked).
Proof.
  unfold run_with. fold asked.
  destruct (invoke (mkInput question asked) log) as [[[st|e0]|] l];
    cbn [fst]; intros H; inversion H; reflexivity.
Qed.

(** The graph returns a state whose final answer is a text, or is not
    there. *)
Lemma run_with_ok (st : State) (log' : list event) (said : option str) :
  invoke (mkInput question asked) log = (Some (Ok st), log') ->
  final_answer st = option_map PyStr said ->
  run_with invoke question memory log =
  (Some (Ok (PyStr (get said no_result))),
   asked ++ [mkMessage ai (PyStr (get said no_result))],
   log').
Proof.
  unfold run_with. fold asked. intros -> ->.
  destruct said; reflexivity.
Qed.

(** The graph returns a state whose final answer is [None]: the
    message is refused. *)
Lemma run_with_none (st : State) (log' : list event) :
  invoke (mkInput question asked) log = (Some (Ok st), log') ->
  final_answer st = Some PyNone ->
  run_with invoke question memory log
  = (Some (Raise validation_error), asked, log').
Proof.
  unfold run_with. fold asked. intros -> ->. reflexivity.
Qed.

End Run.

(** What [run] returns is what the model said in the Summarizer: the
    fallback text that the Executor puts in the state is never what a
    turn answers, unless the model says it. *)
Lemma run_answer_is_the_models (E : Env) (question : str)
  (memory : list Message) (answer : pyval) :
  fst (fst (run E question memory [])) = Some (Ok answer) ->
  summarizer_runs (snd (run E question memory [])) = 1 /\
  exists prompt said,
    llm_invoke E prompt = Ok said /\ answer = PyStr said.
Proof.
  unfold run. rewrite run_with_log. unfold run_with.
  destruct (graph_invoke E _ []) as [[[st|e]|] log] eqn:Hg;
    [|cbn [fst snd]; intros H; discriminate..].
  destruct (@summarizer_always_answers E _ st log Hg)
    as (Hruns & prompt & said & Hllm & Hfinal).
  rewrite Hfinal. cbn [get add_ai_message fst snd].
  intros H. inversion H; subst answer.
  split; [exact Hruns|].
  exists prompt, said. auto.
Qed.

(** ** The registry and the forced stop *)

Lemma dict_get_tools_none (E : Env) (n : str) :
  ~ In n registry_keys -> dict_get (tools E) n = None.
Proof.
  unfold registry_keys, tools. intros Hn. cbn [dict_get].
  repeat match goal with
         | |- context [str_eqb ?k n] =>
             let Heq := fresh "Heq" in
             destruct (str_eqb k n) eqn:Heq;
             [apply str_eqb_eq in Heq; exfalso; apply Hn; rewrite Heq;
              cbn [In]; tauto|]
         end.
  reflexivity.
Qed.

Lemma truthy_tool_missing (n : str) : truthy (PyStr (tool_missing n)) = true.
Proof. reflexivity. Qed.

Lemma useful_result_does_not_force (index : nat) (rs : list ToolResult)
  (r : ToolResult) :
  truthy (result r) = true -> forced_stop index (rs ++ [r]) = false.
Proof.
  intros Hr. unfold forced_stop. rewrite filter_app. simpl. rewrite Hr.
  destruct (filter (fun r0 => truthy (result r0)) rs);
    apply andb_false_r.
Qed.

(** ** [recommend_alternatives] *)

Module ToolsFacts.

Import Tools.

Section Scores.

Lemma bump_count (n md : str) (scores : Scores) (n' : str) :
  count_of (bump n md scores) n'
  = count_of scores n' + (if str_eqb n n' then 1 else 0).
Proof.
  induction scores as [|[k [c old]] rest IH]; simpl.
  - destruct (str_eqb n n'); reflexivity.
  - destruct (str_eqb k n) eqn:Hkn; simpl.
    + apply str_eqb_eq in Hkn; subst k.
      destruct (str_eqb n n'); lia.
    + destruct (str_eqb k n') eqn:Hkn'; [|exact IH].
      apply str_eqb_eq in Hkn'; subst k.
      destruct (str_eqb n n') eqn:Hnn'; [|lia].
      apply str_eqb_eq in Hnn'; subst n'.
      rewrite str_eqb_refl in Hkn. discriminate.
Qed.

Lemma bump_keys (n md : str) (scores : Scores) (k : str) :
  In k (map fst (bump n md scores)) <-> k = n \/ In k (map fst scores).
Proof.
  induction scores as [|[k0 [c old]] rest IH]; simpl.
  - intuition auto.
  - destruct (str_eqb k0 n) eqn:Hk; simpl.
    + apply str_eqb_eq in Hk; subst k0. intuition auto.
    + rewrite IH. intuition auto.
Qed.

Lemma bump_NoDup (n md : str) (scores : Scores) :
  NoDup (map fst scores) -> NoDup (map fst (bump n md scores)).
Proof.
  induction scores as [|[k0 [c old]] rest IH]; simpl; intros Hnd.
  - constructor; [intros [] | constructor].
  - inversion Hnd as [|? ? Hnotin Hrest]; subst.
    destruct (str_eqb k0 n) eqn:Hk; simpl.
    + constructor; assumption.
    + constructor; [|apply IH; exact Hrest].
      rewrite bump_keys. intros [-> | Hin]; [|contradiction].
      rewrite str_eqb_refl in Hk. discriminate.
Qed.

Lemma bump_positive (n md : str) (scores : Scores) :
  positive scores -> positive (bump n md scores).
Proof.
  unfold positive.
  induction scores as [|[k0 [c old]] rest IH]; simpl; intros Hp.
  - repeat constructor.
  - inversion Hp; subst.
    destruct (str_eqb k0 n); constructor; simpl in *; auto; lia.
Qed.

Lemma count_of_entry (scores : Scores) (k : str) (c : nat) (md : str) :
  NoDup (map fst scores) -> In (k, (c, md)) scores ->
  count_of scores k = c.
Proof.
  induction scores as [|[k0 [c0 md0]] rest IH]; simpl; intros Hnd Hin;
    [contradiction|].
  inversion Hnd as [|? ? Hnotin Hrest]; subst.
  destruct Hin as [Heq | Hin].
  - inversion Heq; subst. rewrite str_eqb_refl. reflexivity.
  - destruct (str_eqb k0 k) eqn:Hk; [|apply IH; assumption].
    apply str_eqb_eq in Hk; subst k0.
    exfalso. apply Hnotin.
    change k with (fst (k, (c, md))). apply in_map. exact Hin.
Qed.

Variable medicine_id : str.

(** What one of the three loops does to the counts. *)
Lemma score_pass_spec (alts : list Entity) :
  forall scores : Scores,
    NoDup (map fst scores) -> positive scores ->
    NoDup (map fst (score_pass medicine_id scores alts)) /\
    positive (score_pass medicine_id scores alts) /\
    forall n,
      count_of (score_pass medicine_id scores alts) n
      = count_of scores n
        + length (filter (is_candidate medicine_id n) alts).
Proof.
  unfold score_pass.
  induction alts as [|m alts IH]; intros scores Hnd Hpos; simpl.
  - repeat split; auto.
  - destruct (str_eqb (id m) medicine_id) eqn:Hid; simpl.
    + destruct (IH scores Hnd Hpos) as (Hnd' & Hpos' & Hcount).
      repeat split; auto. intros n. rewrite Hcount.
      unfold is_candidate at 2. rewrite Hid, andb_false_r. reflexivity.
    + destruct (IH (bump (name m) (metadata_of m) scores)
                  (@bump_NoDup _ _ scores Hnd)
                  (@bump_positive _ _ scores Hpos))
        as (Hnd' & Hpos' & Hcount).
      repeat split; auto. intros n. rewrite Hcount, bump_count.
      unfold is_candidate at 2. rewrite Hid, andb_true_r.
      destruct (str_eqb (name m) n); simpl; lia.
Qed.

End Scores.

Section Ranking.

Lemma insert_rec_in (x : Rec) (l : list Rec) (r : Rec) :
  In r (insert_rec x l) <-> r = x \/ In r l.
Proof.
  induction l as [|y l IH]; simpl.
  - intuition auto.
  - destruct (score y <=? score x); simpl; [intuition auto|].
    rewrite IH. intuition auto.
Qed.

Lemma sort_recs_in (l : list Rec) (r : Rec) :
  In r (sort_recs l) <-> In r l.
Proof.
  induction l as [|x l IH]; simpl; [tauto|].
  rewrite insert_rec_in, IH. intuition auto.
Qed.

Lemma insert_rec_sorted (x : Rec) (l : list Rec) :
  StronglySorted by_score l -> StronglySorted by_score (insert_rec x l).
Proof.
  induction 1 as [|y l Hl IH Hy]; simpl.
  - repeat constructor.
  - destruct (score y <=? score x) eqn:Hle.
    + apply Nat.leb_le in Hle.
      constructor; [constructor; assumption|].
      constructor; [exact Hle|].
      eapply Forall_impl; [|exact Hy].
      unfold by_score. intros z Hz. lia.
    + apply Nat.leb_gt in Hle.
      constructor; [exact IH|].
      apply Forall_forall. intros z Hz.
      apply insert_rec_in in Hz as [-> | Hz].
      * unfold by_score. lia.
      * rewrite Forall_forall in Hy. apply Hy. exact Hz.
Qed.

Lemma sort_recs_sorted (l : list Rec) :
  StronglySorted by_score (sort_recs l).
Proof.
  induction l as [|x l IH]; simpl;
    [constructor | apply insert_rec_sorted; exact IH].
Qed.

(** The sort is stable: among the recommendations of one score, the
order of the dict is kept. *)
Lemma insert_rec_stable (k : nat) (x : Rec) (l : list Rec) :
filter (fun r => score r =? k) (insert_rec x l)
= filter (fun r => score r =? k) (x :: l).
Proof.
induction l as [|y l IH]; [reflexivity|].
simpl insert_rec. destruct (score y <=? score x) eqn:Hle; [reflexivity|].
apply Nat.leb_gt in Hle.
simpl filter in *. rewrite IH.
destruct (score x =? k) eqn:Hx; [|reflexivity].
apply Nat.eqb_eq in Hx.
assert (Hy : (score y =? k) = false) by (apply Nat.eqb_neq; lia).
rewrite Hy. reflexivity.
Qed.

Lemma sort_recs_stable (k : nat) (l : list Rec) :
filter (fun r => score r =? k) (sort_recs l)
= filter (fun r => score r =? k) l.
Proof.
induction l as [|x l IH]; [reflexivity|].
simpl sort_recs. rewrite insert_rec_stable. simpl. rewrite IH.
reflexivity.
Qed.

Lemma firstn_in {A} (k : nat) (l : list A) (x : A) :
  In x (firstn k l) -> In x l.
Proof.
  intros H. rewrite <- (firstn_skipn k l).
  apply in_or_app. left. exact H.
Qed.



Variable searcher : Searcher.
Variable medicine_id : str.

(** The score of a recommendation counts the neighbours with its
    name that are not the target, and there is at least one. *)
Lemma ranked_score (r : Rec) :
  In r (ranked searcher medicine_id) ->
  score r = shared_nodes searcher medicine_id (rec_name r) /\
  1 <= score r.
Proof.
  unfold ranked, shared_nodes, neighbours, gather.
  set (alts_type := alternatives_via searcher rel_type _).
  set (alts_ind := alternatives_via searcher rel_indication _).
  set (alts_ingre := alternatives_via searcher rel_ingredient _).
  intros Hin. apply -> sort_recs_in in Hin.
  apply in_map_iff in Hin as ([n [s md]] & <- & Hin). simpl.
  destruct (@score_pass_spec medicine_id alts_type []
              (NoDup_nil _) (Forall_nil _)) as (Hnd1 & Hpos1 & Hc1).
  destruct (@score_pass_spec medicine_id alts_ind _ Hnd1 Hpos1)
    as (Hnd2 & Hpos2 & Hc2).
  destruct (@score_pass_spec medicine_id alts_ingre _ Hnd2 Hpos2)
    as (Hnd3 & Hpos3 & Hc3).
  split.
  - rewrite <- (@count_of_entry _ n s md Hnd3 Hin).
    rewrite Hc3, Hc2, Hc1, !filter_app, !length_app. simpl. lia.
  - unfold positive in Hpos3. rewrite Forall_forall in Hpos3.
    exact (Hpos3 _ Hin).
Qed.



End Ranking.

End ToolsFacts.

Section Alternatives.

Import Tools.

Variable searcher : Searcher.
Variable keyword : str.
Variable top_k : nat.
Variable target : Entity.
Variable rest : list Entity.
Hypothesis resolved : find_medicine_regex searcher keyword = target :: rest.

Lemma returned_prefix :
  returned searcher keyword top_k
  = firstn top_k (ranked searcher (id target)).
Proof. unfold returned. rewrite resolved. reflexivity. Qed.

Lemma returned_in_ranked (r : Rec) :
  In r (returned searcher keyword top_k) ->
  In r (ranked searcher (id target)).
Proof. rewrite returned_prefix. apply ToolsFacts.firstn_in. Qed.



End Alternatives.

(** * The claims *)

(** C1 (the code departs from the claim).  A plan of four steps whose
    tools all return the empty string: the loop stops after the third
    step with [force_end] set and the fallback text in [final_answer],
    but the graph then enters the Summarizer, which calls the model and
    overwrites the answer; [run] returns the model's text, not the
    fallback. *)
Theorem forced_stop_is_summarized :
  let E := Examples.env Examples.four_lines Examples.silent_tool in
  let log := snd (run E Examples.ask [] []) in
  fst (fst (run E Examples.ask [] [])) =
    Some (Ok (PyStr Examples.model_answer)) /\
  Examples.model_answer
  <> text "Không tìm được dữ liệu hữu ích sau 3 lần thử." /\
  tool_calls log = 3 /\
  summarizer_runs log = 1 /\
  exists st,
    In (EnterSummarizer st) log /\
    current_index st = 3 /\
    force_end st = Some true /\
    final_answer st
    = Some (PyStr (text "Không tìm được dữ liệu hữu ích sau 3 lần thử.")).
Proof.
  vm_compute.
  split; [reflexivity|]. split; [discriminate|].
  split; [reflexivity|]. split; [reflexivity|].
  eexists. split.
  - do 8 right. left. reflexivity.
  - repeat split.
Qed.

(** C2 (the claim as stated fails).  With a tool that raises, the
    Executor returns no state at all: it raises what the tool raised,
    and so does [run], which leaves the question in memory without an
    answer. *)
Lemma tool_failure_is_not_caught :
  let E := Examples.env Examples.line_a Examples.failing_tool in
  _executor_node E (Examples.planned [Examples.step_a]) [] =
    (Some (Raise (OtherError 1)),
     [CallTool name_search_by_name (InText (query Examples.step_a))])
  /\ run E Examples.ask [] [] =
     (Some (Raise (OtherError 1)),
      [mkMessage human (PyStr Examples.ask)],
      [EnterPlanner; CallLLM Examples.prompt_plan;
       EnterExecutor (Examples.planned [Examples.step_a]);
       CallTool name_search_by_name (InText (query Examples.step_a))]).
Proof. vm_compute. split; reflexivity. Qed.

(** C2 (amended).  When a turn enters the Executor on a step whose tool
    invocation raises (the tool itself, or the decoding of the query of
    the indications tool), nothing catches the exception: [run] raises
    it, memory holds the question and no answer, and the log holds no
    state after the one the Executor was entered with, so no result is
    recorded, the cursor does not move and the Summarizer is not
    entered. *)
Theorem tool_failure_aborts_turn (E : Env) (question : str)
  (memory : list Message) (st : State) (e : exn) :
  In (EnterExecutor st) (snd (run E question memory [])) ->
  step_raises E st e ->
  fst (run E question memory []) =
    (Some (Raise e), memory ++ [mkMessage human (PyStr question)]) /\
  exists pre post,
    snd (run E question memory []) = pre ++ EnterExecutor st :: post /\
    states_of post = [].
Proof.
  unfold run. intros Hin Hs. rewrite run_with_log in Hin |- *.
  destruct (@graph_invoke_raises E _ st e Hin Hs)
    as (Hout & pre & post & Hl & Hpost).
  split; [apply run_with_raise; exact Hout|].
  exists pre, post. split; [exact Hl | exact Hpost].
Qed.

Lemma tool_failure_aborts_turn_witness :
  let E := Examples.env Examples.line_a Examples.failing_tool in
  fst (run E Examples.ask [] []) =
    (Some (Raise (OtherError 1)), [mkMessage human (PyStr Examples.ask)]).
Proof.
  intros E.
  apply (@tool_failure_aborts_turn E Examples.ask []
           (Examples.planned [Examples.step_a]) (OtherError 1)).
  - vm_compute. right. right. left. reflexivity.
  - exists Examples.step_a, Examples.failing_tool.
    vm_compute. repeat split.
Defined.




(** C4 (the claim as stated fails).  A line that holds both markers
    and no pipe is read as a step all the same: the whole line is both
    the tool part and the query part. *)
Lemma line_without_pipe_is_a_step :
  ~ In pipe Examples.line_no_pipe /\
  parse_plan Examples.line_no_pipe =
    Ok [mkStep (text "a Query: b") (text "Tool: a  b")].
Proof.
  split; [|vm_compute; reflexivity].
  vm_compute. intuition discriminate.
Qed.

(** C4 (amended).  Reading a response never raises.  The plan has one
    step for each line that holds both the marker [Tool:] and the
    marker [Query:], pipe or no pipe, in the order of the lines, and
    nothing for the other lines.  The tool name of the step is the
    first part between pipes that holds [Tool:], with the marker
    removed and the white space around it stripped; the query is read
    in the same way from the first part that holds [Query:].  The empty
    response gives the empty plan. *)
Theorem plan_reads_marked_lines :
  (forall response : str,
      exists plan,
        parse_plan response = Ok plan /\
        Forall2 step_of_line
          (filter qualifies (split_on newline response)) plan) /\
  parse_plan [] = Ok [].
Proof.
  split; [apply parse_plan_spec | reflexivity].
Qed.

(** C5.  In every turn, each state that the graph hands from one node
    to the next (the planner's, and the one after each Executor step)
    has its cursor within the plan and as many results as the cursor
    says, and the cursors of these states never decrease along the
    turn. *)
Theorem cursor_bounded_and_counts_results (E : Env) (input : TurnInput) :
  Forall consistent (states_of (snd (graph_invoke E input []))) /\
  StronglySorted le
    (map current_index (states_of (snd (graph_invoke E input [])))).
Proof.
  destruct (graph_invoke_spec E input) as (outP & evsP & _ & HqP & H).
  destruct outP as [p|e].
  - destruct H as (_ & _ & outL & evsL & _ & _ & _ & Hall & Hsorted & H).
    destruct outL as [st|e].
    + destruct H as (Hst & Hle & outS & evsS & _ & HqS & ->). simpl snd.
      change (EnterSummarizer st :: evsS)
        with ([EnterSummarizer st] ++ evsS).
      rewrite (states_of_after_planner _ HqP), !states_of_app.
      destruct HqS as (-> & _). rewrite app_nil_r.
      change (states_of [EnterSummarizer st]) with [st].
      split.
      * apply Forall_app. split; [exact Hall | repeat constructor; apply Hst].
      * rewrite map_app. apply StronglySorted_snoc; [exact Hsorted|].
        apply Forall_map. exact Hle.
    + rewrite H. simpl snd.
      rewrite <- (app_nil_r evsL), (states_of_after_planner _ HqP).
      rewrite app_nil_r. split; assumption.
  - rewrite H. simpl snd.
    rewrite <- (app_nil_r evsP), (states_of_after_planner _ HqP).
    split; constructor.
Qed.

(** C6.  When the step under the cursor names a tool that is not one
    of the four keys of the registry, the Executor returns (it does not
    raise), calls no tool, appends a result whose text is
    [Tool '<name>' không tồn tại.] and moves the cursor by one. *)
Theorem unknown_tool_is_recorded (E : Env) (st : State) (log : list event)
  (step : PlanStep) :
  nth_error (plan st) (current_index st) = Some step ->
  ~ In (tool step) registry_keys ->
  _executor_node E st log =
  (Some (Ok (recorded st step
               (PyStr (text "Tool '" ++ tool step
                       ++ text "' không tồn tại.")))),
   log).
Proof.
  intros Hstep Hunknown.
  rewrite (executor_node_step E st log Hstep).
  unfold step_result. rewrite (dict_get_tools_none E Hunknown).
  unfold ret, stepped, recorded.
  rewrite useful_result_does_not_force by apply truthy_tool_missing.
  reflexivity.
Qed.

Lemma unknown_tool_is_recorded_witness :
  let E := Examples.env Examples.line_unknown Examples.failing_tool in
  let st := Examples.planned [Examples.step_unknown] in
  _executor_node E st [] =
  (Some (Ok (recorded st Examples.step_unknown
               (PyStr (text "Tool 'lookup' không tồn tại.")))), []).
Proof.
  intros E st.
  apply (@unknown_tool_is_recorded E st [] Examples.step_unknown).
  - reflexivity.
  - vm_compute. intuition discriminate.
Defined.

(** C7.  When the planner returns a state whose plan is empty, the
    graph enters the Executor once, which calls no tool and returns
    the state as it is (with [done] set), and then enters the
    Summarizer, once, with no results. *)
Theorem empty_plan_reaches_summarizer (E : Env) (input : TurnInput)
  (p : State) (logP : list event) :
  _planner_node E input [EnterPlanner] = (Some (Ok p), logP) ->
  plan p = [] ->
  graph_invoke E input [] =
    _summarizer_node E (finished p)
      (logP ++ [EnterExecutor p; EnterSummarizer (finished p)]) /\
  results (finished p) = [] /\
  tool_calls (snd (graph_invoke E input [])) = 0 /\
  summarizer_runs (snd (graph_invoke E input [])) = 1.
Proof.
  intros HP Hplan.
  destruct (planner_node_cases E input [EnterPlanner])
    as (outP & evsP & HP' & HqP & HoutP).
  rewrite HP in HP'. inversion HP'; subst outP logP. clear HP'.
  destruct HoutP as (_ & Hres & Hidx & _).
  assert (Hrun :
            graph_invoke E input [] =
            _summarizer_node E (finished p)
              (([EnterPlanner] ++ evsP)
                 ++ [EnterExecutor p; EnterSummarizer (finished p)])).
  { rewrite graph_invoke_path, HP, Hplan.
    change (length (@nil PlanStep)) with 0.
    rewrite executor_loop_unfold.
    assert (Hle : length (plan p) <= current_index p)
      by (rewrite Hplan; simpl; lia).
    rewrite (executor_node_done E p _ Hle).
    rewrite (stop_when_finished p Hle).
    rewrite <- app_assoc. reflexivity. }
  split; [exact Hrun|]. split; [exact Hres|].
  rewrite Hrun.
  destruct (summarizer_node_cases E (finished p)
              (([EnterPlanner] ++ evsP)
                 ++ [EnterExecutor p; EnterSummarizer (finished p)]))
    as (outS & evsS & -> & (_ & HtS & HrS) & _).
  cbn [snd]. destruct HqP as (_ & HtP & HrP).
  repeat (rewrite tool_calls_app || rewrite tool_calls_cons).
  repeat (rewrite summarizer_runs_app || rewrite summarizer_runs_cons).
  rewrite HtP, HrP, HtS, HrS.
  split; reflexivity.
Qed.

Lemma empty_plan_reaches_summarizer_witness :
  let E := Examples.env [] Examples.failing_tool in
  let input := mkInput Examples.ask [mkMessage human (PyStr Examples.ask)] in
  tool_calls (snd (graph_invoke E input [])) = 0 /\
  summarizer_runs (snd (graph_invoke E input [])) = 1.
Proof.
  intros E input.
  apply (@empty_plan_reaches_summarizer E input (Examples.planned [])
           [EnterPlanner; CallLLM Examples.prompt_plan]);
    reflexivity.
Defined.

(** C8 (the claim as stated fails).  A response of three marked lines
    gives a plan of three steps, and the turn runs three tools. *)
Lemma three_lines_give_three_steps :
  parse_plan Examples.three_lines =
    Ok [mkStep (text "search_by_name") (text "a");
        mkStep (text "search_by_query") (text "b");
        mkStep (text "recommend_alternatives") (text "c")] /\
  tool_calls
    (snd (run (Examples.env Examples.three_lines Examples.silent_tool)
            Examples.ask [] [])) = 3.
Proof. vm_compute. split; reflexivity. Qed.

(** C8 (amended).  The parser sets no bound on the plan: the plan has
    exactly as many steps as the response has lines that hold both
    markers (the bound of two tools is only asked of the model in the
    prompt).  A turn runs at most as many tools as the plan has
    steps. *)
Theorem plan_length_is_marked_lines :
  (forall response : str,
      exists plan,
        parse_plan response = Ok plan /\
        length plan =
          length (filter qualifies (split_on newline response)) /\
        length plan <= length (split_on newline response)) /\
  (forall (E : Env) (input : TurnInput),
      tool_calls (snd (graph_invoke E input [])) <=
      match fst (_planner_node E input [EnterPlanner]) with
      | Some (Ok p) => length (plan p)
      | _ => 0
      end).
Proof.
  split.
  - intros response.
    destruct (parse_plan_spec response) as (plan & Hparse & Hsteps).
    exists plan. split; [exact Hparse|].
    apply Forall2_length_eq in Hsteps. rewrite <- Hsteps.
    split; [reflexivity | apply filter_length_le'].
  - intros E input.
    destruct (graph_invoke_spec E input) as (outP & evsP & HP & HqP & H).
    rewrite HP. simpl fst.
    destruct outP as [p|e].
    + destruct H as (_ & _ & outL & evsL & _ & _ & HtL & _ & _ & H).
      destruct outL as [st|e].
      * destruct H as (_ & _ & outS & evsS & _ & HqS & ->). simpl snd.
        change (EnterSummarizer st :: evsS)
          with ([EnterSummarizer st] ++ evsS).
        rewrite (tool_calls_after_planner _ HqP), !tool_calls_app.
        destruct HqS as (_ & -> & _).
        change (tool_calls [EnterSummarizer st]) with 0. lia.
      * rewrite H. simpl snd.
        rewrite <- (app_nil_r evsL), (tool_calls_after_planner _ HqP).
        rewrite app_nil_r. lia.
    + rewrite H. simpl snd.
      rewrite <- (app_nil_r evsP), (tool_calls_after_planner _ HqP).
      reflexivity.
Qed.

(** C9.  When the graph returns a state whose final answer is a text,
    or that has no final answer, [run] returns a text and appends this
    same text to memory, after the question, as the message of the
    assistant: the final answer of the state, or the text
    [Không có kết quả.] when the state has no final answer. *)
Theorem run_returns_what_it_remembers (invoke : TurnInput -> M State)
  (question : str) (memory : list Message) (log log' : list event)
  (st : State) (said : option str) :
  invoke (mkInput question (memory ++ [mkMessage human (PyStr question)]))
    log = (Some (Ok st), log') ->
  final_answer st = option_map PyStr said ->
  let answer :=
    PyStr match said with
          | Some s => s
          | None => text "Không có kết quả."
          end in
  run_with invoke question memory log =
    (Some (Ok answer),
     (memory ++ [mkMessage human (PyStr question)])
       ++ [mkMessage ai answer],
     log').
Proof.
  intros Hinvoke Hfinal answer. subst answer.
  rewrite (@run_with_ok invoke question memory log st log' said
             Hinvoke Hfinal).
  destruct said; reflexivity.
Qed.

Lemma run_returns_what_it_remembers_witness :
  run_with Examples.idle_graph Examples.ask [] [] =
    (Some (Ok (PyStr (text "Không có kết quả."))),
     [mkMessage human (PyStr Examples.ask);
      mkMessage ai (PyStr (text "Không có kết quả."))],
     []).
Proof.
  exact (@run_returns_what_it_remembers Examples.idle_graph
           Examples.ask [] [] [] _ None eq_refl eq_refl).
Defined.

(** C10.  For a keyword that resolves to a target, every candidate in
    the output comes from a neighbour whose id is not the target's: its
    name is the name of such a neighbour, and its score counts only
    such neighbours.  So when no other node bears the target's name
    among the neighbours, the target's name is not in the output. *)
Theorem target_is_not_recommended (searcher : Tools.Searcher)
  (keyword : str) (top_k : nat) (target : Tools.Entity)
  (rest : list Tools.Entity) (r : Tools.Rec) :
  Tools.find_medicine_regex searcher keyword = target :: rest ->
  In r (Tools.returned searcher keyword top_k) ->
  (exists m,
      In m (Tools.neighbours searcher (Tools.id target)) /\
      Tools.name m = Tools.rec_name r /\
      Tools.id m <> Tools.id target) /\
  Tools.score r =
    length
      (filter
         (fun m => str_eqb (Tools.name m) (Tools.rec_name r)
                   && negb (str_eqb (Tools.id m) (Tools.id target)))
         (Tools.neighbours searcher (Tools.id target))) /\
  ((forall m,
       In m (Tools.neighbours searcher (Tools.id target)) ->
       Tools.name m = Tools.name target ->
       Tools.id m = Tools.id target) ->
   Tools.rec_name r <> Tools.name target).
Proof.
  intros Hres Hin.
  destruct (@ToolsFacts.ranked_score searcher (Tools.id target) r
              (@returned_in_ranked searcher keyword top_k target rest
                 Hres r Hin)) as [Heq Hpos].
  unfold Tools.shared_nodes in Heq.
  assert (Hm : exists m,
             In m (Tools.neighbours searcher (Tools.id target)) /\
             Tools.name m = Tools.rec_name r /\
             Tools.id m <> Tools.id target).
  { destruct (filter (Tools.is_candidate (Tools.id target) (Tools.rec_name r))
                (Tools.neighbours searcher (Tools.id target)))
      as [|m l] eqn:Hf; [simpl in Heq; lia|].
    assert (Hmf : In m (filter
                          (Tools.is_candidate (Tools.id target)
                             (Tools.rec_name r))
                          (Tools.neighbours searcher (Tools.id target))))
      by (rewrite Hf; left; reflexivity).
    apply filter_In in Hmf as [Hmin Hc].
    unfold Tools.is_candidate in Hc.
    apply andb_true_iff in Hc as [Hname Hid].
    apply str_eqb_eq in Hname.
    apply negb_true_iff, str_eqb_neq in Hid.
    exists m. auto. }
  split; [exact Hm|]. split; [exact Heq|].
  intros Hunique Hname.
  destruct Hm as (m & Hmin & Hmname & Hmid).
  apply Hmid, Hunique; [exact Hmin | congruence].
Qed.

Lemma target_is_not_recommended_witness :
  Tools.rec_name
    (Tools.mkRec (Tools.name Examples.hapacol) 4
       (Tools.metadata_of Examples.hapacol))
  <> Tools.name Examples.panadol.
Proof.
  refine (proj2 (proj2 (@target_is_not_recommended Examples.store
            Examples.keyword 5 Examples.panadol []
            (Tools.mkRec (Tools.name Examples.hapacol) 4
               (Tools.metadata_of Examples.hapacol))
            eq_refl _)) _).
  - vm_compute. left. reflexivity.
  - intros m Hin Hname.
    vm_compute in Hin.
    repeat (destruct Hin as [<- | Hin]; [first [reflexivity | discriminate]|]).
    contradiction.
Defined.

(** * Further properties *)

(** ** Invariants of the loop *)

Section LoopInvariant.

Variable E : Env.
Variable P : State -> Prop.

Hypothesis P_finished : forall st, P st -> P (finished st).
Hypothesis P_stepped :
  forall st step res,
    P st -> enterable st ->
    nth_error (plan st) (current_index st) = Some step ->
    P (stepped st step res).

Lemma continue_enterable (st : State) :
  _should_continue st = true -> enterable st.
Proof.
  unfold _should_continue, enterable.
  destruct (get (force_end st) false); [discriminate | reflexivity].
Qed.

Lemma step_events_loop (n : str) (evs : list event) :
  evs = [] \/ (exists input, evs = [CallTool n input]) ->
  Forall (fun ev => is_loop_event ev = true) evs.
Proof. intros [-> | [input ->]]; repeat constructor. Qed.

(** A property that the steps of the Executor keep holds for every
    state of the loop and for the state it returns. *)
Lemma executor_loop_invariant (fuel : nat) :
  forall st : State,
    P st -> enterable st ->
    Forall P (states_of (snd (executor_loop E fuel st []))) /\
    Forall (fun ev => is_loop_event ev = true)
      (snd (executor_loop E fuel st [])) /\
    forall st',
      fst (executor_loop E fuel st []) = Some (Ok st') ->
      P st' /\ _should_continue st' = false.
Proof.
  induction fuel as [|fuel IH]; intros st Hst Henter.
  - cbn [executor_loop fst snd].
    split; [constructor|]. split; [constructor|].
    intros st' Heq. discriminate.
  - rewrite executor_loop_unfold. simpl app.
    destruct (executor_node_cases E st [EnterExecutor st])
      as [[Hle ->] | (step & out0 & evs0 & Hstep & _ & Hevs & ->)].
    + rewrite (stop_when_finished st Hle). cbn [fst snd].
      split; [repeat constructor; exact Hst|].
      split; [repeat constructor|].
      intros st' Heq. inversion Heq; subst st'.
      split; [apply P_finished; exact Hst |
              apply stop_when_finished; exact Hle].
    + pose proof (step_events Hevs) as (Hs0 & _ & _).
      pose proof (step_events_loop Hevs) as Hl0.
      destruct out0 as [res|e].
      * pose proof (P_stepped res Hst Henter Hstep) as Hst'.
        destruct (_should_continue (stepped st step res)) eqn:Hcont.
        -- rewrite (executor_loop_framed E fuel (stepped st step res)
                      ([EnterExecutor st] ++ evs0)).
           cbn [fst snd].
           destruct (IH _ Hst' (continue_enterable _ Hcont))
             as (Hall & Hev & Hfinal).
           split.
           { rewrite !states_of_app, Hs0. simpl.
             constructor; assumption. }
           split.
           { apply Forall_app. split; [|exact Hev].
             constructor; [reflexivity | exact Hl0]. }
           exact Hfinal.
        -- cbn [fst snd].
           split.
           { rewrite states_of_app, Hs0. repeat constructor. exact Hst. }
           split; [constructor; [reflexivity | exact Hl0]|].
           intros st' Heq. inversion Heq; subst st'. auto.
      * cbn [fst snd].
        split.
        { rewrite states_of_app, Hs0. repeat constructor. exact Hst. }
        split; [constructor; [reflexivity | exact Hl0]|].
        discriminate.
Qed.

End LoopInvariant.

(** ** The shape of a turn *)

Section TurnShape.

Variable E : Env.

Lemma planner_node_shape (input : TurnInput) (log : list event) :
  exists out evs,
    _planner_node E input log = (Some out, log ++ evs) /\
    one_llm_call_at_most evs /\
    match out with
    | Ok p => planned p /\ exists prompt, evs = [CallLLM prompt]
    | Raise _ => True
    end.
Proof.
  unfold _planner_node, call_llm, bind, lift, emit, ret.
  destruct (planner_template E _ _ _) as [prompt|e].
  - destruct (llm_invoke E prompt) as [response|e].
    + destruct (parse_plan response) as [steps|e].
      * eexists (Ok _), [CallLLM prompt].
        split; [reflexivity|]. split; [right; eauto|].
        split; [repeat split | eauto].
      * exists (Raise e), [CallLLM prompt].
        split; [reflexivity|]. split; [right; eauto | exact I].
    + exists (Raise e), [CallLLM prompt].
      split; [reflexivity|]. split; [right; eauto | exact I].
  - exists (Raise e), []. rewrite app_nil_r.
    split; [reflexivity|]. split; [left; reflexivity | exact I].
Qed.

Lemma summarizer_node_shape (st : State) (log : list event) :
  exists out evs,
    _summarizer_node E st log = (Some out, log ++ evs) /\
    one_llm_call_at_most evs /\
    match out with
    | Ok st' =>
        (exists prompt, evs = [CallLLM prompt]) /\
        results st' = results st /\ plan st' = plan st /\
        current_index st' = current_index st
    | Raise _ => True
    end.
Proof.
  unfold _summarizer_node, call_llm, bind, lift, emit, ret.
  destruct (summarizer_template E _ _ _) as [prompt|e].
  - destruct (llm_invoke E prompt) as [answer|e].
    + eexists (Ok _), [CallLLM prompt].
      split; [reflexivity|]. split; [right; eauto|].
      split; [eauto | repeat split].
    + exists (Raise e), [CallLLM prompt].
      split; [reflexivity|]. split; [right; eauto | exact I].
  - exists (Raise e), []. rewrite app_nil_r.
    split; [reflexivity|]. split; [left; reflexivity | exact I].
Qed.

(** The log of a turn: the planner's events, then those of the loop,
    then the entry of the Summarizer and its events. *)
Lemma graph_invoke_shape (input : TurnInput) :
  exists outP evsP,
    one_llm_call_at_most evsP /\
    match outP with
    | Raise e =>
        graph_invoke E input [] = (Some (Raise e), EnterPlanner :: evsP)
    | Ok p =>
        planned p /\ (exists prompt, evsP = [CallLLM prompt]) /\
        match fst (executor_loop E (S (length (plan p))) p []) with
        | Some (Ok st) =>
            exists outS evsS,
              one_llm_call_at_most evsS /\
              (forall st', outS = Ok st' ->
                           exists prompt, evsS = [CallLLM prompt]) /\
              graph_invoke E input [] =
              (Some outS,
               EnterPlanner :: evsP
                 ++ snd (executor_loop E (S (length (plan p))) p [])
                 ++ [EnterSummarizer st] ++ evsS)
        | Some (Raise e) =>
            graph_invoke E input [] =
            (Some (Raise e),
             EnterPlanner :: evsP
               ++ snd (executor_loop E (S (length (plan p))) p []))
        | None => False
        end
    end.
Proof.
  pose proof (graph_invoke_total E input) as Htotal.
  rewrite graph_invoke_path in Htotal |- *.
  destruct (planner_node_shape input [EnterPlanner])
    as (outP & evsP & HP & HshapeP & HoutP).
  exists outP, evsP. rewrite HP in Htotal |- *.
  split; [exact HshapeP|].
  destruct outP as [p|e]; [|reflexivity].
  destruct HoutP as (Hplanned & Hprompt).
  split; [exact Hplanned|]. split; [exact Hprompt|].
  rewrite (executor_loop_framed E _ p ([EnterPlanner] ++ evsP))
    in Htotal |- *.
  destruct (fst (executor_loop E (S (length (plan p))) p []))
    as [[st|e]|]; [| reflexivity | apply Htotal; reflexivity].
  destruct (summarizer_node_shape st
              ((([EnterPlanner] ++ evsP)
                  ++ snd (executor_loop E (S (length (plan p))) p []))
                 ++ [EnterSummarizer st]))
    as (outS & evsS & HS & HshapeS & HoutS).
  exists outS, evsS.
  split; [exact HshapeS|]. split.
  - intros st' ->. apply HoutS.
  - rewrite HS. rewrite <- !app_assoc. reflexivity.
Qed.

End TurnShape.

(** ** Every state of a turn *)

Section TurnInvariant.

Variable E : Env.
Variable P : State -> Prop.

Hypothesis P_planned : forall p, planned p -> P p.
Hypothesis P_finished : forall st, P st -> P (finished st).
Hypothesis P_stepped :
  forall st step res,
    P st -> enterable st ->
    nth_error (plan st) (current_index st) = Some step ->
    P (stepped st step res).

Lemma one_llm_call_no_state (evs : list event) :
  one_llm_call_at_most evs ->
  states_of evs = [] /\ summarizer_states evs = [] /\
  tool_calls evs = 0 /\ llm_calls evs <= 1.
Proof.
  intros [-> | [prompt ->]]; cbn; repeat split; lia.
Qed.

Lemma loop_events_no_summarizer (evs : list event) :
  Forall (fun ev => is_loop_event ev = true) evs ->
  summarizer_states evs = [] /\ llm_calls evs = 0.
Proof.
  induction 1 as [|ev evs Hev _ [IH1 IH2]]; [split; reflexivity|].
  destruct ev; try discriminate; cbn; auto.
Qed.

Lemma summarizer_states_app (l1 l2 : list event) :
  summarizer_states (l1 ++ l2)
  = summarizer_states l1 ++ summarizer_states l2.
Proof. apply flat_map_app. Qed.

Lemma llm_calls_app (l1 l2 : list event) :
  llm_calls (l1 ++ l2) = llm_calls l1 + llm_calls l2.
Proof. unfold llm_calls. rewrite filter_app, length_app. reflexivity. Qed.

Lemma planned_enterable (p : State) : planned p -> enterable p.
Proof. intros (_ & _ & H). unfold enterable. rewrite H. reflexivity. Qed.

(** A property that the planner sets up and the Executor keeps holds
    for every state of every turn, and the state with which the
    Summarizer is entered is one on which the loop stops. *)
Lemma turn_invariant (input : TurnInput) :
  Forall P (states_of (snd (graph_invoke E input []))) /\
  Forall (fun st => P st /\ _should_continue st = false)
    (summarizer_states (snd (graph_invoke E input []))).
Proof.
  destruct (graph_invoke_shape E input) as (outP & evsP & HshapeP & H).
  destruct (one_llm_call_no_state HshapeP) as (HsP & HzP & _ & _).
  destruct outP as [p|e].
  - destruct H as (Hplanned & _ & H).
    destruct (@executor_loop_invariant E P P_finished P_stepped
                (S (length (plan p))) p (P_planned Hplanned)
                (planned_enterable Hplanned))
      as (Hall & Hev & Hfinal).
    destruct (loop_events_no_summarizer Hev) as (HzL & _).
    destruct (fst (executor_loop E (S (length (plan p))) p []))
      as [[st|e]|]; [| |contradiction].
    + destruct H as (outS & evsS & HshapeS & _ & ->). cbn [snd].
      destruct (one_llm_call_no_state HshapeS) as (HsS & HzS & _ & _).
      destruct (Hfinal st eq_refl) as (Hst & Hstop).
      change (EnterPlanner :: evsP ++ ?l) with ([EnterPlanner] ++ evsP ++ l).
      rewrite !states_of_app, !summarizer_states_app.
      rewrite HsP, HsS, HzP, HzL, HzS. cbn. rewrite ?app_nil_r.
      split.
      * apply Forall_app. split; [exact Hall | repeat constructor; exact Hst].
      * repeat constructor; assumption.
    + rewrite H. cbn [snd].
      change (EnterPlanner :: evsP ++ ?l) with ([EnterPlanner] ++ evsP ++ l).
      rewrite !states_of_app, !summarizer_states_app.
      rewrite HsP, HzP, HzL. cbn. split; [exact Hall | constructor].
  - rewrite H. cbn [snd].
    change (EnterPlanner :: evsP) with ([EnterPlanner] ++ evsP).
    rewrite !states_of_app, !summarizer_states_app, HsP, HzP. cbn.
    split; constructor.
Qed.

End TurnInvariant.

(** ** The forced stop and the order of the results *)

Section WellRun.

Lemma all_empty_filter (results : list ToolResult) :
  all_empty results = true <->
  filter (fun r => truthy (result r)) results = [].
Proof.
  unfold all_empty. induction results as [|r rs IH]; simpl; [tauto|].
  destruct (truthy (result r)); simpl; [|exact IH].
  split; discriminate.
Qed.

Lemma all_empty_app (l1 l2 : list ToolResult) :
  all_empty (l1 ++ l2) = all_empty l1 && all_empty l2.
Proof. unfold all_empty. apply forallb_app. Qed.

Lemma forced_stop_spec (index : nat) (results : list ToolResult) :
  forced_stop index results
  = (max_attempts <=? index + 1) && all_empty results.
Proof.
  unfold forced_stop. f_equal.
  destruct (all_empty results) eqn:He.
  - apply all_empty_filter in He. rewrite He. reflexivity.
  - destruct (filter (fun r => truthy (result r)) results) eqn:Hf;
      [|reflexivity].
    apply all_empty_filter in Hf. congruence.
Qed.

Lemma firstn_snoc {A} (l : list A) (i : nat) (x : A) :
  nth_error l i = Some x -> firstn (S i) l = firstn i l ++ [x].
Proof.
  revert i; induction l as [|y l IH]; intros [|i] H; try discriminate.
  - inversion H; reflexivity.
  - simpl in H.
    change (y :: firstn (S i) l = y :: firstn i l ++ [x]).
    f_equal. apply IH. exact H.
Qed.

Lemma well_run_planned (p : State) : planned p -> well_run p.
Proof.
  intros (Hres & Hidx & Hforce).
  unfold well_run, consistent, forced_rightly, mirrors_plan.
  rewrite Hres, Hidx, Hforce. unfold max_attempts. simpl.
  repeat split; try lia; try discriminate.
Qed.

Lemma well_run_finished (st : State) : well_run st -> well_run (finished st).
Proof. intros H. exact H. Qed.

Lemma well_run_stepped (st : State) (step : PlanStep) (res : pyval) :
  well_run st -> enterable st ->
  nth_error (plan st) (current_index st) = Some step ->
  well_run (stepped st step res).
Proof.
  intros (Hcons & (Hforced & Huseful) & Hmirror) Henter Hstep.
  assert (Hlt : current_index st < length (plan st))
    by (apply nth_error_Some; congruence).
  assert (Hnot : force_end st <> Some true).
  { intros Heq. unfold enterable in Henter. rewrite Heq in Henter.
    discriminate. }
  split; [apply consistent_stepped; assumption|].
  split.
  - unfold forced_rightly, stepped. cbn [force_end current_index results].
    rewrite forced_stop_spec, all_empty_app.
    generalize (all_empty [mkResult (tool step) (query step) res]).
    intros b. unfold max_attempts in *.
    destruct (3 <=? current_index st + 1) eqn:Hthird;
      [apply Nat.leb_le in Hthird | apply Nat.leb_gt in Hthird];
      destruct (all_empty (results st)) eqn:Hold;
      destruct b; cbn [andb];
      (split; [intros Heq; try discriminate | intros Hpast Hne;
                                              try reflexivity;
                                              try congruence; try lia]).
    split; [|reflexivity].
    destruct (Nat.le_gt_cases 3 (current_index st)) as [Hp | Hb]; [|lia].
    specialize (Huseful Hp Hnot). discriminate.
  - unfold mirrors_plan, stepped. cbn [results current_index plan].
    rewrite map_app, Hmirror, Nat.add_1_r.
    symmetry. apply firstn_snoc.
    rewrite nth_error_map, Hstep. reflexivity.
Qed.

(** Every state of every turn is well run. *)
Lemma turn_well_run (E : Env) (input : TurnInput) :
  Forall well_run (states_of (snd (graph_invoke E input []))) /\
  Forall (fun st => well_run st /\ _should_continue st = false)
    (summarizer_states (snd (graph_invoke E input []))).
Proof.
  apply turn_invariant.
  - apply well_run_planned.
  - apply well_run_finished.
  - apply well_run_stepped.
Qed.

End WellRun.

(** ** More on strings *)

Section MoreStrings.

Lemma split_on_no_sep (sep : N) (s : str) :
  ~ In sep s -> split_on sep s = [s].
Proof.
  induction s as [|c s IH]; intros Hs; [reflexivity|].
  simpl. destruct (c =? sep)%N eqn:Hc.
  - apply N.eqb_eq in Hc. exfalso. apply Hs. left. exact Hc.
  - rewrite IH; [reflexivity|]. intros Hin. apply Hs. right. exact Hin.
Qed.

Lemma split_on_app (sep : N) (a b : str) :
  ~ In sep a -> split_on sep (a ++ sep :: b) = a :: split_on sep b.
Proof.
  induction a as [|c a IH]; intros Ha; simpl.
  - rewrite N.eqb_refl. reflexivity.
  - destruct (c =? sep)%N eqn:Hc.
    + apply N.eqb_eq in Hc. exfalso. apply Ha. left. exact Hc.
    + rewrite IH; [reflexivity|]. intros Hin. apply Ha. right. exact Hin.
Qed.

(** [sep.join(s.split(sep)) == s] *)
Lemma join_split_on (sep : N) (s : str) :
  join [sep] (split_on sep s) = s.
Proof.
  induction s as [|c s IH]; [reflexivity|].
  simpl. destruct (c =? sep)%N eqn:Hc.
  - apply N.eqb_eq in Hc. subst c.
    destruct (split_on sep s) as [|h t] eqn:Hs;
      [exfalso; exact (split_on_not_nil _ _ Hs)|].
    change (join [sep] ([] :: h :: t)) with ([] ++ [sep] ++ join [sep] (h :: t)).
    rewrite IH. reflexivity.
  - destruct (split_on sep s) as [|h t] eqn:Hs;
      [exfalso; exact (split_on_not_nil _ _ Hs)|].
    rewrite <- IH. destruct t; reflexivity.
Qed.

(** [sep.join(l).split(sep) == l] for parts without the separator. *)
Lemma split_on_join (sep : N) (l : list str) :
  l <> [] -> Forall (fun s => ~ In sep s) l ->
  split_on sep (join [sep] l) = l.
Proof.
  induction l as [|s l IH]; intros Hne Hall; [contradiction|].
  inversion Hall as [|? ? Hs Hl]; subst.
  destruct l as [|s' l'].
  - simpl. apply split_on_no_sep. exact Hs.
  - change (join [sep] (s :: s' :: l')) with (s ++ sep :: join [sep] (s' :: l')).
    rewrite split_on_app by exact Hs.
    rewrite IH; [reflexivity | discriminate | exact Hl].
Qed.

Lemma existsb_eqb_In (c : N) (s : str) :
  existsb (N.eqb c) s = false -> ~ In c s.
Proof.
  intros H Hin.
  assert (existsb (N.eqb c) s = true).
  { apply existsb_exists. exists c. split; [exact Hin | apply N.eqb_refl]. }
  congruence.
Qed.

Lemma starts_with_app (m a b : str) :
  starts_with m a = true -> starts_with m (a ++ b) = true.
Proof.
  revert a; induction m as [|x m IH]; intros [|y a] H; try reflexivity;
    try discriminate.
  simpl in *. apply andb_true_iff in H as [-> H]. simpl. auto.
Qed.

Lemma contains_app_l (m a b : str) :
  contains m b = true -> contains m (a ++ b) = true.
Proof.
  intros H. induction a as [|c a IH]; [exact H|].
  simpl. rewrite IH. apply orb_true_r.
Qed.

Lemma starts_with_self (m b : str) : starts_with m (m ++ b) = true.
Proof. induction m as [|x m IH]; simpl; [reflexivity|].
       rewrite N.eqb_refl. exact IH. Qed.

Lemma contains_middle (m a b : str) : contains m (a ++ m ++ b) = true.
Proof.
  apply contains_app_l, starts_with_contains, starts_with_self.
Qed.

(** A character that the pattern does not hold, put at the end, makes
    no new occurrence. *)
Lemma starts_with_snoc (m s : str) (c : N) :
  ~ In c m -> starts_with m (s ++ [c]) = starts_with m s.
Proof.
  revert s; induction m as [|x m IH]; intros s Hc; [reflexivity|].
  assert (Hx : (x =? c)%N = false).
  { apply N.eqb_neq. intros ->. apply Hc. left. reflexivity. }
  assert (Hm : ~ In c m) by (intros H; apply Hc; right; exact H).
  destruct s as [|y s]; simpl.
  - rewrite Hx. reflexivity.
  - rewrite IH by exact Hm. reflexivity.
Qed.

Lemma contains_snoc (m s : str) (c : N) :
  m <> [] -> ~ In c m -> contains m (s ++ [c]) = contains m s.
Proof.
  intros Hne Hc. induction s as [|y s IH].
  - destruct m as [|x m]; [contradiction|].
    simpl. destruct (x =? c)%N eqn:Hx; [|reflexivity].
    apply N.eqb_eq in Hx. exfalso. apply Hc. left. exact Hx.
  - change ((y :: s) ++ [c]) with (y :: (s ++ [c])).
    cbn [contains]. rewrite IH.
    change (y :: s ++ [c]) with ((y :: s) ++ [c]).
    rewrite starts_with_snoc by exact Hc. reflexivity.
Qed.

(** Without an occurrence, [replace] changes nothing. *)
Lemma replace_from_absent (old new s : str) :
  contains old s = false -> replace_from old new 0 s = s.
Proof.
  induction s as [|c s IH]; intros H; [reflexivity|].
  simpl in H. apply orb_false_iff in H as [Hpre Hrest].
  cbn [replace_from]. rewrite Hpre. rewrite IH by exact Hrest. reflexivity.
Qed.

(** Dropping the rest of an occurrence. *)
Lemma replace_from_skip (old new a s : str) :
  replace_from old new (length a) (a ++ s) = replace_from old new 0 s.
Proof.
  induction a as [|c a IH]; [reflexivity|]. simpl. exact IH.
Qed.

(** An occurrence at the start is removed, and the scan goes on after
    it. *)
Lemma replace_from_prefix (old s : str) :
  old <> [] ->
  replace_from old [] 0 (old ++ s) = replace_from old [] 0 s.
Proof.
  intros Hne. destruct old as [|c old]; [contradiction|].
  change ((c :: old) ++ s) with (c :: (old ++ s)).
  cbn [replace_from].
  change (c :: old ++ s) with ((c :: old) ++ s).
  rewrite starts_with_self.
  change (length (c :: old) - 1) with (length old - 0).
  rewrite Nat.sub_0_r. cbn [app].
  apply replace_from_skip.
Qed.

(** *** [strip] *)

Lemma lstrip_snoc_space (s : str) (c : N) :
  isspace c = true ->
  lstrip (s ++ [c]) = match lstrip s with [] => [] | l => l ++ [c] end.
Proof.
  intros Hc. induction s as [|x s IH]; simpl.
  - rewrite Hc. reflexivity.
  - destruct (isspace x); [exact IH | reflexivity].
Qed.

Lemma strip_cons_space (s : str) (c : N) :
  isspace c = true -> strip (c :: s) = strip s.
Proof.
  intros Hc. unfold strip, rstrip. simpl rev.
  rewrite lstrip_snoc_space by exact Hc.
  destruct (lstrip (rev s)) as [|x l]; [reflexivity|].
  rewrite rev_app_distr. simpl. rewrite Hc. reflexivity.
Qed.

Lemma strip_snoc_space (s : str) (c : N) :
  isspace c = true -> strip (s ++ [c]) = strip s.
Proof.
  intros Hc. unfold strip, rstrip. rewrite rev_app_distr. simpl.
  rewrite Hc. reflexivity.
Qed.

Lemma lstrip_no_leading (s : str) : no_leading_space (lstrip s) = true.
Proof.
  induction s as [|c s IH]; [reflexivity|]. simpl.
  destruct (isspace c) eqn:Hc; [exact IH|]. simpl. rewrite Hc. reflexivity.
Qed.

Lemma lstrip_suffix (s : str) : exists pre, s = pre ++ lstrip s.
Proof.
  induction s as [|c s [pre IH]]; [exists []; reflexivity|]. simpl.
  destruct (isspace c).
  - exists (c :: pre). simpl. f_equal. exact IH.
  - exists []. reflexivity.
Qed.

(** A suffix that is not empty ends as the whole does. *)
Lemma no_trailing_suffix (pre s : str) :
  no_leading_space (rev (pre ++ s)) = true ->
  no_leading_space (rev s) = true.
Proof.
  rewrite rev_app_distr.
  destruct (rev s) as [|c l]; [reflexivity|]. simpl. auto.
Qed.

(** What [strip] returns has no white space at either end. *)
Lemma strip_trimmed (s : str) : trimmed (strip s) = true.
Proof.
  unfold trimmed, strip. rewrite lstrip_no_leading. simpl.
  destruct (lstrip_suffix (rstrip s)) as [pre Hpre].
  apply (no_trailing_suffix pre). rewrite <- Hpre.
  unfold rstrip. rewrite rev_involutive. apply lstrip_no_leading.
Qed.

Lemma lstrip_fixed (s : str) : no_leading_space s = true -> lstrip s = s.
Proof.
  destruct s as [|c s]; [reflexivity|]. simpl.
  destruct (isspace c); [discriminate | reflexivity].
Qed.

(** [strip] leaves a trimmed text as it is. *)
Lemma strip_fixed (s : str) : trimmed s = true -> strip s = s.
Proof.
  unfold trimmed. intros H. apply andb_true_iff in H as [Hl Hr].
  unfold strip, rstrip. rewrite (lstrip_fixed _ Hr), rev_involutive.
  apply lstrip_fixed. exact Hl.
Qed.

End MoreStrings.

(** ** A plan written as the prompt asks *)

Section FormattedPlan.

(** A character that the pattern does not start with starts no
    occurrence. *)
Lemma contains_skip (x : N) (m : str) (c : N) (s : str) :
  (x =? c)%N = false ->
  contains (x :: m) (c :: s) = contains (x :: m) s.
Proof. intros H. cbn [contains starts_with]. rewrite H. reflexivity. Qed.

Lemma format_step_parts (t q : str) :
  format_step t q
  = (marker_tool ++ space :: t ++ [space])
      ++ pipe :: (space :: marker_query ++ space :: q).
Proof.
  unfold format_step. cbn. rewrite <- app_assoc. reflexivity.
Qed.

Variables t q : str.
Hypothesis plain_t : plain t = true.
Hypothesis plain_q : plain q = true.

Lemma plain_facts (s : str) :
  plain s = true ->
  ~ In pipe s /\ ~ In newline s /\
  contains marker_tool s = false /\ contains marker_query s = false.
Proof.
  unfold plain. intros H.
  apply andb_true_iff in H as [H Hq].
  apply andb_true_iff in H as [H Ht].
  apply andb_true_iff in H as [Hp Hn].
  apply negb_true_iff in Hp, Hn, Ht, Hq.
  repeat split; auto using existsb_eqb_In.
Qed.

Lemma not_in_snoc (c x : N) (s : str) :
  ~ In c s -> x <> c -> ~ In c (s ++ [x]).
Proof.
  intros Hs Hx Hin. apply in_app_or in Hin as [Hin | [Hin | []]]; auto.
Qed.

Let tool_part : str := marker_tool ++ space :: t ++ [space].
Let query_part : str := space :: marker_query ++ space :: q.

Lemma tool_part_no_pipe : ~ In pipe tool_part.
Proof.
  destruct (plain_facts t plain_t) as (Hp & _).
  unfold tool_part. cbn. intros H.
  repeat (destruct H as [H | H]; [discriminate|]).
  revert H. apply not_in_snoc; [exact Hp | discriminate].
Qed.

Lemma query_part_no_pipe : ~ In pipe query_part.
Proof.
  destruct (plain_facts q plain_q) as (Hp & _).
  unfold query_part. cbn. intros H.
  repeat (destruct H as [H | H]; [discriminate|]).
  contradiction.
Qed.

Lemma format_step_split :
  split_on pipe (format_step t q) = [tool_part; query_part].
Proof.
  rewrite format_step_parts. fold tool_part query_part.
  rewrite split_on_app by exact tool_part_no_pipe.
  rewrite split_on_no_sep by exact query_part_no_pipe. reflexivity.
Qed.

Lemma space_not_in_marker_tool : ~ In space marker_tool.
Proof. vm_compute. intuition discriminate. Qed.

Lemma space_not_in_marker_query : ~ In space marker_query.
Proof. vm_compute. intuition discriminate. Qed.

Lemma padded_tool_no_marker (m : str) :
  m = marker_tool \/ m = marker_query ->
  contains m (space :: t ++ [space]) = false.
Proof.
  destruct (plain_facts t plain_t) as (_ & _ & Ht & Hq).
  intros [-> | ->].
  - unfold marker_tool at 1. rewrite contains_skip by reflexivity.
    fold marker_tool.
    rewrite contains_snoc;
      [exact Ht | discriminate | exact space_not_in_marker_tool].
  - unfold marker_query at 1. rewrite contains_skip by reflexivity.
    fold marker_query.
    rewrite contains_snoc;
      [exact Hq | discriminate | exact space_not_in_marker_query].
Qed.

Lemma tool_part_has_no_query : contains marker_query tool_part = false.
Proof.
  unfold tool_part.
  change (marker_tool ++ space :: t ++ [space])
    with (84 :: 111 :: 111 :: 108 :: 58 :: space :: t ++ [space])%N.
  unfold marker_query at 1.
  do 5 (rewrite contains_skip by reflexivity).
  fold marker_query.
  apply padded_tool_no_marker. right. reflexivity.
Qed.

Lemma tool_part_has_tool : contains marker_tool tool_part = true.
Proof. apply starts_with_contains, starts_with_self. Qed.

Lemma query_part_has_query : contains marker_query query_part = true.
Proof. apply (contains_middle marker_query [space] (space :: q)). Qed.

Lemma tool_part_name :
  strip (replace marker_tool [] tool_part) = strip t.
Proof.
  unfold tool_part.
  change (replace marker_tool [] (marker_tool ++ space :: t ++ [space]))
    with (replace_from marker_tool [] 0
            (marker_tool ++ space :: t ++ [space])).
  rewrite replace_from_prefix by discriminate.
  rewrite replace_from_absent
    by (apply padded_tool_no_marker; left; reflexivity).
  rewrite strip_cons_space by reflexivity.
  apply strip_snoc_space. reflexivity.
Qed.

Lemma query_part_query :
  strip (replace marker_query [] query_part) = strip q.
Proof.
  destruct (plain_facts q plain_q) as (_ & _ & _ & Hq).
  unfold query_part.
  change (replace marker_query [] (space :: marker_query ++ space :: q))
    with (replace_from marker_query [] 0
            (space :: marker_query ++ space :: q)).
  cbn [replace_from].
  change (starts_with marker_query (space :: marker_query ++ space :: q))
    with false. cbv iota.
  rewrite replace_from_prefix by discriminate.
  rewrite replace_from_absent.
  - rewrite !strip_cons_space by reflexivity. reflexivity.
  - unfold marker_query at 1. rewrite contains_skip by reflexivity.
    exact Hq.
Qed.

(** The line is read as the step that it spells. *)
Lemma parse_formatted_line (plan : list PlanStep) :
  parse_line plan (format_step t q)
  = Ok (plan ++ [mkStep (strip t) (strip q)]).
Proof.
  unfold parse_line.
  assert (Hqual : contains marker_tool (format_step t q)
                  && contains marker_query (format_step t q) = true).
  { rewrite format_step_parts. fold tool_part query_part.
    apply andb_true_iff. split.
    - apply starts_with_contains. unfold tool_part.
      rewrite <- app_assoc. apply starts_with_self.
    - apply contains_app_l. apply contains_cons.
      exact query_part_has_query. }
  rewrite Hqual, format_step_split.
  unfold first_with. cbn [filter].
  rewrite tool_part_has_tool, tool_part_has_no_query, query_part_has_query.
  rewrite tool_part_name, query_part_query. reflexivity.
Qed.

Lemma format_step_one_line : ~ In newline (format_step t q).
Proof.
  destruct (plain_facts t plain_t) as (_ & Ht & _).
  destruct (plain_facts q plain_q) as (_ & Hq & _).
  rewrite format_step_parts. cbn. intros H.
  repeat (destruct H as [H | H]; [discriminate|]).
  apply in_app_or in H as [H | H].
  - revert H. apply not_in_snoc; [exact Ht | discriminate].
  - repeat (destruct H as [H | H]; [discriminate|]).
    contradiction.
Qed.

End FormattedPlan.

Lemma parse_formatted_lines (steps : list (str * str)) :
  forallb (fun tq => plain (fst tq) && plain (snd tq)) steps = true ->
  forall plan,
    parse_lines plan (map (fun tq => format_step (fst tq) (snd tq)) steps)
    = Ok (plan ++ map (fun tq => mkStep (strip (fst tq)) (strip (snd tq)))
                    steps).
Proof.
  induction steps as [|[t q] steps IH]; intros Hplain plan; simpl.
  - rewrite app_nil_r. reflexivity.
  - simpl in Hplain. apply andb_true_iff in Hplain as [Htq Hrest].
    apply andb_true_iff in Htq as [Ht Hq].
    rewrite (parse_formatted_line t q Ht Hq plan).
    rewrite (IH Hrest). rewrite <- app_assoc. reflexivity.
Qed.

(** ** The tools *)

Module RetrievalFacts.

Import Tools Retrieval.

Section Query.

Lemma split_on_head (sep : N) (s h : str) (rest : list str) :
  split_on sep s = h :: rest ->
  ~ In sep h /\ (s = h \/ exists tl, s = h ++ sep :: tl).
Proof.
  revert h rest; induction s as [|c s IH]; intros h rest Hsplit.
  - inversion Hsplit; subst. split; [intros [] | left; reflexivity].
  - simpl in Hsplit. destruct (c =? sep)%N eqn:Hc.
    + apply N.eqb_eq in Hc. inversion Hsplit; subst.
      split; [intros [] | right; exists s; reflexivity].
    + apply N.eqb_neq in Hc.
      destruct (split_on sep s) as [|h' t'] eqn:Hs;
        [exfalso; exact (split_on_not_nil _ _ Hs)|].
      inversion Hsplit; subst.
      destruct (IH _ _ eq_refl) as (Hnot & Hshape).
      split.
      * intros [Heq | Hin]; [congruence | contradiction].
      * destruct Hshape as [-> | (tl & ->)];
          [left; reflexivity | right; exists tl; reflexivity].
Qed.

Lemma passages_fold (hits : list (option str)) (acc : str) :
  fold_left (fun result r => result ++ get r [] ++ [newline]) hits acc
  = acc ++ passages hits.
Proof.
  unfold passages. revert acc; induction hits as [|r hits IH]; intros acc.
  - simpl. rewrite app_nil_r. reflexivity.
  - simpl. rewrite IH, <- !app_assoc. reflexivity.
Qed.

Lemma passages_empty (hits : list (option str)) :
  passages hits = [] <-> hits = [].
Proof.
  split; [|intros ->; reflexivity].
  destruct hits as [|r hits]; [reflexivity|].
  unfold passages. simpl. intros H.
  apply app_eq_nil in H as [H _]. apply app_eq_nil in H as [_ H].
  discriminate.
Qed.

Lemma truthy_nonempty (s : str) : truthy (PyStr s) = true <-> s <> [].
Proof. destruct s; simpl; split; congruence. Qed.

End Query.

Section Lines.

Variable searcher : Searcher.

Lemma name_line_nonempty (r : Entity) (line : str) :
  name_line searcher r = Ok line -> line <> [] /\ metadata r <> None.
Proof.
  unfold name_line. destruct (metadata r) as [md|]; [|discriminate].
  destruct (loads searcher md) as [[| | | | |members]|e]; try discriminate.
  intros H. inversion H. split; [|discriminate].
  intros Hnil. apply app_eq_nil in Hnil as [_ Hnil].
  apply app_eq_nil in Hnil as [_ Hnil]. discriminate.
Qed.

Lemma name_lines_spec (rs : list Entity) :
  forall acc result,
    name_lines searcher acc rs = Ok result ->
    Forall (fun r => metadata r <> None) rs /\
    exists tail, result = acc ++ tail /\ (tail = [] <-> rs = []).
Proof.
  induction rs as [|r rs IH]; intros acc result H; simpl in H.
  - inversion H; subst. split; [constructor|].
    exists []. rewrite app_nil_r. tauto.
  - destruct (name_line searcher r) as [line|e] eqn:Hline; [|discriminate].
    destruct (name_line_nonempty r Hline) as [Hne Hmd].
    destruct (IH _ _ H) as (Hall & tail & -> & _).
    split; [constructor; assumption|].
    exists (line ++ tail). rewrite <- app_assoc.
    split; [reflexivity|]. split; [|discriminate].
    intros Hnil. apply app_eq_nil in Hnil as [Hnil _]. contradiction.
Qed.

Lemma name_lines_raises (rs : list Entity) (r : Entity) :
  In r rs -> metadata r = None ->
  forall acc, exists e, name_lines searcher acc rs = Raise e.
Proof.
  induction rs as [|r0 rs IH]; intros Hin Hmd acc; [contradiction|].
  simpl. destruct (name_line searcher r0) as [line|e] eqn:Hline;
    [|eauto].
  destruct Hin as [-> | Hin]; [|apply IH; assumption].
  unfold name_line in Hline. rewrite Hmd in Hline. discriminate.
Qed.

Lemma indication_line_nonempty (d : Hit) (line : str) :
  indication_line searcher d = Ok line ->
  line <> [] /\ metadata (medicine d) <> None.
Proof.
  unfold indication_line.
  destruct (metadata (medicine d)) as [md|]; [|discriminate].
  destruct (loads searcher md) as [[| | | | |members]|e]; try discriminate.
  intros H. inversion H. split; discriminate.
Qed.

Lemma indication_lines_spec (data : list Hit) :
  forall acc result,
    indication_lines searcher acc data = Ok result ->
    Forall (fun d => metadata (medicine d) <> None) data /\
    exists tail, result = acc ++ tail /\ (tail = [] <-> data = []).
Proof.
  induction data as [|d data IH]; intros acc result H; simpl in H.
  - inversion H; subst. split; [constructor|].
    exists []. rewrite app_nil_r. tauto.
  - destruct (indication_line searcher d) as [line|e] eqn:Hline;
      [|discriminate].
    destruct (indication_line_nonempty d Hline) as [Hne Hmd].
    destruct (IH _ _ H) as (Hall & tail & -> & _).
    split; [constructor; assumption|].
    exists (line ++ tail). rewrite <- app_assoc.
    split; [reflexivity|]. split; [|discriminate].
    intros Hnil. apply app_eq_nil in Hnil as [Hnil _]. contradiction.
Qed.

Lemma indication_lines_raises (data : list Hit) (d : Hit) :
  In d data -> metadata (medicine d) = None ->
  forall acc, exists e, indication_lines searcher acc data = Raise e.
Proof.
  induction data as [|d0 data IH]; intros Hin Hmd acc; [contradiction|].
  simpl. destruct (indication_line searcher d0) as [line|e] eqn:Hline;
    [|eauto].
  destruct Hin as [-> | Hin]; [|apply IH; assumption].
  unfold indication_line in Hline. rewrite Hmd in Hline. discriminate.
Qed.

Lemma format_rec_nonempty (rec : Rec) (line : str) :
  format_rec searcher rec = Ok line -> line <> [].
Proof.
  unfold format_rec.
  destruct (loads searcher (rec_metadata rec)) as [[| | | | |members]|e];
    try discriminate.
  intros H. inversion H. discriminate.
Qed.

Lemma format_recs_spec (recs : list Rec) :
  forall acc result,
    format_recs searcher acc recs = Ok result ->
    exists tail, result = acc ++ tail /\ (tail = [] <-> recs = []).
Proof.
  induction recs as [|rec recs IH]; intros acc result H; simpl in H.
  - inversion H; subst. exists []. rewrite app_nil_r. tauto.
  - destruct (format_rec searcher rec) as [line|e] eqn:Hline;
      [|discriminate].
    pose proof (format_rec_nonempty rec Hline) as Hne.
    destruct (IH _ _ H) as (tail & -> & _).
    exists (line ++ tail). rewrite <- app_assoc.
    split; [reflexivity|]. split; [|discriminate].
    intros Hnil. apply app_eq_nil in Hnil as [Hnil _]. contradiction.
Qed.

End Lines.

End RetrievalFacts.

(** ** The ranking of [recommend_alternatives] *)

Module RankingFacts.

Import Tools Retrieval.

Section Dict.

Lemma str_eqb_sym (a b : str) : str_eqb a b = str_eqb b a.
Proof.
  destruct (str_eqb a b) eqn:Hab.
  - apply str_eqb_eq in Hab. subst. symmetry. apply str_eqb_refl.
  - destruct (str_eqb b a) eqn:Hba; [|reflexivity].
    apply str_eqb_eq in Hba. subst. rewrite str_eqb_refl in Hab.
    discriminate.
Qed.

Lemma bump_first_seen (n md : str) (scores : Scores) :
  map fst (bump n md scores)
  = if existsb (str_eqb n) (map fst scores) then map fst scores
    else map fst scores ++ [n].
Proof.
  induction scores as [|[k [c old]] rest IH]; [reflexivity|].
  simpl. rewrite (str_eqb_sym n k).
  destruct (str_eqb k n); simpl; [reflexivity|].
  rewrite IH. destruct (existsb (str_eqb n) (map fst rest)); reflexivity.
Qed.

Lemma bump_total (n md : str) (scores : Scores) :
  total_count (bump n md scores) = total_count scores + 1.
Proof.
  induction scores as [|[k [c old]] rest IH]; [reflexivity|].
  cbn [bump]. destruct (str_eqb k n).
  - unfold total_count. simpl. lia.
  - change (total_count ((k, (c, old)) :: bump n md rest))
      with (c + total_count (bump n md rest)).
    change (total_count ((k, (c, old)) :: rest)) with (c + total_count rest).
    rewrite IH. lia.
Qed.

Lemma bump_metadata (n md : str) (scores : Scores) (n' : str) :
  metadata_in (bump n md scores) n'
  = if str_eqb n n' then Some md else metadata_in scores n'.
Proof.
  induction scores as [|[k [c old]] rest IH]; simpl.
  - reflexivity.
  - destruct (str_eqb k n) eqn:Hkn; simpl.
    + apply str_eqb_eq in Hkn. subst k.
      destruct (str_eqb n n'); reflexivity.
    + destruct (str_eqb k n') eqn:Hkn'; [|exact IH].
      apply str_eqb_eq in Hkn'. subst k.
      destruct (str_eqb n n') eqn:Hnn'; [|reflexivity].
      apply str_eqb_eq in Hnn'. subst n'.
      rewrite str_eqb_refl in Hkn. discriminate.
Qed.

Lemma metadata_in_entry (scores : Scores) (k : str) (c : nat) (md : str) :
  NoDup (map fst scores) -> In (k, (c, md)) scores ->
  metadata_in scores k = Some md.
Proof.
  induction scores as [|[k0 [c0 md0]] rest IH]; simpl; intros Hnd Hin;
    [contradiction|].
  inversion Hnd as [|? ? Hnotin Hrest]; subst.
  destruct Hin as [Heq | Hin].
  - inversion Heq; subst. rewrite str_eqb_refl. reflexivity.
  - destruct (str_eqb k0 k) eqn:Hk; [|apply IH; assumption].
    apply str_eqb_eq in Hk; subst k0.
    exfalso. apply Hnotin.
    change k with (fst (k, (c, md))). apply in_map. exact Hin.
Qed.

Variable medicine_id : str.

Let other (m : Entity) : bool := negb (str_eqb (id m) medicine_id).

(** What a loop over [alts] does to the dict: to its keys, to the sum
    of its counts and to the metadata that it keeps. *)
Lemma score_pass_dict (alts : list Entity) :
  forall scores : Scores,
    map fst (score_pass medicine_id scores alts)
    = fold_left
        (fun seen n => if existsb (str_eqb n) seen then seen else seen ++ [n])
        (map name (filter other alts)) (map fst scores) /\
    total_count (score_pass medicine_id scores alts)
    = total_count scores + length (filter other alts) /\
    forall n,
      metadata_in (score_pass medicine_id scores alts) n
      = fold_left
          (fun found m =>
             if str_eqb (name m) n then Some (metadata_of m) else found)
          (filter other alts) (metadata_in scores n).
Proof.
  unfold score_pass.
  induction alts as [|m alts IH]; intros scores; simpl.
  - repeat split; lia.
  - fold (other m). destruct (other m); simpl.
    + destruct (IH (bump (name m) (metadata_of m) scores))
        as (Hkeys & Htotal & Hmd).
      rewrite Hkeys, Htotal, bump_first_seen, bump_total.
      repeat split; try lia.
      intros n. rewrite Hmd, bump_metadata. reflexivity.
    + apply IH.
Qed.

Lemma score_pass_app (scores : Scores) (a b : list Entity) :
  score_pass medicine_id (score_pass medicine_id scores a) b
  = score_pass medicine_id scores (a ++ b).
Proof. unfold score_pass. rewrite fold_left_app. reflexivity. Qed.

End Dict.

Section Sorting.

Lemma insert_rec_perm (x : Rec) (l : list Rec) :
  Permutation (insert_rec x l) (x :: l).
Proof.
  induction l as [|y l IH]; simpl; [reflexivity|].
  destruct (score y <=? score x); [reflexivity|].
  rewrite IH. apply perm_swap.
Qed.

Lemma sort_recs_perm (l : list Rec) : Permutation (sort_recs l) l.
Proof.
  induction l as [|x l IH]; simpl; [constructor|].
  rewrite insert_rec_perm. constructor. exact IH.
Qed.

Lemma total_score_perm (l1 l2 : list Rec) :
  Permutation l1 l2 -> total_score l1 = total_score l2.
Proof.
  unfold total_score.
  induction 1; simpl; try lia.
Qed.

Lemma NoDup_firstn {A} (k : nat) (l : list A) :
  NoDup l -> NoDup (firstn k l).
Proof.
  intros H. rewrite <- (firstn_skipn k l) in H.
  apply NoDup_app_remove_r in H. exact H.
Qed.

End Sorting.

Section Ranked.

Variable searcher : Searcher.
Variable medicine_id : str.

(** The dict after the three loops is the dict of one loop over the
    three lists. *)
Lemma scored_one_pass :
  scored searcher medicine_id
  = map (fun '(n, (s, md)) => mkRec n s md)
      (score_pass medicine_id [] (neighbours searcher medicine_id)).
Proof.
  unfold scored, neighbours.
  destruct (gather searcher medicine_id) as [[a b] c].
  rewrite !score_pass_app. reflexivity.
Qed.

Lemma ranked_sorts_scored :
  ranked searcher medicine_id = sort_recs (scored searcher medicine_id).
Proof.
  unfold ranked, scored.
  destruct (gather searcher medicine_id) as [[a b] c]. reflexivity.
Qed.

Lemma scored_names :
  map rec_name (scored searcher medicine_id)
  = map fst (score_pass medicine_id [] (neighbours searcher medicine_id)).
Proof.
  rewrite scored_one_pass, map_map. apply map_ext.
  intros [n [s md]]. reflexivity.
Qed.

Lemma scored_total :
  total_score (scored searcher medicine_id)
  = total_count (score_pass medicine_id [] (neighbours searcher medicine_id)).
Proof.
  rewrite scored_one_pass. unfold total_score, total_count.
  induction (score_pass medicine_id [] (neighbours searcher medicine_id))
    as [|[n [s md]] l IH]; simpl; [reflexivity|].
  rewrite IH. reflexivity.
Qed.

Lemma scored_NoDup : NoDup (map rec_name (scored searcher medicine_id)).
Proof.
  rewrite scored_names.
  apply (@ToolsFacts.score_pass_spec medicine_id _ [] (NoDup_nil _)
           (Forall_nil _)).
Qed.

End Ranked.

End RankingFacts.

(** ** The sessions *)

Module AppFacts.

Import App.

Section Dicts.

Context {A : Type}.

(** [d[k] = v; d[k]] *)
Lemma dict_get_set_same (d : list (str * A)) (k : str) (v : A) :
  dict_get (dict_set d k v) k = Some v.
Proof.
  induction d as [|[k0 v0] d IH]; simpl.
  - rewrite str_eqb_refl. reflexivity.
  - destruct (str_eqb k0 k) eqn:Hk; simpl; rewrite Hk; [reflexivity|].
    exact IH.
Qed.

(** [d[k] = v; d[k']] for another key. *)
Lemma dict_get_set_other (d : list (str * A)) (k k' : str) (v : A) :
  k' <> k -> dict_get (dict_set d k v) k' = dict_get d k'.
Proof.
  intros Hne. induction d as [|[k0 v0] d IH]; simpl.
  - destruct (str_eqb k k') eqn:Hk; [|reflexivity].
    apply str_eqb_eq in Hk. congruence.
  - destruct (str_eqb k0 k) eqn:Hk; simpl.
    + apply str_eqb_eq in Hk. subst k0.
      destruct (str_eqb k k') eqn:Hk'; [|reflexivity].
      apply str_eqb_eq in Hk'. congruence.
    + destruct (str_eqb k0 k'); [reflexivity | exact IH].
Qed.

End Dicts.

Section Turns.

Variable E : Env.

Lemma graph_invoke_framed (input : TurnInput) : framed (graph_invoke E input).
Proof.
  unfold graph_invoke.
  apply framed_bind; [apply framed_emit | intros _].
  apply framed_bind; [apply planner_node_framed | intros p].
  apply framed_bind; [apply executor_loop_framed | intros st].
  apply framed_bind; [apply framed_emit | intros _].
  apply summarizer_node_framed.
Qed.

(** [run] returns or raises, whatever the log holds. *)
Lemma run_total (question : str) (memory : list Message) (log : list event) :
  fst (fst (run E question memory log)) <> None.
Proof.
  unfold run, run_with.
  set (input := mkInput question _).
  rewrite (graph_invoke_framed input log).
  pose proof (graph_invoke_total E input) as Htotal.
  destruct (fst (graph_invoke E input [])) as [[st|e]|];
    [|discriminate | contradiction].
  destruct (add_ai_message _ (get (final_answer st) (PyStr no_result)));
    discriminate.
Qed.

Lemma run_memory (question : str) (memory : list Message) (log : list event) :
  match fst (fst (run E question memory log)) with
  | Some (Ok answer) =>
      snd (fst (run E question memory log))
      = memory ++ [mkMessage human (PyStr question); mkMessage ai answer]
  | _ =>
      snd (fst (run E question memory log))
      = memory ++ [mkMessage human (PyStr question)]
  end.
Proof.
  unfold run, run_with.
  destruct (graph_invoke E _ log) as [[[st|e]|] log']; cbn [fst snd];
    try reflexivity.
  destruct (get (final_answer st) (PyStr no_result)) as [|s|];
    cbn [add_ai_message fst snd]; try reflexivity;
    rewrite <- app_assoc; reflexivity.
Qed.

Lemma messages_of_app (h1 h2 : list (str * pyval)) :
  messages_of (h1 ++ h2) = messages_of h1 ++ messages_of h2.
Proof. apply flat_map_app. Qed.

End Turns.

End AppFacts.

(** ** The chunks of [embedding_medicine.py] *)

Module ChunksFacts.

Import Chunks.

(** White space ends the word being read. *)
Lemma words_from_space_app (a b cur : str) (c : N) :
  isspace c = true ->
  words_from cur (a ++ c :: b) = words_from cur a ++ words b.
Proof.
  intros Hc. revert cur. induction a as [|x a IH]; intros cur.
  - cbn [app words_from]. rewrite Hc. destruct cur; reflexivity.
  - cbn [app words_from]. destruct (isspace x).
    + destruct cur as [|y cur]; rewrite IH; reflexivity.
    + apply IH.
Qed.

Lemma words_space_app (a b : str) (c : N) :
  isspace c = true -> words (a ++ c :: b) = words a ++ words b.
Proof. apply words_from_space_app. Qed.

Lemma words_snoc_space (a : str) (c : N) :
  isspace c = true -> words (a ++ [c]) = words a.
Proof.
  intros Hc. rewrite (@words_space_app a [] c Hc). apply app_nil_r.
Qed.

Lemma words_lstrip (s : str) : words (lstrip s) = words s.
Proof.
  induction s as [|c s IH]; [reflexivity|].
  unfold words in *. cbn [lstrip words_from].
  destruct (isspace c) eqn:Hc; [exact IH|].
  cbn [words_from]. rewrite Hc. reflexivity.
Qed.

Lemma words_from_trailing (ws : str) :
  Forall (fun c => isspace c = true) ws ->
  forall s cur, words_from cur (s ++ ws) = words_from cur s.
Proof.
  intros Hws.
  assert (Hbase : forall cur, words_from cur ws = words_from cur []).
  { induction Hws as [|c ws Hc _ IH]; intros cur; [reflexivity|].
    cbn [words_from]. rewrite Hc.
    destruct cur as [|y cur]; rewrite IH; reflexivity. }
  induction s as [|x s IH]; intros cur.
  - apply Hbase.
  - cbn [app words_from]. destruct (isspace x).
    + destruct cur as [|y cur]; rewrite IH; reflexivity.
    + apply IH.
Qed.

Lemma lstrip_spaces (s : str) :
  exists pre,
    s = pre ++ lstrip s /\ Forall (fun c => isspace c = true) pre.
Proof.
  induction s as [|c s (pre & IH & Hpre)].
  - exists []. split; [reflexivity | constructor].
  - cbn [lstrip]. destruct (isspace c) eqn:Hc.
    + exists (c :: pre). split; [cbn; f_equal; exact IH|].
      constructor; assumption.
    + exists []. split; [reflexivity | constructor].
Qed.

Lemma words_rstrip (s : str) : words (rstrip s) = words s.
Proof.
  unfold rstrip.
  destruct (lstrip_spaces (rev s)) as (pre & Hs & Hpre).
  apply (f_equal (@rev N)) in Hs.
  rewrite rev_involutive, rev_app_distr in Hs.
  rewrite Hs at 2. unfold words. symmetry.
  apply words_from_trailing. apply Forall_rev. exact Hpre.
Qed.

(** [strip] keeps the words. *)
Lemma words_strip (s : str) : words (strip s) = words s.
Proof. unfold strip. rewrite words_lstrip. apply words_rstrip. Qed.

Lemma strip_nil_words (s : str) : strip s = [] -> words s = [].
Proof. intros H. rewrite <- words_strip, H. reflexivity. Qed.

Lemma all_words_app (l l' : list str) :
  all_words (l ++ l') = all_words l ++ all_words l'.
Proof. unfold all_words. rewrite map_app. apply concat_app. Qed.

Lemma words_after_line (current line : str) :
  ends_line current ->
  words (current ++ line ++ [space])
  = words current ++ words line.
Proof.
  intros [-> | [s ->]].
  - cbn [app]. apply words_snoc_space. reflexivity.
  - rewrite <- app_assoc. cbn [app].
    rewrite (@words_space_app s (line ++ [space]) space) by reflexivity.
    rewrite words_snoc_space by reflexivity.
    rewrite words_snoc_space by reflexivity. reflexivity.
Qed.

Lemma bounded_more (seen more : list str) (body : str) :
  bounded seen body -> bounded (seen ++ more) body.
Proof.
  intros [H | (line & Hin & ->)]; [left; exact H|].
  right. exists line. split; [apply in_or_app; left; exact Hin | reflexivity].
Qed.

(** One line of the loop. *)
Lemma overlap_step_invariant (prefix : str) (seen : list str)
  (state : list str * str) (line : str) :
  overlap_invariant prefix seen state ->
  overlap_invariant prefix (seen ++ [line]) (overlap_step prefix state line).
Proof.
  destruct state as [result current].
  intros (bodies & Hres & Hwords & Hends & Hall & Hcur).
  cbn [fst snd] in *. unfold overlap_step.
  destruct (length (words current) + length (words line) + 1 <? 100)
    eqn:Hfit.
  - apply Nat.ltb_lt in Hfit.
    exists bodies. cbn [fst snd].
    split; [exact Hres|]. split; [|split; [|split]].
    + rewrite (words_after_line line Hends), app_assoc, Hwords.
      rewrite all_words_app. unfold all_words at 3. cbn.
      rewrite app_nil_r. reflexivity.
    + right. exists (current ++ line). rewrite <- app_assoc. reflexivity.
    + eapply Forall_impl; [|exact Hall].
      intros body [Ht Hb]. split; [exact Ht | apply bounded_more; exact Hb].
    + left. rewrite words_strip, (words_after_line line Hends).
      rewrite length_app. lia.
  - exists (bodies ++ [strip current]). cbn [fst snd].
    split; [|split; [|split; [|split]]].
    + rewrite map_app, Hres. reflexivity.
    + rewrite words_snoc_space by reflexivity.
      rewrite !all_words_app. unfold all_words at 2 4. cbn.
      rewrite !app_nil_r, words_strip, Hwords. reflexivity.
    + right. exists line. reflexivity.
    + apply Forall_app. split.
      * eapply Forall_impl; [|exact Hall].
        intros body [Ht Hb]. split; [exact Ht | apply bounded_more; exact Hb].
      * constructor; [|constructor].
        split; [apply strip_trimmed | apply bounded_more; exact Hcur].
    + right. exists line.
      split; [apply in_or_app; right; left; reflexivity|].
      apply strip_snoc_space. reflexivity.
Qed.

Lemma overlap_loop_invariant (prefix : str) (contents seen : list str)
  (state : list str * str) :
  overlap_invariant prefix seen state ->
  overlap_invariant prefix (seen ++ contents)
    (fold_left (overlap_step prefix) contents state).
Proof.
  revert seen state. induction contents as [|line contents IH];
    intros seen state Hinv.
  - rewrite app_nil_r. exact Hinv.
  - cbn [fold_left].
    replace (seen ++ line :: contents) with ((seen ++ [line]) ++ contents)
      by (rewrite <- app_assoc; reflexivity).
    apply IH. apply overlap_step_invariant. exact Hinv.
Qed.

(** What [process_overlap] returns, by the bodies of its chunks. *)
Lemma process_overlap_bodies (text prefix : str) (contents : list str) :
  split_on newline text = prefix :: contents ->
  exists bodies,
    process_overlap text = map (fun body => prefix ++ [space] ++ body) bodies /\
    all_words bodies = all_words contents /\
    Forall (fun body => trimmed body = true /\ bounded contents body) bodies.
Proof.
  intros Hsplit. unfold process_overlap.
  destruct text as [|c text'].
  { inversion Hsplit; subst. exists [].
    split; [reflexivity|]. split; [reflexivity | constructor]. }
  rewrite Hsplit.
  assert (Hinit : overlap_invariant prefix [] ([], [])).
  { exists []. cbn [fst snd map].
    split; [reflexivity|]. split; [reflexivity|].
    split; [left; reflexivity|]. split; [constructor|].
    left. cbn. lia. }
  pose proof (overlap_loop_invariant contents Hinit) as Hinv.
  cbn [app] in Hinv.
  destruct (fold_left (overlap_step prefix) contents ([], []))
    as [result current].
  destruct Hinv as (bodies & Hres & Hwords & Hends & Hall & Hcur).
  cbn [fst snd] in *.
  destruct (strip current) as [|x rest] eqn:Hstrip.
  - exists bodies. split; [exact Hres|]. split; [|exact Hall].
    rewrite <- Hwords, (strip_nil_words _ Hstrip). symmetry. apply app_nil_r.
  - exists (bodies ++ [strip current]). split; [|split].
    + rewrite map_app, Hres. unfold chunk. rewrite Hstrip. reflexivity.
    + rewrite all_words_app. unfold all_words at 2. cbn.
      rewrite app_nil_r, words_strip. exact Hwords.
    + apply Forall_app. split; [exact Hall|].
      constructor; [|constructor].
      split; [apply strip_trimmed | rewrite Hstrip; exact Hcur].
Qed.

(** *** [replace] of one character *)

Lemma replace_char_app (c : N) (new a b : str) :
  replace [c] new (a ++ b) = replace [c] new a ++ replace [c] new b.
Proof.
  unfold replace. induction a as [|x a IH]; [reflexivity|].
  cbn [app replace_from length Nat.sub].
  destruct (starts_with [c] (x :: a ++ b)) eqn:H1;
    cbn [starts_with] in *; rewrite H1; rewrite IH.
  - rewrite <- app_assoc. reflexivity.
  - reflexivity.
Qed.

Lemma replace_char_absent (c : N) (new s : str) :
  ~ In c s -> replace [c] new s = s.
Proof.
  intros Hs. unfold replace. induction s as [|x s IH]; [reflexivity|].
  cbn [replace_from starts_with].
  destruct (c =? x)%N eqn:Hc.
  - apply N.eqb_eq in Hc. exfalso. apply Hs. left. symmetry. exact Hc.
  - cbn. rewrite IH; [reflexivity|]. intros H. apply Hs. right. exact H.
Qed.

Lemma replace_char_one (c : N) (new : str) : replace [c] new [c] = new.
Proof.
  unfold replace. cbn [replace_from starts_with]. rewrite N.eqb_refl.
  cbn. apply app_nil_r.
Qed.

(** Nothing of the character is left, when the new text has none. *)
Lemma replace_char_gone (c : N) (new s : str) :
  ~ In c new -> ~ In c (replace [c] new s).
Proof.
  intros Hnew. unfold replace. induction s as [|x s IH]; [intros []|].
  cbn [replace_from starts_with length Nat.sub].
  destruct (c =? x)%N eqn:Hc; cbn [andb].
  - intros H. apply in_app_or in H as [H | H]; [exact (Hnew H) | exact (IH H)].
  - intros [H | H]; [|exact (IH H)].
    apply N.eqb_neq in Hc. congruence.
Qed.

Lemma pipe_free_In (s : str) : pipe_free s = true -> ~ In pipe s.
Proof.
  unfold pipe_free. intros H. apply existsb_eqb_In.
  apply negb_true_iff. exact H.
Qed.

Lemma not_In_app (c : N) (a b : str) :
  ~ In c a -> ~ In c b -> ~ In c (a ++ b).
Proof. intros Ha Hb H. apply in_app_or in H as [H | H]; auto. Qed.

Lemma question_for_pipe_free (name : str) :
  ~ In pipe name -> ~ In pipe (question_for name).
Proof.
  intros Hname. unfold question_for.
  apply not_In_app; [|apply not_In_app; [exact Hname|]];
    apply pipe_free_In; vm_compute; reflexivity.
Qed.

(** The chunk of a part, for a name without a pipe. *)
Lemma qa_chunk (name pair : str) :
  ~ In pipe name ->
  replace [pipe] answer_mark (question_for name ++ pair)
  = question_for name ++ replace [pipe] answer_mark pair.
Proof.
  intros Hname. rewrite replace_char_app.
  rewrite (@replace_char_absent pipe answer_mark _ (question_for_pipe_free Hname)).
  reflexivity.
Qed.

Lemma qa_loop_app (name : str) (parts : list str) (result : list str) :
  fold_left (qa_step name) parts result
  = result ++ fold_left (qa_step name) parts [].
Proof.
  revert result. induction parts as [|p parts IH]; intros result.
  - symmetry. apply app_nil_r.
  - cbn [fold_left]. rewrite IH. rewrite (IH (qa_step name [] p)).
    rewrite app_assoc. f_equal.
    destruct p; cbn [qa_step]; [symmetry; apply app_nil_r | reflexivity].
Qed.

Lemma qa_loop_chunks (name : str) (parts : list str) :
  Forall
    (fun chunk =>
       exists pair,
         In pair parts /\ pair <> [] /\
         chunk = replace [pipe] answer_mark (question_for name ++ pair))
    (fold_left (qa_step name) parts []).
Proof.
  induction parts as [|p parts IH]; [constructor|].
  cbn [fold_left]. rewrite qa_loop_app. apply Forall_app. split.
  - destruct p as [|c p]; cbn [qa_step]; constructor; [|constructor].
    exists (c :: p). split; [left; reflexivity|]. split; [discriminate|].
    reflexivity.
  - eapply Forall_impl; [|exact IH].
    intros chunk (pair & Hin & Hne & Hc). exists pair.
    split; [right; exact Hin|]. split; assumption.
Qed.

Lemma process_qa_doc_loop (text name : str) :
  process_qa_doc text name
  = fold_left (qa_step name) (split_str double_pipe text) [].
Proof. destruct text; reflexivity. Qed.

(** *** [split] at two pipes *)

Lemma clean_tail (c : N) (s : str) : clean (c :: s) -> clean s.
Proof.
  unfold clean. cbn [app contains]. intros H.
  apply orb_false_iff in H as [_ H]. exact H.
Qed.

Lemma clean_head (c : N) (s rest : str) :
  clean (c :: s) ->
  starts_with double_pipe ((c :: s) ++ double_pipe ++ rest) = false.
Proof.
  unfold clean. cbn [app contains]. intros H.
  apply orb_false_iff in H as [H _].
  destruct s as [|d s]; exact H.
Qed.

Lemma clean_no_start (c : N) (s : str) :
  clean (c :: s) -> starts_with double_pipe (c :: s) = false.
Proof.
  unfold clean. cbn [app contains]. intros H.
  apply orb_false_iff in H as [H _].
  destruct s as [|d s]; [|exact H].
  unfold double_pipe. cbn [starts_with]. apply andb_false_r.
Qed.

(** A clean part is read whole, up to the separator that follows. *)
Lemma split_from_part (part rest cur : str) :
  clean part ->
  split_from double_pipe 0 cur (part ++ double_pipe ++ rest)
  = (rev cur ++ part) :: split_from double_pipe 0 [] rest.
Proof.
  revert cur. induction part as [|c part IH]; intros cur Hclean.
  - cbn. rewrite app_nil_r. reflexivity.
  - change (split_from double_pipe 0 cur ((c :: part) ++ double_pipe ++ rest))
      with (if starts_with double_pipe ((c :: part) ++ double_pipe ++ rest)
            then rev cur
                 :: split_from double_pipe (length double_pipe - 1) []
                      (part ++ double_pipe ++ rest)
            else split_from double_pipe 0 (c :: cur)
                   (part ++ double_pipe ++ rest)).
    rewrite (@clean_head c part rest Hclean).
    rewrite (IH (c :: cur) (@clean_tail c part Hclean)).
    cbn [rev]. rewrite <- app_assoc. reflexivity.
Qed.

Lemma split_from_last (part cur : str) :
  clean part -> split_from double_pipe 0 cur part = [rev cur ++ part].
Proof.
  revert cur. induction part as [|c part IH]; intros cur Hclean.
  - cbn. rewrite app_nil_r. reflexivity.
  - change (split_from double_pipe 0 cur (c :: part))
      with (if starts_with double_pipe (c :: part)
            then rev cur
                 :: split_from double_pipe (length double_pipe - 1) [] part
            else split_from double_pipe 0 (c :: cur) part).
    rewrite (@clean_no_start c part Hclean).
    rewrite (IH (c :: cur) (@clean_tail c part Hclean)).
    cbn [rev]. rewrite <- app_assoc. reflexivity.
Qed.

(** [split] undoes [join] on clean parts. *)
Lemma split_str_join (parts : list str) :
  parts <> [] -> Forall clean parts ->
  split_str double_pipe (join double_pipe parts) = parts.
Proof.
  unfold split_str. intros Hne Hall.
  induction Hall as [|p parts Hp Hall IH]; [contradiction|].
  destruct parts as [|q parts].
  - cbn [join]. apply (@split_from_last p [] Hp).
  - change (join double_pipe (p :: q :: parts))
      with (p ++ double_pipe ++ join double_pipe (q :: parts)).
    rewrite (@split_from_part p (join double_pipe (q :: parts)) [] Hp).
    rewrite IH by discriminate. reflexivity.
Qed.

Lemma lone_pipe_clean (a : str) : ~ In pipe a -> a <> [] -> clean a.
Proof.
  unfold clean. intros Ha Hne.
  induction a as [|x a IH]; [contradiction|].
  assert (Hx : (pipe =? x)%N = false).
  { apply N.eqb_neq. intros H. apply Ha. left. symmetry. exact H. }
  cbn [app contains]. apply orb_false_iff. split.
  - unfold double_pipe. cbn [starts_with]. rewrite Hx. reflexivity.
  - destruct a as [|y a]; [reflexivity|].
    apply IH; [|discriminate]. intros H. apply Ha. right. exact H.
Qed.

Lemma qa_pair_clean (qa : str * str) : well_formed qa = true -> clean (qa_pair qa).
Proof.
  destruct qa as [q a]. unfold well_formed, qa_pair. cbn [fst snd].
  intros H. apply andb_true_iff in H as [H Hne].
  apply andb_true_iff in H as [Hq Ha].
  apply pipe_free_In in Hq, Ha.
  assert (Hane : a <> []) by (destruct a; [discriminate | discriminate]).
  pose proof (lone_pipe_clean Ha Hane) as Hclean.
  destruct a as [|x a]; [contradiction|].
  assert (Hx : (pipe =? x)%N = false).
  { apply N.eqb_neq. intros H. apply Ha. left. symmetry. exact H. }
  unfold clean in *.
  induction q as [|y q IH].
  - cbn [app contains]. apply orb_false_iff. split; [|exact Hclean].
    unfold double_pipe. cbn [starts_with]. rewrite Hx.
    rewrite andb_false_r. reflexivity.
  - assert (Hy : (pipe =? y)%N = false).
    { apply N.eqb_neq. intros H. apply Hq. left. symmetry. exact H. }
    cbn [app contains]. apply orb_false_iff. split.
    + unfold double_pipe. cbn [starts_with]. rewrite Hy. reflexivity.
    + apply IH. intros H. apply Hq. right. exact H.
Qed.

(** The chunks of well-formed pairs. *)
Lemma qa_loop_pairs (name : str) (pairs : list (str * str)) :
  ~ In pipe name ->
  forallb well_formed pairs = true ->
  fold_left (qa_step name) (map qa_pair pairs) []
  = map (fun qa => question_for name ++ fst qa ++ answer_mark ++ snd qa)
      pairs.
Proof.
  intros Hname. induction pairs as [|[q a] pairs IH]; intros Hall;
    [reflexivity|].
  cbn [forallb] in Hall. apply andb_true_iff in Hall as [Hqa Hall].
  cbn [map fold_left]. rewrite qa_loop_app, (IH Hall).
  unfold well_formed in Hqa. cbn [fst snd] in *.
  apply andb_true_iff in Hqa as [Hqa _].
  apply andb_true_iff in Hqa as [Hq Ha].
  apply pipe_free_In in Hq, Ha.
  change (?x :: ?l = ?y :: ?l') with ([x] ++ l = [y] ++ l').
  f_equal. unfold qa_pair. cbn [fst snd].
  destruct (q ++ pipe :: a) as [|c s] eqn:Hpair.
  { destruct q; discriminate. }
  cbn [qa_step app]. rewrite <- Hpair. f_equal.
  rewrite (@qa_chunk name (q ++ pipe :: a) Hname). f_equal.
  change (pipe :: a) with ([pipe] ++ a).
  rewrite !replace_char_app, replace_char_one.
  rewrite (@replace_char_absent pipe answer_mark q Hq).
  rewrite (@replace_char_absent pipe answer_mark a Ha). reflexivity.
Qed.

Lemma In_pipe_free (s : str) : ~ In pipe s -> pipe_free s = true.
Proof.
  intros Hs. unfold pipe_free. apply negb_true_iff.
  destruct (existsb (N.eqb pipe) s) eqn:H; [|reflexivity].
  apply existsb_exists in H as (x & Hin & Hx).
  apply N.eqb_eq in Hx. subst x. contradiction.
Qed.

(** The loop only adds to [result]. *)
Lemma overlap_loop_grows (prefix : str) (contents : list str)
  (result : list str) (current : str) :
  exists more,
    fst (fold_left (overlap_step prefix) contents (result, current))
    = result ++ more.
Proof.
  revert result current.
  induction contents as [|line contents IH]; intros result current.
  - exists []. symmetry. apply app_nil_r.
  - cbn [fold_left].
    change (overlap_step prefix (result, current) line)
      with (if length (words current) + length (words line) + 1 <? 100
            then (result, current ++ line ++ [space])
            else (result ++ [chunk prefix current], line ++ [space])).
    destruct (length (words current) + length (words line) + 1 <? 100).
    + apply IH.
    + destruct (IH (result ++ [chunk prefix current]) (line ++ [space]))
        as (more & Hmore).
      exists (chunk prefix current :: more).
      rewrite <- app_assoc in Hmore. exact Hmore.
Qed.

End ChunksFacts.

(** ** The graph of [insert_to_db] *)

Module GraphLoadFacts.

Import GraphLoad.

Section Dict.

Context {A : Type}.

Lemma dict_get_none (d : list (str * A)) (key : str) :
  dict_get d key = None -> ~ In key (map fst d).
Proof.
  induction d as [|[k v] d IH]; intros Hget; [intros []|].
  cbn [dict_get] in Hget. destruct (str_eqb k key) eqn:Hk; [discriminate|].
  apply str_eqb_neq in Hk. intros [H | H]; [exact (Hk H) | exact (IH Hget H)].
Qed.

Lemma dict_get_in (d : list (str * A)) (key : str) (v : A) :
  dict_get d key = Some v -> In (key, v) d.
Proof.
  induction d as [|[k w] d IH]; intros Hget; [discriminate|].
  cbn [dict_get] in Hget. destruct (str_eqb k key) eqn:Hk.
  - apply str_eqb_eq in Hk. inversion Hget; subst. left. reflexivity.
  - right. exact (IH Hget).
Qed.

Lemma dict_get_absent (d : list (str * A)) (key : str) :
  ~ In key (map fst d) -> dict_get d key = None.
Proof.
  induction d as [|[k v] d IH]; intros Hnot; [reflexivity|].
  cbn [dict_get]. destruct (str_eqb k key) eqn:Hk.
  - apply str_eqb_eq in Hk. exfalso. apply Hnot. left. exact Hk.
  - apply IH. intros H. apply Hnot. right. exact H.
Qed.

Lemma dict_get_app (d d' : list (str * A)) (key : str) :
  dict_get d key <> None -> dict_get (d ++ d') key <> None.
Proof.
  induction d as [|[k v] d IH]; intros Hget; [contradiction|].
  cbn [app dict_get] in *. destruct (str_eqb k key); [exact Hget|].
  exact (IH Hget).
Qed.

Lemma dict_get_snoc (d : list (str * A)) (key : str) (v : A) :
  dict_get (d ++ [(key, v)]) key <> None.
Proof.
  induction d as [|[k w] d IH].
  - cbn. rewrite str_eqb_refl. discriminate.
  - cbn [app dict_get]. destruct (str_eqb k key); [discriminate | exact IH].
Qed.

End Dict.

(** *** The rules of the statements *)

Lemma keeps_skip (I : Build -> Prop) : keeps I skip.
Proof. intros b Hb. exact Hb. Qed.

Lemma keeps_raise (I : Build -> Prop) (e : exn) : keeps I (raise e).
Proof. intros b Hb. exact Hb. Qed.

Lemma keeps_seq (I : Build -> Prop) (m k : B) :
  keeps I m -> keeps I k -> keeps I (seq m k).
Proof.
  intros Hm Hk b Hb. unfold seq. specialize (Hm b Hb).
  destruct (m b) as [[[]|e] b']; cbn [snd] in *; [apply Hk|]; exact Hm.
Qed.

Lemma keeps_for_each (I : Build -> Prop) {A} (body : A -> B) (l : list A) :
  (forall x, In x l -> keeps I (body x)) -> keeps I (for_each body l).
Proof.
  induction l as [|x l IH]; intros Hbody; [apply keeps_skip|].
  cbn [for_each]. apply keeps_seq.
  - apply Hbody. left. reflexivity.
  - apply IH. intros y Hy. apply Hbody. right. exact Hy.
Qed.

Lemma keeps_try (I : Build -> Prop) (m : B) :
  keeps I m -> keeps I (try_except m).
Proof. intros Hm b Hb. exact (Hm b Hb). Qed.

Lemma returns_skip (P : Build -> Prop) : returns P skip P.
Proof. intros b Hb. exists b. split; [reflexivity | exact Hb]. Qed.

Lemma returns_seq (P Q R : Build -> Prop) (m k : B) :
  returns P m Q -> returns Q k R -> returns P (seq m k) R.
Proof.
  intros Hm Hk b Hb. destruct (Hm b Hb) as (b1 & Hrun & Hq).
  unfold seq. rewrite Hrun. exact (Hk b1 Hq).
Qed.

Lemma returns_for_each (P : Build -> Prop) {A} (body : A -> B)
  (l : list A) :
  (forall x, In x l -> returns P (body x) P) ->
  returns P (for_each body l) P.
Proof.
  induction l as [|x l IH]; intros Hbody; [apply returns_skip|].
  cbn [for_each]. apply returns_seq with (Q := P).
  - apply Hbody. left. reflexivity.
  - apply IH. intros y Hy. apply Hbody. right. exact Hy.
Qed.

Lemma returns_try (P : Build -> Prop) (m : B) :
  keeps P m -> returns P (try_except m) P.
Proof.
  intros Hm b Hb. exists (snd (m b)). split; [reflexivity | exact (Hm b Hb)].
Qed.

Lemma only_skip : key_error_only skip.
Proof. intros b e b' H. discriminate. Qed.

Lemma only_seq (m k : B) :
  key_error_only m -> key_error_only k -> key_error_only (seq m k).
Proof.
  intros Hm Hk b e b' H. unfold seq in H.
  destruct (m b) as [[[]|e1] b1] eqn:Hrun.
  - exact (Hk _ _ _ H).
  - inversion H; subst. exact (Hm _ _ _ Hrun).
Qed.

Lemma only_for_each {A} (body : A -> B) (l : list A) :
  (forall x, key_error_only (body x)) -> key_error_only (for_each body l).
Proof.
  intros Hbody. induction l as [|x l IH]; [apply only_skip|].
  cbn [for_each]. apply only_seq; [apply Hbody | exact IH].
Qed.

Lemma only_try (m : B) : key_error_only (try_except m).
Proof. intros b e b' H. discriminate. Qed.

Lemma only_ensure (lib : Source) (key : str) (meta : list (str * json)) :
  key_error_only (ensure lib key meta).
Proof.
  intros b e b' H. unfold ensure in H.
  destruct (dict_get (nodes b) key); discriminate.
Qed.

Lemma only_relate (name key kind : str) : key_error_only (relate name key kind).
Proof.
  intros b e b' H. unfold relate in H.
  destruct (dict_get (nodes b) name); [|inversion H; reflexivity].
  destruct (dict_get (nodes b) key); [discriminate|].
  inversion H; reflexivity.
Qed.

Lemma only_link (lib : Source) (name kind object : str) :
  key_error_only (link lib name kind object).
Proof.
  unfold link. destruct (strip object); [apply only_skip|].
  apply only_seq; [apply only_ensure | apply only_relate].
Qed.

Lemma only_insert_row (lib : Source) (d : Row) :
  key_error_only (insert_row lib d).
Proof.
  unfold insert_row. apply only_seq; [apply only_ensure|].
  apply only_seq.
  { destruct (lower lib (row_type d)); [apply only_skip | apply only_ensure]. }
  apply only_seq; [apply only_relate|].
  apply only_seq; [|apply only_try].
  apply only_for_each. intros x. apply only_link.
Qed.

(** *** The graph is sound *)

Lemma ids_app (b : Build) (entry : str * Node) :
  map (fun e : str * Node => fst (snd e)) (nodes b ++ [entry])
  = ids b ++ [fst (snd entry)].
Proof. unfold ids. rewrite map_app. reflexivity. Qed.

Lemma ensure_sound (lib : Source) (key : str) (meta : list (str * json)) :
  keeps (sound lib) (ensure lib key meta).
Proof.
  intros b (Hnd & Hdrawn & Hids & Hrels). unfold ensure.
  destruct (dict_get (nodes b) key) eqn:Hget; cbn [snd].
  { repeat split; assumption. }
  unfold sound, ids in *. cbn [nodes relationships drawn].
  split; [|split; [|split]].
  - rewrite map_app. cbn [map fst].
    apply (Permutation_NoDup (Permutation_cons_append _ key)).
    constructor; [exact (dict_get_none _ _ Hget) | exact Hnd].
  - rewrite length_app. cbn [length]. lia.
  - rewrite map_app, length_app. cbn [map length fst snd].
    rewrite Nat.add_1_r, seq_S, map_app, <- Hids, Hdrawn. reflexivity.
  - eapply Forall_impl; [|exact Hrels].
    intros r [Hs Ht]. rewrite map_app.
    split; apply in_or_app; left; assumption.
Qed.

Lemma relate_sound (lib : Source) (name key kind : str) :
  keeps (sound lib) (relate name key kind).
Proof.
  intros b Hb. unfold relate.
  destruct (dict_get (nodes b) name) as [s|] eqn:Hs; [|exact Hb].
  destruct (dict_get (nodes b) key) as [t|] eqn:Ht; [|exact Hb].
  destruct Hb as (Hnd & Hdrawn & Hids & Hrels).
  cbn [snd]. unfold sound, ids in *. cbn [nodes relationships drawn].
  repeat split; try assumption.
  apply Forall_app. split; [exact Hrels|].
  constructor; [|constructor]. cbn [source target].
  split.
  - apply (in_map (fun e : str * Node => fst (snd e)) _ _ (dict_get_in _ _ Hs)).
  - apply (in_map (fun e : str * Node => fst (snd e)) _ _ (dict_get_in _ _ Ht)).
Qed.

Lemma keeps_link (I : Build -> Prop) (lib : Source) (name kind object : str) :
  (forall key, key <> [] -> keeps I (ensure lib key [])) ->
  (forall key, keeps I (relate name key kind)) ->
  keeps I (link lib name kind object).
Proof.
  intros He Hr. unfold link.
  destruct (strip object) as [|c s] eqn:Hs; [apply keeps_skip|].
  apply keeps_seq; [apply He; discriminate | apply Hr].
Qed.

Lemma keeps_ingredients (I : Build -> Prop) (lib : Source)
  (name ingredient : str) :
  (forall key, key <> [] -> keeps I (ensure lib key [])) ->
  (forall key, keeps I (relate name key Tools.rel_ingredient)) ->
  keeps I (ingredients lib name ingredient).
Proof.
  intros He Hr. unfold ingredients.
  destruct (index keyword (split_on newline ingredient));
    [|apply keeps_raise].
  apply keeps_for_each. intros x _. apply keeps_link; assumption.
Qed.

Lemma insert_row_sound (lib : Source) (d : Row) :
  keeps (sound lib) (insert_row lib d).
Proof.
  unfold insert_row. apply keeps_seq; [apply ensure_sound|].
  apply keeps_seq.
  { destruct (lower lib (row_type d)); [apply keeps_skip | apply ensure_sound]. }
  apply keeps_seq; [apply relate_sound|].
  apply keeps_seq.
  - apply keeps_for_each. intros x _.
    apply keeps_link; intros; [apply ensure_sound | apply relate_sound].
  - apply keeps_try.
    apply keeps_ingredients; intros; [apply ensure_sound | apply relate_sound].
Qed.

Lemma empty_sound (lib : Source) : sound lib empty.
Proof.
  unfold sound, ids, empty. cbn. repeat split; constructor.
Qed.

Lemma build_sound (lib : Source) (data : list Row) :
  sound lib (snd (build lib data)).
Proof.
  apply (@keeps_for_each (sound lib) Row (insert_row lib) data).
  - intros d _. apply insert_row_sound.
  - apply empty_sound.
Qed.

Lemma firstn_seq_le (k n a : nat) :
  k <= n -> firstn k (List.seq a n) = List.seq a k.
Proof.
  revert n a. induction k as [|k IH]; intros n a Hle; [reflexivity|].
  destruct n as [|n]; [lia|]. cbn [List.seq firstn].
  f_equal. apply IH. lia.
Qed.

(** The entities that were created are the first of [nodes], all of
    them when the creation returns. *)
Lemma create_entities_spec (lib : Source) (entries : list (str * Node)) :
  exists k,
    k <= length entries /\
    created_names (snd (create_entities lib entries))
    = firstn k (map fst entries) /\
    created_ids (snd (create_entities lib entries))
    = firstn k (map (fun e : str * Node => fst (snd e)) entries) /\
    (forall known,
        Forall (ends_among known) (snd (create_entities lib entries))) /\
    (forall kind,
        Forall (fun w => is_of_kind kind w = false)
          (snd (create_entities lib entries))).
Proof.
  induction entries as [|[name [node_id meta]] rest IH].
  - exists 0. cbn. repeat split; try constructor.
  - cbn [create_entities].
    destruct (dumps lib meta) as [metadata|e].
    + destruct IH as (k & Hk & Hnames & Hids & Hends & Hkind).
      destruct (create_entities lib rest) as [out writes].
      cbn [snd] in *. exists (S k).
      split; [cbn; lia|].
      split; [cbn; f_equal; exact Hnames|].
      split; [cbn; f_equal; exact Hids|].
      split; intros x; constructor; auto. exact I.
    + exists 0. cbn. split; [lia|]. repeat split; constructor.
Qed.

Lemma create_entities_all (lib : Source) (entries : list (str * Node))
  (writes : list write) :
  create_entities lib entries = (Ok tt, writes) ->
  created_names writes = map fst entries /\
  created_ids writes = map (fun e : str * Node => fst (snd e)) entries.
Proof.
  revert writes. induction entries as [|[name [node_id meta]] rest IH];
    intros writes Hrun.
  - inversion Hrun. split; reflexivity.
  - cbn [create_entities] in Hrun.
    destruct (dumps lib meta) as [metadata|e]; [|discriminate].
    destruct (create_entities lib rest) as [out ws].
    inversion Hrun; subst.
    destruct (IH ws eq_refl) as [Hn Hi].
    split; cbn; f_equal; assumption.
Qed.

Lemma created_ids_relationships (rels : list Rel) :
  created_ids (create_relationships rels) = [] /\
  created_names (create_relationships rels) = [].
Proof.
  induction rels as [|r rels [IH1 IH2]]; [split; reflexivity|].
  split; cbn; assumption.
Qed.

(** *** Keys and kinds *)

Lemma ensure_keys (lib : Source) (key : str) (meta : list (str * json)) :
  key <> [] -> keeps keys_not_empty (ensure lib key meta).
Proof.
  intros Hkey b Hb. unfold ensure.
  destruct (dict_get (nodes b) key); [exact Hb|].
  unfold keys_not_empty in *. cbn [snd nodes].
  rewrite map_app. apply Forall_app. split; [exact Hb|].
  constructor; [exact Hkey | constructor].
Qed.

Lemma relate_nodes (name key kind : str) (b : Build) :
  nodes (snd (relate name key kind b)) = nodes b.
Proof.
  unfold relate. destruct (dict_get (nodes b) name); [|reflexivity].
  destruct (dict_get (nodes b) key); reflexivity.
Qed.

Lemma relate_keys (name key kind : str) :
  keeps keys_not_empty (relate name key kind).
Proof.
  intros b Hb. unfold keys_not_empty. rewrite relate_nodes. exact Hb.
Qed.

Lemma insert_row_keys (lib : Source) (d : Row) :
  named lib d = true -> keeps keys_not_empty (insert_row lib d).
Proof.
  unfold named, insert_row. intros Hname.
  apply keeps_seq.
  { apply ensure_keys. destruct (lower lib (row_name d)); discriminate. }
  apply keeps_seq.
  { destruct (lower lib (row_type d)) eqn:Ht;
      [apply keeps_skip | apply ensure_keys; discriminate]. }
  apply keeps_seq; [apply relate_keys|].
  apply keeps_seq.
  - apply keeps_for_each. intros x _.
    apply keeps_link; intros; [apply ensure_keys; assumption | apply relate_keys].
  - apply keeps_try.
    apply keeps_ingredients; intros;
      [apply ensure_keys; assumption | apply relate_keys].
Qed.

Lemma ensure_none_of (lib : Source) (kind key : str)
  (meta : list (str * json)) :
  keeps (none_of kind) (ensure lib key meta).
Proof.
  intros b Hb. unfold ensure.
  destruct (dict_get (nodes b) key); exact Hb.
Qed.

Lemma relate_none_of (kind name key kind' : str) :
  kind' <> kind -> keeps (none_of kind) (relate name key kind').
Proof.
  intros Hne b Hb. unfold relate.
  destruct (dict_get (nodes b) name); [|exact Hb].
  destruct (dict_get (nodes b) key); [|exact Hb].
  unfold none_of in *. cbn [snd relationships].
  apply Forall_app. split; [exact Hb|].
  constructor; [exact Hne | constructor].
Qed.

Lemma index_in (x : str) (l : list str) (k : nat) :
  index x l = Ok k -> In x l.
Proof.
  revert k. induction l as [|y l IH]; intros k H; [discriminate|].
  cbn [index] in H. destruct (str_eqb y x) eqn:Hy.
  - apply str_eqb_eq in Hy. left. exact Hy.
  - destruct (index x l) as [j|e]; [|discriminate].
    right. exact (IH j eq_refl).
Qed.

(** The characters of a part are characters of the text. *)
Lemma split_on_chars (sep : N) (s part : str) (c : N) :
  In part (split_on sep s) -> In c part -> In c s.
Proof.
  revert part. induction s as [|x s IH]; intros part Hpart Hc.
  - destruct Hpart as [<- | []]. exact Hc.
  - cbn [split_on] in Hpart. destruct (x =? sep)%N.
    + destruct Hpart as [<- | Hpart]; [destruct Hc|].
      right. exact (IH part Hpart Hc).
    + destruct (split_on sep s) as [|h t] eqn:Hsplit.
      * destruct Hpart as [<- | []]. destruct Hc as [<- | []].
        left. reflexivity.
      * destruct Hpart as [<- | Hpart].
        -- destruct Hc as [<- | Hc]; [left; reflexivity|].
           right. apply (IH h); [left; reflexivity | exact Hc].
        -- right. apply (IH part); [right; exact Hpart | exact Hc].
Qed.

(** A text without a capital H has no line that is the keyword: the
    search for it raises. *)
Lemma ingredients_raise (lib : Source) (name ingredient : str) :
  existsb (N.eqb capital_h) ingredient = false ->
  exists e, ingredients lib name ingredient = raise e.
Proof.
  intros Hlow. unfold ingredients.
  destruct (index keyword (split_on newline ingredient)) as [k|e] eqn:Hi;
    [|exists e; reflexivity].
  exfalso. apply index_in in Hi.
  apply (existsb_eqb_In _ _ Hlow).
  apply (@split_on_chars newline ingredient keyword capital_h Hi).
  unfold keyword, capital_h. left. reflexivity.
Qed.

Lemma insert_row_no_ingredient (lib : Source) (d : Row) :
  existsb (N.eqb capital_h) (lower lib (row_ingredient d)) = false ->
  keeps (none_of Tools.rel_ingredient) (insert_row lib d).
Proof.
  intros Hlow. unfold insert_row.
  assert (Htype : Tools.rel_type <> Tools.rel_ingredient)
    by (apply str_eqb_neq; reflexivity).
  assert (Hind : Tools.rel_indication <> Tools.rel_ingredient)
    by (apply str_eqb_neq; reflexivity).
  apply keeps_seq; [apply ensure_none_of|].
  apply keeps_seq.
  { destruct (lower lib (row_type d));
      [apply keeps_skip | apply ensure_none_of]. }
  apply keeps_seq; [apply relate_none_of; exact Htype|].
  apply keeps_seq.
  - apply keeps_for_each. intros x _.
    apply keeps_link; intros;
      [apply ensure_none_of | apply relate_none_of; exact Hind].
  - apply keeps_try.
    destruct (@ingredients_raise lib (lower lib (row_name d))
                (lower lib (row_ingredient d)) Hlow) as [e ->].
    apply keeps_raise.
Qed.

(** *** Rows that return, and rows that raise *)

Lemma ensure_has (lib : Source) (name key : str) (meta : list (str * json)) :
  keeps (has name) (ensure lib key meta).
Proof.
  intros b Hb. unfold ensure.
  destruct (dict_get (nodes b) key); [exact Hb|].
  unfold has in *. cbn [snd nodes]. apply dict_get_app. exact Hb.
Qed.

Lemma ensure_returns (lib : Source) (P : Build -> Prop) (key : str)
  (meta : list (str * json)) :
  keeps P (ensure lib key meta) ->
  returns P (ensure lib key meta) (fun b => P b /\ has key b).
Proof.
  intros Hkeeps b Hb. specialize (Hkeeps b Hb). unfold ensure in *.
  destruct (dict_get (nodes b) key) eqn:Hget; cbn [snd] in Hkeeps.
  - exists b. split; [reflexivity|]. split; [exact Hkeeps|].
    unfold has. rewrite Hget. discriminate.
  - eexists. split; [reflexivity|]. split; [exact Hkeeps|].
    unfold has. cbn [nodes]. apply dict_get_snoc.
Qed.

Lemma relate_has (name' name key kind : str) :
  keeps (has name') (relate name key kind).
Proof. intros b Hb. unfold has. rewrite relate_nodes. exact Hb. Qed.

Lemma relate_returns (name key kind : str) :
  returns (fun b => has name b /\ has key b) (relate name key kind)
    (has name).
Proof.
  intros b [Hn Hk]. unfold relate, has in *.
  destruct (dict_get (nodes b) name) as [s|] eqn:Hs; [|contradiction].
  destruct (dict_get (nodes b) key) as [t|]; [|contradiction].
  eexists. split; [reflexivity|]. cbn [nodes]. rewrite Hs. discriminate.
Qed.

Lemma link_returns (lib : Source) (name kind object : str) :
  returns (has name) (link lib name kind object) (has name).
Proof.
  unfold link. destruct (strip object) as [|c s]; [apply returns_skip|].
  eapply returns_seq; [|apply relate_returns].
  apply ensure_returns. apply ensure_has.
Qed.

Lemma link_has (lib : Source) (name' name kind object : str) :
  keeps (has name') (link lib name kind object).
Proof.
  apply keeps_link; intros; [apply ensure_has | apply relate_has].
Qed.

(** A row with a type is read to its end. *)
Lemma insert_row_returns (lib : Source) (d : Row) :
  typed lib d = true ->
  returns (fun _ => True) (insert_row lib d) (fun _ => True).
Proof.
  unfold typed, insert_row. intros Htyped.
  set (name := lower lib (row_name d)).
  destruct (lower lib (row_type d)) as [|c type] eqn:Ht; [discriminate|].
  eapply returns_seq.
  { apply (@ensure_returns lib (fun _ => True)). intros b _. exact I. }
  eapply returns_seq with (Q := fun b => has name b /\ has (c :: type) b).
  { intros b [_ Hn].
    destruct (@ensure_returns lib (has name) (c :: type) []
                (@ensure_has lib name (c :: type) []) b Hn)
      as (b' & Hrun & Hq).
    exists b'. split; assumption. }
  eapply returns_seq; [apply relate_returns|].
  eapply returns_seq with (Q := has name).
  - apply returns_for_each. intros x _. apply link_returns.
  - intros b Hb. eexists. split; [reflexivity | exact I].
Qed.

Lemma no_empty_key (b : Build) :
  keys_not_empty b -> dict_get (nodes b) [] = None.
Proof.
  intros Hb. apply dict_get_absent. intros Hin.
  unfold keys_not_empty in Hb. rewrite Forall_forall in Hb.
  exact (Hb [] Hin eq_refl).
Qed.

(** A row without a type raises [KeyError], unless the empty text is
    a key of [nodes]. *)
Lemma insert_row_raises (lib : Source) (d : Row) (b : Build) :
  keys_not_empty b -> named lib d = true -> typed lib d = false ->
  exists b', insert_row lib d b = (Raise Retrieval.key_error, b').
Proof.
  unfold named, typed, insert_row. intros Hb Hname Htype.
  destruct (lower lib (row_type d)) as [|c t]; [|discriminate].
  set (name := lower lib (row_name d)) in *.
  assert (Hne : name <> []) by (destruct name; discriminate).
  pose proof (@ensure_keys lib name (combine meta_keys (row_rest d)) Hne b Hb)
    as Hkeys.
  unfold seq at 1.
  destruct (ensure lib name (combine meta_keys (row_rest d)) b)
    as [[[]|e] b1] eqn:Hrun.
  2:{ exfalso. unfold ensure in Hrun.
      destruct (dict_get (nodes b) name); discriminate. }
  cbn [snd] in Hkeys. unfold seq at 1. unfold skip at 1.
  unfold seq at 1. unfold relate.
  rewrite (@no_empty_key b1 Hkeys).
  destruct (dict_get (nodes b1) name); eexists; reflexivity.
Qed.

(** With a row without a type, and no row without a name, the loop
    raises [KeyError]. *)
Lemma rows_raise (lib : Source) (data : list Row) (b : Build) :
  keys_not_empty b ->
  forallb (named lib) data = true ->
  forallb (typed lib) data = false ->
  exists b', for_each (insert_row lib) data b = (Raise Retrieval.key_error, b').
Proof.
  revert b. induction data as [|d data IH]; intros b Hb Hnamed Htyped;
    [discriminate|].
  cbn [forallb] in Hnamed, Htyped.
  apply andb_true_iff in Hnamed as [Hd Hnamed].
  cbn [for_each]. unfold seq.
  pose proof (@insert_row_keys lib d Hd b Hb) as Hkeys.
  destruct (insert_row lib d b) as [[[]|e] b1] eqn:Hrun; cbn [snd] in Hkeys.
  - destruct (typed lib d) eqn:Ht.
    + apply (IH b1 Hkeys Hnamed Htyped).
    + destruct (@insert_row_raises lib d b Hb Hd Ht) as (b' & Hraise).
      congruence.
  - exists b1. rewrite (@only_insert_row lib d b e b1 Hrun). reflexivity.
Qed.

End GraphLoadFacts.

(** * Further properties of the code *)

(** ** The loop *)

(** X1.  In every turn, a state has the forced stop set exactly when
    its cursor is at three and none of its results is useful: the
    check, which the Executor makes again at each later step, can only
    succeed at the third. *)
Theorem forced_stop_only_at_third_step (E : Env) (input : TurnInput) :
  Forall
    (fun st =>
       force_end st = Some true <->
       current_index st = 3 /\ all_empty (results st) = true)
    (states_of (snd (graph_invoke E input []))).
Proof.
  destruct (turn_well_run E input) as [Hall _].
  eapply Forall_impl; [|exact Hall].
  intros st (_ & (Hforced & Huseful) & _). unfold max_attempts in *.
  split; [exact Hforced|].
  intros [Hidx Hempty].
  destruct (force_end st) as [[|]|] eqn:Hf; [reflexivity| |].
  - rewrite Huseful in Hempty; [discriminate | lia | discriminate].
  - rewrite Huseful in Hempty; [discriminate | lia | discriminate].
Qed.

(** X2.  The state with which the Summarizer is entered is at the end
    of the plan, or at the third step with no useful result.  When the
    plan has fewer than three steps, or some result is useful, it is at
    the end of the plan and holds a result for each step of the plan,
    in the order of the plan. *)
Theorem loop_ends_exhausted_or_forced (E : Env) (input : TurnInput) :
  Forall
    (fun st =>
       (current_index st = length (plan st) \/
        current_index st = 3 /\ all_empty (results st) = true) /\
       (length (plan st) < 3 \/ all_empty (results st) = false ->
        current_index st = length (plan st) /\
        map result_label (results st) = map step_label (plan st)))
    (summarizer_states (snd (graph_invoke E input []))).
Proof.
  destruct (turn_well_run E input) as [_ Hall].
  eapply Forall_impl; [|exact Hall].
  intros st (((Hle & Hlen) & (Hforced & _) & Hmirror) & Hstop).
  unfold max_attempts in *.
  assert (Hend :
            current_index st = length (plan st) ->
            map result_label (results st) = map step_label (plan st)).
  { intros Hidx. unfold mirrors_plan in Hmirror.
    rewrite Hmirror, Hidx, <- (length_map step_label).
    apply firstn_all. }
  unfold _should_continue in Hstop.
  destruct (force_end st) as [[|]|] eqn:Hf; cbn [get] in Hstop.
  - destruct (Hforced eq_refl) as [Hidx Hempty].
    split; [right; auto|].
    intros [Hshort | Huseful]; [lia | congruence].
  - apply Nat.ltb_ge in Hstop.
    assert (Hidx : current_index st = length (plan st)) by lia.
    split; [left; exact Hidx | intros _; auto].
  - apply Nat.ltb_ge in Hstop.
    assert (Hidx : current_index st = length (plan st)) by lia.
    split; [left; exact Hidx | intros _; auto].
Qed.

(** X3.  In every state of every turn, the results are those of the
    steps before the cursor: the i-th result carries the tool name and
    the query of the i-th step of the plan. *)
Theorem results_follow_the_plan (E : Env) (input : TurnInput) :
  Forall
    (fun st =>
       map result_label (results st)
       = firstn (current_index st) (map step_label (plan st)))
    (states_of (snd (graph_invoke E input []))).
Proof.
  destruct (turn_well_run E input) as [Hall _].
  eapply Forall_impl; [|exact Hall].
  intros st (_ & _ & Hmirror). exact Hmirror.
Qed.

Lemma summarizer_runs_states (log : list event) :
  summarizer_runs log = length (summarizer_states log).
Proof.
  unfold summarizer_runs, summarizer_states.
  induction log as [|ev log IH]; [reflexivity|].
  destruct ev; simpl; auto.
Qed.

(** X4.  A turn calls the model at most twice and enters the Summarizer
    at most once; a turn that returns called the model exactly twice,
    once to plan and once to answer. *)
Theorem model_called_at_most_twice (E : Env) (input : TurnInput) :
  llm_calls (snd (graph_invoke E input [])) <= 2 /\
  summarizer_runs (snd (graph_invoke E input [])) <= 1 /\
  match fst (graph_invoke E input []) with
  | Some (Ok _) =>
      llm_calls (snd (graph_invoke E input [])) = 2 /\
      summarizer_runs (snd (graph_invoke E input [])) = 1
  | _ => True
  end.
Proof.
  rewrite !summarizer_runs_states.
  destruct (graph_invoke_shape E input) as (outP & evsP & HshapeP & H).
  destruct (one_llm_call_no_state HshapeP) as (_ & HzP & _ & HlP).
  destruct outP as [p|e].
  - destruct H as (Hplanned & (promptP & HevsP) & H).
    destruct (@executor_loop_invariant E (fun _ => True)
                (fun _ _ => I) (fun _ _ _ _ _ _ => I)
                (S (length (plan p))) p I (planned_enterable Hplanned))
      as (_ & Hev & _).
    destruct (loop_events_no_summarizer Hev) as (HzL & HlL).
    destruct (fst (executor_loop E (S (length (plan p))) p []))
      as [[st|e]|]; [| |contradiction].
    + destruct H as (outS & evsS & HshapeS & HokS & ->). cbn [fst snd].
      destruct (one_llm_call_no_state HshapeS) as (_ & HzS & _ & HlS).
      change (EnterPlanner :: evsP ++ ?l) with ([EnterPlanner] ++ evsP ++ l).
      rewrite !llm_calls_app, !summarizer_states_app, !length_app.
      rewrite HzP, HzL, HzS, HlL. cbn.
      split; [lia|]. split; [lia|].
      destruct outS as [st'|e]; [|exact I].
      destruct (HokS st' eq_refl) as (promptS & ->).
      subst evsP. cbn. split; reflexivity.
    + rewrite H. cbn [fst snd].
      change (EnterPlanner :: evsP ++ ?l) with ([EnterPlanner] ++ evsP ++ l).
      rewrite !llm_calls_app, !summarizer_states_app, !length_app.
      rewrite HzP, HzL, HlL. cbn. repeat split; lia.
  - rewrite H. cbn [fst snd].
    change (EnterPlanner :: evsP) with ([EnterPlanner] ++ evsP).
    rewrite !llm_calls_app, !summarizer_states_app, !length_app, HzP.
    cbn. repeat split; lia.
Qed.

(** X5.  For a step of the indications tool, the Executor decodes the
    query with [json.loads] and runs the tool on the decoded value, not
    on the text; when the decoding raises, the Executor raises the same
    exception and no tool is called. *)
Theorem indications_query_is_decoded (E : Env) (st : State)
  (log : list event) (step : PlanStep) :
  nth_error (plan st) (current_index st) = Some step ->
  tool step = name_recommend_by_indications ->
  _executor_node E st log =
  match json_loads E (query step) with
  | Raise e => (Some (Raise e), log)
  | Ok indications =>
      let called :=
        log ++ [CallTool (tool step) (InIndications indications)] in
      match recommend_by_indications E (InIndications indications) with
      | Ok res => (Some (Ok (stepped st step res)), called)
      | Raise e => (Some (Raise e), called)
      end
  end.
Proof.
  intros Hstep Hname.
  rewrite (executor_node_step E st log Hstep).
  unfold step_result. rewrite Hname.
  change (dict_get (tools E) name_recommend_by_indications)
    with (Some (recommend_by_indications E)).
  unfold invoke_tool. rewrite str_eqb_refl.
  unfold bind, lift, call_tool, emit.
  destruct (json_loads E (query step)) as [j|e]; [|reflexivity].
  cbv zeta. unfold bind.
  destruct (recommend_by_indications E (InIndications j)); reflexivity.
Qed.

Lemma indications_query_is_decoded_witness :
  _executor_node (Examples.env [] MoreExamples.echo_tool)
    (Examples.planned [MoreExamples.step_indications]) [] =
  (Some (Ok (stepped (Examples.planned [MoreExamples.step_indications])
               MoreExamples.step_indications
               (PyStr Examples.model_answer))),
   [CallTool name_recommend_by_indications (InIndications (JArray []))]).
Proof.
  exact (@indications_query_is_decoded
           (Examples.env [] MoreExamples.echo_tool)
           (Examples.planned [MoreExamples.step_indications]) []
           MoreExamples.step_indications eq_refl eq_refl).
Defined.

(** ** The planner *)

(** X6.  A response written as the prompt asks, one line
    [Tool: <tool_name> | Query: <query_content>] for each step, is read
    back as these steps, in order, each name and each query stripped of
    the white space around it; this holds when the names and the
    queries hold no pipe, no end of line and none of the two
    markers. *)
Theorem formatted_plan_is_read_back (steps : list (str * str)) :
  forallb (fun tq => plain (fst tq) && plain (snd tq)) steps = true ->
  parse_plan (format_plan steps) = Ok (spelled steps).
Proof.
  intros Hplain. unfold parse_plan, format_plan, spelled.
  destruct steps as [|tq steps]; [reflexivity|].
  rewrite split_on_join.
  - apply (parse_formatted_lines (tq :: steps) Hplain []).
  - discriminate.
  - apply Forall_forall. intros line Hin.
    apply in_map_iff in Hin as ([t q] & <- & Hin).
    rewrite forallb_forall in Hplain. specialize (Hplain _ Hin).
    apply andb_true_iff in Hplain as [Ht Hq].
    apply format_step_one_line; assumption.
Qed.

Lemma formatted_plan_is_read_back_witness :
  parse_plan (format_plan PlanExamples.two_steps)
  = Ok (spelled PlanExamples.two_steps).
Proof.
  apply formatted_plan_is_read_back. vm_compute. reflexivity.
Defined.

(** X7.  Reading a response never raises, and no tool name and no
    query of the plan begins or ends with white space. *)
Theorem plan_steps_are_trimmed (response : str) :
  exists plan,
    parse_plan response = Ok plan /\
    Forall
      (fun step => trimmed (tool step) = true /\ trimmed (query step) = true)
      plan.
Proof.
  destruct (parse_plan_spec response) as (plan & Hparse & Hsteps).
  exists plan. split; [exact Hparse|]. clear Hparse.
  induction Hsteps as [|line step lines steps Hstep _ IH]; [constructor|].
  constructor; [|exact IH].
  destruct Hstep as (tool_part & query_part & _ & _ & -> & ->).
  split; apply strip_trimmed.
Qed.

(** ** The tools *)

(** X8.  [search_by_query] searches the vector store with the text of
    the query before its first pipe, or with the whole query when it
    has no pipe, and returns the texts of the hits, each followed by an
    end of line; what it returns is empty exactly when the store found
    nothing. *)
Theorem search_by_query_reads_before_pipe (user_query : str)
  (search : Retrieval.VectorSearch) :
  exists medicine_name,
    ~ In pipe medicine_name /\
    (user_query = medicine_name \/
     exists rest, user_query = medicine_name ++ pipe :: rest) /\
    Retrieval.search_by_query user_query search =
    match search medicine_name with
    | Ok hits => Ok (PyStr (Retrieval.passages hits))
    | Raise e => Raise e
    end /\
    forall hits,
      truthy (PyStr (Retrieval.passages hits)) = true <-> hits <> [].
Proof.
  unfold Retrieval.search_by_query, Retrieval.effective_query.
  destruct (split_on pipe user_query) as [|h rest] eqn:Hsplit;
    [exfalso; exact (split_on_not_nil _ _ Hsplit)|].
  destruct (RetrievalFacts.split_on_head _ _ Hsplit) as (Hnot & Hshape).
  exists h. split; [exact Hnot|]. split; [exact Hshape|]. split.
  - destruct (search h) as [hits|e]; [|reflexivity].
    rewrite RetrievalFacts.passages_fold. reflexivity.
  - intros hits. rewrite RetrievalFacts.truthy_nonempty.
    rewrite RetrievalFacts.passages_empty. tauto.
Qed.

(** X9.  When [search_by_name] returns, every record it read (the
    first [top_k] matches) has metadata, and its text is not empty
    exactly when there is such a record.  When one of these records has
    no metadata, it raises. *)
Theorem search_by_name_needs_metadata (searcher : Tools.Searcher)
  (user_query : str) (top_k : nat) :
  let considered :=
    firstn top_k (Tools.find_medicine_regex searcher user_query) in
  (forall v,
      Retrieval.search_by_name user_query searcher top_k = Ok v ->
      Forall (fun r => Tools.metadata r <> None) considered /\
      (truthy v = true <-> considered <> [])) /\
  (forall r,
      In r considered -> Tools.metadata r = None ->
      exists e, Retrieval.search_by_name user_query searcher top_k = Raise e).
Proof.
  intros considered. unfold Retrieval.search_by_name. fold considered.
  split.
  - intros v Hv.
    destruct (Retrieval.name_lines searcher [] considered) as [result|e]
      eqn:Hlines; [|discriminate].
    inversion Hv; subst v.
    destruct (RetrievalFacts.name_lines_spec _ _ _ Hlines)
      as (Hall & tail & -> & Htail).
    split; [exact Hall|].
    rewrite RetrievalFacts.truthy_nonempty. simpl. tauto.
  - intros r Hin Hmd.
    destruct (RetrievalFacts.name_lines_raises searcher _ r Hin Hmd [])
      as (e & ->).
    exists e. reflexivity.
Qed.

Lemma search_by_name_needs_metadata_witness :
  exists e,
    Retrieval.search_by_name Examples.keyword MoreExamples.bare_store 5
    = Raise e.
Proof.
  apply (proj2 (search_by_name_needs_metadata MoreExamples.bare_store
                  Examples.keyword 5) MoreExamples.bare).
  - left. reflexivity.
  - reflexivity.
Defined.

(** X10.  When [recommend_by_indications] returns, every medicine it
    read (the first [top_k] of the store's answer) has metadata, and
    its text is not empty exactly when there is such a medicine.  A
    medicine without metadata makes it raise, where
    [recommend_alternatives] would read the metadata as [{}]. *)
Theorem recommend_by_indications_needs_metadata (searcher : Tools.Searcher)
  (find : list str -> list Retrieval.Hit) (indications : list str)
  (top_k : nat) :
  let considered := firstn top_k (find indications) in
  (forall v,
      Retrieval.recommend_by_indications indications top_k searcher find
      = Ok v ->
      Forall (fun d => Tools.metadata (Retrieval.medicine d) <> None)
        considered /\
      (truthy v = true <-> considered <> [])) /\
  (forall d,
      In d considered -> Tools.metadata (Retrieval.medicine d) = None ->
      (exists e,
          Retrieval.recommend_by_indications indications top_k searcher find
          = Raise e) /\
      Tools.metadata_of (Retrieval.medicine d) = text "{}").
Proof.
  intros considered. unfold Retrieval.recommend_by_indications.
  fold considered. split.
  - intros v Hv.
    destruct (Retrieval.indication_lines searcher [] considered)
      as [result|e] eqn:Hlines; [|discriminate].
    inversion Hv; subst v.
    destruct (RetrievalFacts.indication_lines_spec _ _ _ Hlines)
      as (Hall & tail & -> & Htail).
    split; [exact Hall|].
    rewrite RetrievalFacts.truthy_nonempty. simpl. tauto.
  - intros d Hin Hmd. split.
    + destruct (RetrievalFacts.indication_lines_raises searcher _ d
                  Hin Hmd []) as (e & ->).
      exists e. reflexivity.
    + unfold Tools.metadata_of. rewrite Hmd. reflexivity.
Qed.

Lemma recommend_by_indications_needs_metadata_witness :
  exists e,
    Retrieval.recommend_by_indications [] 5 MoreExamples.bare_store
      (fun _ => [Retrieval.mkHit MoreExamples.bare 1])
    = Raise e.
Proof.
  apply (proj2 (recommend_by_indications_needs_metadata
                  MoreExamples.bare_store
                  (fun _ => [Retrieval.mkHit MoreExamples.bare 1]) [] 5)
           (Retrieval.mkHit MoreExamples.bare 1)).
  - left. reflexivity.
  - reflexivity.
Defined.

(** X11.  [recommend_alternatives] recommends no name twice, and at
    most [top_k] names. *)
Theorem recommendations_are_distinct (searcher : Tools.Searcher)
  (keyword : str) (top_k : nat) :
  NoDup (map Tools.rec_name (Tools.returned searcher keyword top_k)) /\
  length (Tools.returned searcher keyword top_k) <= top_k.
Proof.
  unfold Tools.returned.
  destruct (Tools.find_medicine_regex searcher keyword) as [|medicine rest].
  - split; [constructor | simpl; lia].
  - split; [|apply firstn_le_length].
    rewrite <- firstn_map. apply RankingFacts.NoDup_firstn.
    rewrite RankingFacts.ranked_sorts_scored.
    eapply Permutation_NoDup.
    + apply Permutation_map. symmetry. apply RankingFacts.sort_recs_perm.
    + apply RankingFacts.scored_NoDup.
Qed.

(** X12.  The scores of the recommendations add up to the number of
    neighbours, over the three lists, that are not the target: each of
    them adds one to the score of its name, and the sort loses and adds
    nothing. *)
Theorem scores_count_other_neighbours (searcher : Tools.Searcher)
  (medicine_id : str) :
  Retrieval.total_score (Tools.ranked searcher medicine_id)
  = length (Retrieval.others searcher medicine_id) /\
  Permutation (Tools.ranked searcher medicine_id)
    (Retrieval.scored searcher medicine_id).
Proof.
  rewrite RankingFacts.ranked_sorts_scored.
  split; [|apply RankingFacts.sort_recs_perm].
  rewrite (RankingFacts.total_score_perm
             (RankingFacts.sort_recs_perm
                (Retrieval.scored searcher medicine_id))).
  rewrite RankingFacts.scored_total.
  destruct (RankingFacts.score_pass_dict medicine_id
              (Tools.neighbours searcher medicine_id) [])
    as (_ & -> & _).
  reflexivity.
Qed.

(** X13.  The ranking is the stable sort, larger scores first, of the
    names in the order in which they are first met among the
    neighbours that are not the target: recommendations of equal score
    keep that order. *)
Theorem ranking_is_stable (searcher : Tools.Searcher) (medicine_id : str) :
  map Tools.rec_name (Retrieval.scored searcher medicine_id)
  = Retrieval.first_seen
      (map Tools.name (Retrieval.others searcher medicine_id)) /\
  (forall k,
      filter (fun r => Tools.score r =? k)
        (Tools.ranked searcher medicine_id)
      = filter (fun r => Tools.score r =? k)
          (Retrieval.scored searcher medicine_id)) /\
  StronglySorted Tools.by_score (Tools.ranked searcher medicine_id).
Proof.
  rewrite RankingFacts.ranked_sorts_scored.
  split; [|split].
  - rewrite RankingFacts.scored_names.
    destruct (RankingFacts.score_pass_dict medicine_id
                (Tools.neighbours searcher medicine_id) [])
      as (-> & _ & _).
    reflexivity.
  - intros k. apply ToolsFacts.sort_recs_stable.
  - apply ToolsFacts.sort_recs_sorted.
Qed.

(** X14.  The metadata of a recommendation is that of the last
    neighbour of its name, other than the target, in the three lists:
    each neighbour overwrites what the one before left. *)
Theorem last_neighbour_gives_metadata (searcher : Tools.Searcher)
  (medicine_id : str) :
  Forall
    (fun r =>
       Retrieval.last_metadata (Tools.rec_name r)
         (Retrieval.others searcher medicine_id)
       = Some (Tools.rec_metadata r))
    (Tools.ranked searcher medicine_id).
Proof.
  apply Forall_forall. intros r Hin.
  rewrite RankingFacts.ranked_sorts_scored in Hin.
  apply (Permutation_in _ (RankingFacts.sort_recs_perm _)) in Hin.
  rewrite RankingFacts.scored_one_pass in Hin.
  apply in_map_iff in Hin as ([n [s md]] & <- & Hin). simpl.
  destruct (@ToolsFacts.score_pass_spec medicine_id
              (Tools.neighbours searcher medicine_id) []
              (NoDup_nil _) (Forall_nil _)) as (Hnd & _ & _).
  rewrite <- (RankingFacts.metadata_in_entry _ _ _ _ Hnd Hin).
  destruct (RankingFacts.score_pass_dict medicine_id
              (Tools.neighbours searcher medicine_id) [])
    as (_ & _ & Hmd).
  rewrite Hmd. reflexivity.
Qed.

(** X15.  When [recommend_alternatives] returns, it returns the empty
    list exactly when the keyword matches no medicine, and a text that
    is not empty exactly when it recommends something; so a medicine
    that is alone in the graph gives an empty text, which the Executor
    does not count as useful. *)
Theorem recommend_alternatives_useful_iff (searcher : Tools.Searcher)
  (keyword : str) (top_k : nat) (v : pyval) :
  Tools.recommend_alternatives keyword top_k searcher = Ok v ->
  (v = PyEmptyList <-> Tools.find_medicine_regex searcher keyword = []) /\
  (truthy v = true <-> Tools.returned searcher keyword top_k <> []).
Proof.
  unfold Tools.recommend_alternatives, Tools.returned.
  destruct (Tools.find_medicine_regex searcher keyword) as [|medicine rest].
  - intros Hv. inversion Hv; subst v. simpl.
    split; split; congruence.
  - destruct (Tools.format_recs searcher []
                (firstn top_k (Tools.ranked searcher (Tools.id medicine))))
      as [result|e] eqn:Hlines; [|discriminate].
    intros Hv. inversion Hv; subst v.
    destruct (RetrievalFacts.format_recs_spec _ _ _ Hlines)
      as (tail & -> & Htail).
    split; [split; discriminate|].
    rewrite RetrievalFacts.truthy_nonempty. simpl. tauto.
Qed.

Lemma recommend_alternatives_useful_iff_witness :
  truthy (PyStr []) = true <->
  Tools.returned MoreExamples.bare_store Examples.keyword 5 <> [].
Proof.
  apply (@recommend_alternatives_useful_iff MoreExamples.bare_store
           Examples.keyword 5 (PyStr []) eq_refl).
Defined.

(** ** The sessions *)

(** X16.  When the memory of a session's agent holds the messages of
    its chat history and a turn returns, the pair of the question and
    the answer is added to the chat history, and the memory again holds
    the messages of the chat history. *)
Theorem answered_turn_keeps_session_in_step (E : Env)
  (user_input session_id : str) (s s' : App.Sessions)
  (log log' : list event) (chat_history : list (str * pyval)) :
  App.in_step s session_id ->
  App.chatbot_interface E user_input session_id s log
  = (Some (Ok chat_history), s', log') ->
  App.in_step s' session_id /\
  dict_get (App.chat_histories s') session_id = Some chat_history /\
  exists old response,
    dict_get (App.chat_histories s) session_id = Some old /\
    chat_history = old ++ [(user_input, response)].
Proof.
  intros (old & Hh & Hm) Hrun.
  unfold App.chatbot_interface in Hrun. rewrite Hm, Hh in Hrun.
  pose proof (AppFacts.run_memory E user_input (App.messages_of old) log)
    as Hmem.
  destruct (run E user_input (App.messages_of old) log)
    as [[out memory'] log1].
  cbn [fst snd] in Hmem.
  destruct out as [[response|e]|]; inversion Hrun; subst. clear Hrun.
  unfold App.in_step. cbn [App.chat_histories App.rag_agents].
  split; [|split].
  - exists (old ++ [(user_input, response)]).
    rewrite !AppFacts.dict_get_set_same. split; [reflexivity|].
    rewrite AppFacts.messages_of_app. reflexivity.
  - apply AppFacts.dict_get_set_same.
  - exists old, response. auto.
Qed.

Lemma answered_turn_keeps_session_in_step_witness :
  App.in_step
    (snd (fst (App.chatbot_interface
                 (Examples.env Examples.three_lines Examples.silent_tool)
                 Examples.ask Examples.ask MoreExamples.one_session [])))
    Examples.ask.
Proof.
  refine (proj1 (@answered_turn_keeps_session_in_step
                   (Examples.env Examples.three_lines Examples.silent_tool)
                   Examples.ask Examples.ask MoreExamples.one_session
                   _ [] _ _ _ _)).
  - exists []. split; reflexivity.
  - vm_compute. reflexivity.
Defined.

(** X17.  When a turn raises, the chat history of the session is left
    as it was, but the memory of its agent has the question added with
    no answer: the two are out of step, and the next turn of the
    session plans with the unanswered question in its history. *)
Theorem failed_turn_leaves_question (E : Env)
  (user_input session_id : str) (s s' : App.Sessions)
  (log log' : list event) (e : exn) (old : list (str * pyval)) :
  dict_get (App.chat_histories s) session_id = Some old ->
  dict_get (App.rag_agents s) session_id = Some (App.messages_of old) ->
  App.chatbot_interface E user_input session_id s log
  = (Some (Raise e), s', log') ->
  dict_get (App.chat_histories s') session_id = Some old /\
  dict_get (App.rag_agents s') session_id
  = Some (App.messages_of old ++ [mkMessage human (PyStr user_input)]) /\
  ~ App.in_step s' session_id.
Proof.
  intros Hh Hm Hrun.
  unfold App.chatbot_interface in Hrun. rewrite Hm, Hh in Hrun.
  pose proof (AppFacts.run_memory E user_input (App.messages_of old) log)
    as Hmem.
  destruct (run E user_input (App.messages_of old) log)
    as [[out memory'] log1].
  cbn [fst snd] in Hmem.
  destruct out as [[response|e0]|]; inversion Hrun; subst. clear Hrun.
  cbn [App.chat_histories App.rag_agents].
  rewrite AppFacts.dict_get_set_same.
  split; [exact Hh|]. split; [reflexivity|].
  intros (h & Hh' & Hm'). cbn [App.chat_histories App.rag_agents] in Hh', Hm'.
  rewrite AppFacts.dict_get_set_same in Hm'.
  rewrite Hh in Hh'. inversion Hh'; subst h.
  inversion Hm' as [Heq].
  apply (f_equal (@length Message)) in Heq.
  rewrite length_app in Heq. simpl in Heq. lia.
Qed.

Lemma failed_turn_leaves_question_witness :
  dict_get
    (App.rag_agents
       (snd (fst (App.chatbot_interface
                    (Examples.env Examples.line_a Examples.failing_tool)
                    Examples.ask Examples.ask MoreExamples.one_session []))))
    Examples.ask
  = Some [mkMessage human (PyStr Examples.ask)].
Proof.
  refine (proj1 (proj2 (@failed_turn_leaves_question
                   (Examples.env Examples.line_a Examples.failing_tool)
                   Examples.ask Examples.ask MoreExamples.one_session
                   _ [] _ (OtherError 1) [] _ _ _))).
  - reflexivity.
  - reflexivity.
  - vm_compute. reflexivity.
Defined.

(** X18.  [init_session] and, for a session that exists, [reset_chat]
    leave the session with an empty chat history and an empty memory.
    For a session that does not exist, [reset_chat] raises [KeyError],
    yet it has already given the session an empty chat history. *)
Theorem reset_empties_session (session_id : str) (s : App.Sessions) :
  (dict_get (App.chat_histories (App.init_session session_id s)) session_id
   = Some [] /\
   dict_get (App.rag_agents (App.init_session session_id s)) session_id
   = Some []) /\
  dict_get (App.chat_histories (snd (App.reset_chat session_id s)))
    session_id = Some [] /\
  match dict_get (App.rag_agents s) session_id with
  | Some _ =>
      fst (App.reset_chat session_id s) = Ok ([], []) /\
      dict_get (App.rag_agents (snd (App.reset_chat session_id s)))
        session_id = Some []
  | None =>
      fst (App.reset_chat session_id s) = Raise Retrieval.key_error /\
      App.rag_agents (snd (App.reset_chat session_id s)) = App.rag_agents s
  end.
Proof.
  unfold App.init_session, App.reset_chat.
  cbn [App.chat_histories App.rag_agents].
  split; [split; apply AppFacts.dict_get_set_same|].
  destruct (dict_get (App.rag_agents s) session_id) as [memory|];
    cbn [fst snd App.chat_histories App.rag_agents].
  - split; [apply AppFacts.dict_get_set_same|].
    split; [reflexivity | apply AppFacts.dict_get_set_same].
  - split; [apply AppFacts.dict_get_set_same|].
    split; reflexivity.
Qed.

(** X19.  A turn, a reset and the start of a session touch no other
    session: the chat history and the memory of any other session are
    as they were. *)
Theorem sessions_are_separate (E : Env) (user_input session_id other : str)
  (s : App.Sessions) (log : list event) :
  other <> session_id ->
  let untouched (s' : App.Sessions) :=
    dict_get (App.chat_histories s') other
    = dict_get (App.chat_histories s) other /\
    dict_get (App.rag_agents s') other = dict_get (App.rag_agents s) other in
  untouched (snd (fst (App.chatbot_interface E user_input session_id s log)))
  /\ untouched (snd (App.reset_chat session_id s))
  /\ untouched (App.init_session session_id s).
Proof.
  intros Hne untouched. unfold untouched.
  split; [|split].
  - unfold App.chatbot_interface.
    destruct (dict_get (App.rag_agents s) session_id) as [memory|];
      [|split; reflexivity].
    destruct (dict_get (App.chat_histories s) session_id) as [history|];
      [|split; reflexivity].
    destruct (run E user_input memory log) as [[out memory'] log1].
    destruct out as [[response|e]|];
      cbn [fst snd App.chat_histories App.rag_agents];
      rewrite ?AppFacts.dict_get_set_other by exact Hne;
      split; reflexivity.
  - unfold App.reset_chat.
    destruct (dict_get (App.rag_agents s) session_id) as [memory|];
      cbn [fst snd App.chat_histories App.rag_agents];
      rewrite ?AppFacts.dict_get_set_other by exact Hne;
      split; reflexivity.
  - unfold App.init_session.
    cbn [App.chat_histories App.rag_agents].
    rewrite !AppFacts.dict_get_set_other by exact Hne.
    split; reflexivity.
Qed.

Lemma sessions_are_separate_witness :
  dict_get
    (App.rag_agents (App.init_session Examples.keyword
                       MoreExamples.one_session))
    Examples.ask
  = dict_get (App.rag_agents MoreExamples.one_session) Examples.ask.
Proof.
  refine (proj2 (proj2 (proj2 (@sessions_are_separate
            (Examples.env [] Examples.silent_tool) Examples.ask
            Examples.keyword Examples.ask MoreExamples.one_session [] _)))).
  vm_compute. discriminate.
Defined.

(** ** The chunks of the texts *)

(** X20.  [process_overlap] puts the first line of the text and a
    space before every chunk, and loses no word: the words of the
    chunks, after this start, are the words of the other lines of the
    text, in order; and what follows the start begins and ends with no
    white space. *)
Theorem overlap_keeps_every_word (text : str) :
  exists bodies,
    Chunks.process_overlap text
    = map (fun body => hd [] (split_on newline text) ++ [space] ++ body)
        bodies /\
    Chunks.all_words bodies
    = Chunks.all_words (tl (split_on newline text)) /\
    Forall (fun body => trimmed body = true) bodies.
Proof.
  destruct (split_on newline text) as [|prefix contents] eqn:Hsplit;
    [exfalso; exact (split_on_not_nil _ _ Hsplit)|].
  destruct (ChunksFacts.process_overlap_bodies _ Hsplit)
    as (bodies & Hres & Hwords & Hall).
  exists bodies. cbn [hd tl].
  split; [exact Hres|]. split; [exact Hwords|].
  eapply Forall_impl; [|exact Hall]. intros body [H _]. exact H.
Qed.

(** X21.  A chunk of [process_overlap] holds, after the first line of
    the text, at most 98 words, unless it is one line of the text
    alone. *)
Theorem overlap_chunks_are_bounded (text : str) :
  Forall
    (fun chunk =>
       exists body,
         chunk = hd [] (split_on newline text) ++ [space] ++ body /\
         (length (Chunks.words body) <= 98 \/
          exists line,
            In line (tl (split_on newline text)) /\ body = strip line))
    (Chunks.process_overlap text).
Proof.
  destruct (split_on newline text) as [|prefix contents] eqn:Hsplit;
    [exfalso; exact (split_on_not_nil _ _ Hsplit)|].
  destruct (ChunksFacts.process_overlap_bodies _ Hsplit)
    as (bodies & -> & _ & Hall).
  cbn [hd tl]. apply Forall_forall. intros chunk Hin.
  apply in_map_iff in Hin as (body & <- & Hin).
  rewrite Forall_forall in Hall. destruct (Hall body Hin) as [_ Hb].
  exists body. split; [reflexivity | exact Hb].
Qed.

(** X22.  When the line after the first has 99 words or more,
    [process_overlap] begins with a chunk that holds the first line and
    a space and nothing else. *)
Theorem long_first_line_gives_empty_chunk (text prefix line : str)
  (rest : list str) :
  split_on newline text = prefix :: line :: rest ->
  99 <= length (Chunks.words line) ->
  exists more, Chunks.process_overlap text = (prefix ++ [space]) :: more.
Proof.
  intros Hsplit Hlong. unfold Chunks.process_overlap.
  destruct text as [|c text']; [discriminate|].
  rewrite Hsplit. cbn [fold_left]. unfold Chunks.overlap_step at 2.
  assert (Hfit : (length (Chunks.words []) + length (Chunks.words line) + 1
                  <? 100) = false)
    by (apply Nat.ltb_ge; cbn; lia).
  rewrite Hfit.
  destruct (ChunksFacts.overlap_loop_grows prefix rest
              ([] ++ [Chunks.chunk prefix []]) (line ++ [space]))
    as (more & Hmore).
  destruct (fold_left (Chunks.overlap_step prefix) rest
              ([] ++ [Chunks.chunk prefix []], line ++ [space]))
    as [result current] eqn:Hfold.
  assert (Hres : result = ([] ++ [Chunks.chunk prefix []]) ++ more).
  { transitivity (fst (result, current)); [reflexivity|].
    rewrite <- Hfold. exact Hmore. }
  subst result.
  destruct (strip current); eexists; cbn [app]; reflexivity.
Qed.

Lemma long_first_line_gives_empty_chunk_witness :
  exists more,
    Chunks.process_overlap Chunks.long_text
    = (Chunks.heading ++ [space]) :: more.
Proof.
  apply (@long_first_line_gives_empty_chunk Chunks.long_text Chunks.heading
           (Chunks.long_line 99) []).
  - vm_compute. reflexivity.
  - vm_compute. lia.
Defined.

(** X23.  For a name without a pipe, every chunk of [process_qa_doc]
    begins with the question heading [Câu hỏi dành cho <name>: ] and
    holds no pipe: every pipe of the text is a separator or has become
    the mark of an answer. *)
Theorem qa_chunks_have_no_pipe (doc name : str) :
  Chunks.pipe_free name = true ->
  Forall
    (fun chunk =>
       starts_with (text "Câu hỏi dành cho " ++ name ++ text ": ") chunk
       = true /\
       Chunks.pipe_free chunk = true)
    (Chunks.process_qa_doc doc name).
Proof.
  intros Hname.
  change (text "Câu hỏi dành cho " ++ name ++ text ": ")
    with (Chunks.question_for name). apply ChunksFacts.pipe_free_In in Hname.
  rewrite ChunksFacts.process_qa_doc_loop.
  eapply Forall_impl; [|apply ChunksFacts.qa_loop_chunks].
  intros chunk (pair & _ & _ & ->).
  rewrite (@ChunksFacts.qa_chunk name pair Hname).
  split; [apply starts_with_self|].
  apply ChunksFacts.In_pipe_free. apply ChunksFacts.not_In_app.
  - apply ChunksFacts.question_for_pipe_free. exact Hname.
  - apply ChunksFacts.replace_char_gone.
    apply ChunksFacts.pipe_free_In. reflexivity.
Qed.

Lemma qa_chunks_have_no_pipe_witness :
  Forall
    (fun chunk =>
       starts_with (text "Câu hỏi dành cho Panadol: ") chunk = true /\
       Chunks.pipe_free chunk = true)
    (Chunks.process_qa_doc (Chunks.qa_text Chunks.qa_example)
       Chunks.medicine_name).
Proof.
  apply (@qa_chunks_have_no_pipe (Chunks.qa_text Chunks.qa_example)
           Chunks.medicine_name).
  vm_compute. reflexivity.
Defined.

(** X24.  A text of questions and answers, a pipe between a question
    and its answer and two pipes between the pairs, gives one chunk a
    pair, in order: the question heading of the name, the question, the
    mark of an answer and the answer.  This holds when the name, the
    questions and the answers hold no pipe and no answer is empty. *)
Theorem qa_pairs_are_read_back (pairs : list (str * str)) (name : str) :
  Chunks.pipe_free name = true ->
  forallb Chunks.well_formed pairs = true ->
  Chunks.process_qa_doc (Chunks.qa_text pairs) name
  = map
      (fun qa =>
         (text "Câu hỏi dành cho " ++ name ++ text ": ") ++ fst qa
         ++ ([newline] ++ text " Trả lời: ") ++ snd qa)
      pairs.
Proof.
  intros Hname Hall. apply ChunksFacts.pipe_free_In in Hname.
  change (fun qa : str * str =>
            (text "Câu hỏi dành cho " ++ name ++ text ": ") ++ fst qa
            ++ ([newline] ++ text " Trả lời: ") ++ snd qa)
    with (fun qa : str * str =>
            Chunks.question_for name ++ fst qa ++ Chunks.answer_mark
            ++ snd qa).
  rewrite ChunksFacts.process_qa_doc_loop. unfold Chunks.qa_text.
  destruct pairs as [|qa pairs]; [reflexivity|].
  rewrite ChunksFacts.split_str_join.
  - apply ChunksFacts.qa_loop_pairs; assumption.
  - discriminate.
  - apply Forall_forall. intros part Hin.
    apply in_map_iff in Hin as (qa' & <- & Hin).
    apply ChunksFacts.qa_pair_clean.
    rewrite forallb_forall in Hall. exact (Hall qa' Hin).
Qed.

Lemma qa_pairs_are_read_back_witness :
  Chunks.process_qa_doc (Chunks.qa_text Chunks.qa_example)
    Chunks.medicine_name
  = map
      (fun qa =>
         text "Câu hỏi dành cho Panadol: " ++ fst qa
         ++ ([newline] ++ text " Trả lời: ") ++ snd qa)
      Chunks.qa_example.
Proof.
  apply (@qa_pairs_are_read_back Chunks.qa_example Chunks.medicine_name);
    vm_compute; reflexivity.
Defined.

(** ** The graph *)

(** X25.  Whatever [insert_to_db] is given and however it ends, the
    entities it created have distinct names, their identifiers are the
    first that [uuid4] gave, in order, and both ends of every
    relationship it created are identifiers of entities it created. *)
Theorem loaded_graph_is_sound (lib : GraphLoad.Source)
  (data : option (list GraphLoad.Row)) :
  let writes := snd (GraphLoad.insert_to_db lib data) in
  NoDup (GraphLoad.created_names writes) /\
  GraphLoad.created_ids writes
  = map (GraphLoad.uuid4 lib)
      (seq 0 (length (GraphLoad.created_ids writes))) /\
  Forall (GraphLoad.ends_among (GraphLoad.created_ids writes)) writes.
Proof.
  assert (Hnil :
            NoDup (GraphLoad.created_names []) /\
            GraphLoad.created_ids []
            = map (GraphLoad.uuid4 lib)
                (seq 0 (length (GraphLoad.created_ids []))) /\
            Forall (GraphLoad.ends_among (GraphLoad.created_ids [])) []).
  { cbn. repeat split; constructor. }
  unfold GraphLoad.insert_to_db. destruct data as [data|]; [|exact Hnil].
  pose proof (GraphLoadFacts.build_sound lib data) as Hsound.
  destruct (GraphLoad.build lib data) as [[[]|e] b]; [|exact Hnil].
  cbn [snd] in Hsound. destruct Hsound as (Hnd & _ & Hids & Hrels).
  unfold GraphLoad.write_graph.
  destruct (GraphLoadFacts.create_entities_spec lib (GraphLoad.nodes b))
    as (k & Hk & Hnames & Hcreated & Hends & _).
  destruct (GraphLoad.create_entities lib (GraphLoad.nodes b))
    as [[[]|e] writes] eqn:Hrun; cbn [snd] in *.
  - destruct (GraphLoadFacts.create_entities_all _ _ Hrun) as [Hn Hi].
    destruct (GraphLoadFacts.created_ids_relationships
                (GraphLoad.relationships b)) as [Hri Hrn].
    unfold GraphLoad.created_names, GraphLoad.created_ids in *.
    rewrite !flat_map_app, Hri, Hrn, !app_nil_r, Hn, Hi.
    split; [exact Hnd|]. split.
    + rewrite length_map. exact Hids.
    + apply Forall_app. split; [apply Hends|].
      unfold GraphLoad.create_relationships.
      apply Forall_forall. intros w Hw.
      apply in_map_iff in Hw as (r & <- & Hr).
      rewrite Forall_forall in Hrels. exact (Hrels r Hr).
  - split; [|split; [|apply Hends]].
    + rewrite Hnames. apply RankingFacts.NoDup_firstn. exact Hnd.
    + rewrite Hcreated.
      change (map (fun e : str * GraphLoad.Node => fst (snd e))
                (GraphLoad.nodes b)) with (GraphLoad.ids b).
      rewrite Hids.
      rewrite firstn_map, GraphLoadFacts.firstn_seq_le by exact Hk.
      rewrite length_map, length_seq. reflexivity.
Qed.

(** X26.  When every row has a name and some row has no type, as a
    cell that the CSV leaves empty gives, [insert_to_db] raises
    [KeyError] and creates nothing, whatever the other rows hold. *)
Theorem empty_type_aborts_the_load (lib : GraphLoad.Source)
  (data : list GraphLoad.Row) :
  forallb (GraphLoad.named lib) data = true ->
  forallb (GraphLoad.typed lib) data = false ->
  GraphLoad.insert_to_db lib (Some data) = (Raise Retrieval.key_error, []).
Proof.
  intros Hnamed Htyped. unfold GraphLoad.insert_to_db, GraphLoad.build.
  destruct (@GraphLoadFacts.rows_raise lib data GraphLoad.empty)
    as (b' & ->); [constructor | exact Hnamed | exact Htyped |].
  reflexivity.
Qed.

Lemma empty_type_aborts_the_load_witness :
  GraphLoad.insert_to_db GraphLoad.example_source
    (Some [GraphLoad.panadol; GraphLoad.untyped])
  = (Raise Retrieval.key_error, []).
Proof.
  apply empty_type_aborts_the_load; vm_compute; reflexivity.
Defined.

(** X27.  When every row has a type, the loop over the rows returns:
    no look-up in [nodes] fails, and what goes wrong in reading the
    ingredients of a row is caught; [insert_to_db] then writes the
    graph that the loop built. *)
Theorem typed_rows_are_loaded (lib : GraphLoad.Source)
  (data : list GraphLoad.Row) :
  forallb (GraphLoad.typed lib) data = true ->
  exists b,
    GraphLoad.build lib data = (Ok tt, b) /\
    GraphLoad.insert_to_db lib (Some data) = GraphLoad.write_graph lib b.
Proof.
  intros Htyped. rewrite forallb_forall in Htyped.
  destruct (@GraphLoadFacts.returns_for_each (fun _ => True) GraphLoad.Row
              (GraphLoad.insert_row lib) data
              (fun d Hd => GraphLoadFacts.insert_row_returns lib d
                             (Htyped d Hd))
              GraphLoad.empty I)
    as (b & Hrun & _).
  exists b. unfold GraphLoad.insert_to_db, GraphLoad.build.
  rewrite Hrun. split; reflexivity.
Qed.

Lemma typed_rows_are_loaded_witness :
  exists b,
    GraphLoad.build GraphLoad.example_source [GraphLoad.panadol] = (Ok tt, b) /\
    GraphLoad.insert_to_db GraphLoad.example_source (Some [GraphLoad.panadol])
    = GraphLoad.write_graph GraphLoad.example_source b.
Proof.
  apply typed_rows_are_loaded. vm_compute. reflexivity.
Defined.

(** X28.  [insert_to_db] creates no relationship of the kind
    [THÀNH PHẦN]: the ingredients are put in lower case before the line
    [Hàm lượng], with its capital, is looked for among them, so that
    the search raises and the rest of the [try] is skipped.  This holds
    when the lowered ingredients hold no capital H. *)
Theorem no_ingredient_is_linked (lib : GraphLoad.Source)
  (data : list GraphLoad.Row) :
  GraphLoad.lowered lib data = true ->
  Forall (fun w => GraphLoad.is_of_kind (text "THÀNH PHẦN") w = false)
    (snd (GraphLoad.insert_to_db lib (Some data))).
Proof.
  intros Hlow. unfold GraphLoad.lowered in Hlow.
  change (text "THÀNH PHẦN") with Tools.rel_ingredient.
  rewrite forallb_forall in Hlow.
  assert (Hnone : GraphLoad.none_of Tools.rel_ingredient
                    (snd (GraphLoad.build lib data))).
  { apply (@GraphLoadFacts.keeps_for_each
             (GraphLoad.none_of Tools.rel_ingredient) GraphLoad.Row
             (GraphLoad.insert_row lib) data); [|constructor].
    intros d Hd. apply GraphLoadFacts.insert_row_no_ingredient.
    apply negb_true_iff. exact (Hlow d Hd). }
  unfold GraphLoad.insert_to_db.
  destruct (GraphLoad.build lib data) as [[[]|e] b]; [|constructor].
  cbn [snd] in Hnone. unfold GraphLoad.write_graph.
  destruct (GraphLoadFacts.create_entities_spec lib (GraphLoad.nodes b))
    as (_ & _ & _ & _ & _ & Hkind).
  specialize (Hkind Tools.rel_ingredient).
  destruct (GraphLoad.create_entities lib (GraphLoad.nodes b))
    as [[[]|e] writes]; cbn [snd] in *; [|exact Hkind].
  apply Forall_app. split; [exact Hkind|].
  unfold GraphLoad.create_relationships.
  apply Forall_forall. intros w Hw.
  apply in_map_iff in Hw as (r & <- & Hr).
  unfold GraphLoad.none_of in Hnone. rewrite Forall_forall in Hnone.
  cbn [GraphLoad.is_of_kind]. apply str_eqb_neq. exact (Hnone r Hr).
Qed.

Lemma no_ingredient_is_linked_witness :
  Forall (fun w => GraphLoad.is_of_kind (text "THÀNH PHẦN") w = false)
    (snd (GraphLoad.insert_to_db GraphLoad.example_source
            (Some [GraphLoad.panadol]))).
Proof.
  apply no_ingredient_is_linked. vm_compute. reflexivity.
Defined.
